(** * cf-ddns: the update-reconciliation engine, embedded and verified

    A shallow embedding of the Go packages [config], [ipdetect], [cloudflare]
    and [updater] of cf-ddns, followed by theorems about the reconciliation
    engine.

    Conventions of the embedding:
    - a Go [string] is a [string]; a Go [int] is a [Z] (the code never does
      arithmetic on one, only comparisons);
    - a Go [error] value is a term of [error]: one constructor per
      [fmt.Errorf] site, carrying the arguments of the format string, and
      [ErrExternal] for errors made outside the repository (net/http,
      cloudflare-go);
    - a Go function returning [(T, error)] whose every [return] statement has
      exactly one of the two non-nil returns a [result T]; a function returning
      only [error] returns an [option error], [None] being [nil];
    - a call that can panic comes to an [outcome]: [Returned] with what it
      returns, or [Panicked]; the panic of a callee is the panic of its
      caller, and the panic of a goroutine terminates the program;
    - everything a goroutine does to the outside world or to shared memory is
      an [action]; code is written in the monad [prog] of action trees, which
      is then given a sequential semantics ([run]) and an interleaving one
      (the goroutine pool of [UpdateAll]);
    - [d.fetchIP], one HTTP request to a lookup service and the validation
      of its answer, is a single action, answered by the environment like
      the calls to the provider's API;
    - [context.Context] is not modelled (the daemon passes
      [context.Background()], which is never cancelled), and neither is the
      output of [log.Printf]. *)

From stdpp Require Import base strings list gmap pretty.
From Stdlib Require Import Ascii ZArith Lia.

Local Open Scope string_scope.
Local Open Scope Z_scope.
Local Open Scope list_scope.

(** ** Errors *)

Inductive error : Type :=
  | ErrExternal (msg : string)
      (* an error value produced by net/http or by cloudflare-go *)
  | ErrDetectIPv4
      (* "failed to detect IPv4 address from all services" *)
  | ErrDetectIPv6
      (* "failed to detect IPv6 address from all services" *)
  | ErrListDNS (e : error)
      (* "failed to list DNS records: %w" *)
  | ErrRecordNotFound (name recordType : string)
      (* "DNS record not found: %s (%s)" *)
  | ErrUpdateDNS (e : error)
      (* "failed to update DNS record: %w" *)
  | ErrCreateDNS (e : error)
      (* "failed to create DNS record: %w" *)
  | ErrInvalidRecordType (recordType : string)
      (* "invalid record type: %s" *)
  | ErrFailedDetectIP (e : error)
      (* "failed to detect IP: %w" *)
  | ErrFailedUpdateCloudflare (e : error)
      (* "failed to update Cloudflare DNS: %w" *)
  | ErrFailedToUpdate (name recordType : string) (e : error)
      (* "failed to update %s (%s): %w" *)
  | ErrEncountered (n : nat)
      (* "encountered %d error(s) during update" *).

Inductive result (A : Type) : Type :=
  | Ok (a : A)
  | Err (e : error).
Arguments Ok {A} a.
Arguments Err {A} e.

(** What a call comes to: it returns, or it panics.  The one panic in the
    code below is the dereference of a nil pointer in package cloudflare.
    Nothing recovers it: it unwinds the callers, runs the deferred calls of
    its goroutine, and then terminates the program. *)
Inductive outcome (A : Type) : Type :=
  | Returned (a : A)
  | Panicked.
Arguments Returned {A} a.
Arguments Panicked {A}.

(** ** The records of the cloudflare-go library

    [cloudflare.DNSRecord] is declared by the library, not by this
    repository; the code reads the six fields below.  The library's [Proxied]
    field is a [*bool], which the library leaves nil when the answer of the
    provider has no such field: [None] is the nil pointer. *)

Record CFRecord : Type := {
  cf_ID : string;
  cf_Name : string;
  cf_Type : string;
  cf_Content : string;
  cf_TTL : Z;
  cf_Proxied : option bool
}.

(** ** Actions and programs *)

(** What a goroutine can do to the world outside its own locals. *)
Inductive action : Type → Type :=
  | FetchIP (url : string) (isIPv6 : bool) : action (result string)
      (* d.fetchIP(ctx, url, isIPv6): HTTP GET and validation of the answer *)
  | CacheIP (isIPv6 : bool) (ip : string) : action unit
      (* d.ipv4Cache = ip / d.ipv6Cache = ip (d.lastUpdate is left out) *)
  | StateGet (zoneID name recordType : string) : action string
      (* u.state.Get, under the read lock *)
  | StateSet (zoneID name recordType ip : string) : action unit
      (* u.state.Set, under the write lock *)
  | ApiListDNSRecords (zoneID name recordType : string) : action (result (list CFRecord))
      (* c.api.ListDNSRecords with the Name and Type filters *)
  | ApiUpdateDNSRecord (zoneID recordID content : string) (ttl : Z) (proxied : bool)
      : action (result CFRecord)
      (* c.api.UpdateDNSRecord *)
  | ApiCreateDNSRecord (zoneID name recordType content : string) (ttl : Z) (proxied : bool)
      : action (result CFRecord)
      (* c.api.CreateDNSRecord *).

(** An action together with what it answered: the entries of a trace. *)
Inductive event : Type :=
  | EvFetchIP (url : string) (isIPv6 : bool) (r : result string)
  | EvCacheIP (isIPv6 : bool) (ip : string)
  | EvStateGet (zoneID name recordType : string) (ip : string)
  | EvStateSet (zoneID name recordType ip : string)
  | EvList (zoneID name recordType : string) (r : result (list CFRecord))
  | EvUpdate (zoneID recordID content : string) (ttl : Z) (proxied : bool) (r : result CFRecord)
  | EvCreate (zoneID name recordType content : string) (ttl : Z) (proxied : bool)
      (r : result CFRecord).

Definition event_of {X} (a : action X) : X → event :=
  match a in action X return X → event with
  | FetchIP url v6 => EvFetchIP url v6
  | CacheIP v6 ip => λ _, EvCacheIP v6 ip
  | StateGet z n t => EvStateGet z n t
  | StateSet z n t ip => λ _, EvStateSet z n t ip
  | ApiListDNSRecords z n t => EvList z n t
  | ApiUpdateDNSRecord z id c ttl p => EvUpdate z id c ttl p
  | ApiCreateDNSRecord z n t c ttl p => EvCreate z n t c ttl p
  end.

(** Finite trees of actions: the code of one goroutine. *)
Inductive prog (A : Type) : Type :=
  | Ret (a : A)
  | Vis {X : Type} (act : action X) (k : X → prog A).
Arguments Ret {A} a.
Arguments Vis {A X} act k.

Fixpoint prog_bind {A B} (f : A → prog B) (p : prog A) : prog B :=
  match p with
  | Ret a => f a
  | Vis act k => Vis act (λ x, prog_bind f (k x))
  end.

#[global] Instance prog_ret : MRet prog := @Ret.
#[global] Instance prog_mbind : MBind prog := @prog_bind.

Definition call {X} (act : action X) : prog X := Vis act Ret.

(** A call that may panic is a program with an [outcome].  Sequencing such
    calls: the panic of the callee is the panic of the caller. *)
Definition try_bind {A B} (f : A → prog (outcome B)) (p : prog (outcome A))
    : prog (outcome B) :=
  o ← p;
  match o with
  | Returned a => f a
  | Panicked => mret Panicked
  end.

Notation "x ←! p ; k" := (try_bind (λ x, k) p)
  (at level 20, p at level 100, k at level 200, only parsing) : stdpp_scope.

(** ** Package config *)

Module config.

Record DNSRecord : Type := {
  ZoneID : string;
  Name : string;
  Types : list string;  (* A, AAAA *)
  TTL : Z;
  Proxied : bool
}.

Record Config : Type := {
  APIToken : string;       (* Cloudflare.APIToken *)
  CheckInterval : string;
  Records : list DNSRecord
}.

Inductive config_error : Type :=
  | ErrAPITokenRequired          (* "cloudflare.api_token is required" *)
  | ErrCheckIntervalRequired     (* "check_interval is required" *)
  | ErrCheckIntervalFormat (e : error)
                                 (* "invalid check_interval format: %w" *)
  | ErrNoRecords                 (* "at least one DNS record must be configured" *)
  | ErrZoneIDRequired (i : nat)  (* "record %d: zone_id is required" *)
  | ErrNameRequired (i : nat)    (* "record %d: name is required" *)
  | ErrTypesRequired (i : nat)
                                 (* "record %d: at least one type (A or AAAA) is required" *)
  | ErrInvalidType (i : nat) (t : string)
                                 (* "record %d: invalid type %s (must be A or AAAA)" *)
  | ErrTTLRange (i : nat)        (* "record %d: ttl must be between 60 and 86400" *).

Section Validate.
(** [time.ParseDuration] of the Go standard library, reduced to the error
    it returns. *)
Variable ParseDuration : string → option error.

(** The inner loop [for _, t := range record.Types]. *)
Fixpoint Validate_types (i : nat) (types : list string) : option config_error :=
  match types with
  | [] => None
  | t :: rest =>
      if bool_decide (t ≠ "A") && bool_decide (t ≠ "AAAA")
      then Some (ErrInvalidType i t)
      else Validate_types i rest
  end.

(** The body of [for i, record := range c.Records]. *)
Definition Validate_record (i : nat) (record : DNSRecord) : option config_error :=
  if bool_decide (ZoneID record = "") then Some (ErrZoneIDRequired i)
  else if bool_decide (Name record = "") then Some (ErrNameRequired i)
  else if bool_decide (length (Types record) = 0%nat) then Some (ErrTypesRequired i)
  else match Validate_types i (Types record) with
       | Some e => Some e
       | None =>
           if bool_decide (TTL record < 60) || bool_decide (TTL record > 86400)
           then Some (ErrTTLRange i)
           else None
       end.

Fixpoint Validate_records (i : nat) (records : list DNSRecord) : option config_error :=
  match records with
  | [] => None
  | record :: rest =>
      match Validate_record i record with
      | Some e => Some e
      | None => Validate_records (S i) rest
      end
  end.

Definition Validate (c : Config) : option config_error :=
  if bool_decide (APIToken c = "") then Some ErrAPITokenRequired
  else if bool_decide (CheckInterval c = "") then Some ErrCheckIntervalRequired
  else match ParseDuration (CheckInterval c) with
       | Some e => Some (ErrCheckIntervalFormat e)
       | None =>
           if bool_decide (length (Records c) = 0%nat) then Some ErrNoRecords
           else Validate_records 0 (Records c)
       end.
End Validate.

End config.

(** ** Package ipdetect *)

Module ipdetect.

Definition ipv4Services : list string :=
  [ "https://api.ipify.org";
    "https://icanhazip.com";
    "https://ifconfig.me/ip";
    "https://checkip.amazonaws.com" ].

Definition ipv6Services : list string :=
  [ "https://api64.ipify.org";
    "https://ipv6.icanhazip.com";
    "https://v6.ident.me" ].

(** [GetIPv4] and [GetIPv6] are the same loop, over their own list of
    services and with their own error: [for _, service := range services],
    the first service that answers without error and with a non-empty
    address wins. *)
Fixpoint GetIP_loop (isIPv6 : bool) (services : list string) : prog (result string) :=
  match services with
  | [] => mret (Err (if isIPv6 then ErrDetectIPv6 else ErrDetectIPv4))
  | service :: rest =>
      Vis (FetchIP service isIPv6) (λ r,
        match r with
        | Ok ip =>
            if bool_decide (ip ≠ "")
            then Vis (CacheIP isIPv6 ip) (λ _, mret (Ok ip))
            else GetIP_loop isIPv6 rest
        | Err _ => GetIP_loop isIPv6 rest
        end)
  end.

Definition GetIPv4 : prog (result string) := GetIP_loop false ipv4Services.
Definition GetIPv6 : prog (result string) := GetIP_loop true ipv6Services.

End ipdetect.

(** ** Package cloudflare *)

Module cloudflare.

Record DNSRecordInfo : Type := {
  ID : string;
  ZoneID : string;
  Name : string;
  Type_ : string;
  Content : string;
  TTL : Z;
  Proxied : bool
}.

(** The [&DNSRecordInfo{...}] of [GetDNSRecord] and of [CreateDNSRecord]:
    its last field is [*record.Proxied], the dereference of the library's
    pointer, which panics when the pointer is nil. *)
Definition info_of (zoneID : string) (record : CFRecord) : outcome DNSRecordInfo :=
  match cf_Proxied record with
  | None => Panicked
  | Some proxied =>
      Returned {| ID := cf_ID record;
                  ZoneID := zoneID;
                  Name := cf_Name record;
                  Type_ := cf_Type record;
                  Content := cf_Content record;
                  TTL := cf_TTL record;
                  Proxied := proxied |}
  end.

Definition GetDNSRecord (zoneID name recordType : string)
    : prog (outcome (result DNSRecordInfo)) :=
  r ← call (ApiListDNSRecords zoneID name recordType);
  match r with
  | Err err => mret (Returned (Err (ErrListDNS err)))
  | Ok records =>
      match records with
      | [] => mret (Returned (Err (ErrRecordNotFound name recordType)))
      | record :: _ =>
          (* Return the first matching record *)
          match info_of zoneID record with
          | Panicked => mret Panicked
          | Returned info => mret (Returned (Ok info))
          end
      end
  end.

Definition UpdateDNSRecord (recordID zoneID name recordType content : string)
    (ttl : Z) (proxied : bool) : prog (option error) :=
  r ← call (ApiUpdateDNSRecord zoneID recordID content ttl proxied);
  match r with
  | Err err => mret (Some (ErrUpdateDNS err))
  | Ok _ => mret None
  end.

Definition CreateDNSRecord (zoneID name recordType content : string)
    (ttl : Z) (proxied : bool) : prog (outcome (result DNSRecordInfo)) :=
  r ← call (ApiCreateDNSRecord zoneID name recordType content ttl proxied);
  match r with
  | Err err => mret (Returned (Err (ErrCreateDNS err)))
  | Ok record =>
      match info_of zoneID record with
      | Panicked => mret Panicked
      | Returned info => mret (Returned (Ok info))
      end
  end.

Definition UpsertDNSRecord (zoneID name recordType content : string)
    (ttl : Z) (proxied : bool) : prog (outcome (option error)) :=
  r ←! GetDNSRecord zoneID name recordType;
  match r with
  | Err _ =>
      (* Record doesn't exist, create it *)
      c ←! CreateDNSRecord zoneID name recordType content ttl proxied;
      match c with
      | Err err => mret (Returned (Some err))
      | Ok _ => mret (Returned None)
      end
  | Ok existing =>
      (* Record exists, update it *)
      err ← UpdateDNSRecord (ID existing) zoneID name recordType content ttl proxied;
      mret (Returned err)
  end.

End cloudflare.


(** ** Package updater *)

Module updater.

(** [State]: the last known IP of each record, keyed by "zoneID:name:type".
    The mutex of the Go struct makes [Get] and [Set] atomic; they are the
    actions [StateGet] and [StateSet]. *)
Record State : Type := {
  Records : gmap string string
}.

Definition NewState : State := {| Records := ∅ |}.

(** [fmt.Sprintf("%s:%s:%s", zoneID, name, recordType)] *)
Definition stateKey (zoneID name recordType : string) : string :=
  zoneID +:+ ":" +:+ name +:+ ":" +:+ recordType.

(** Reading a Go map at a missing key gives the zero value, the empty
    string. *)
Definition State_Get (s : State) (zoneID name recordType : string) : string :=
  default "" (Records s !! stateKey zoneID name recordType).

Definition State_Set (s : State) (zoneID name recordType ip : string) : State :=
  {| Records := <[stateKey zoneID name recordType := ip]> (Records s) |}.

(** [updateRecord] from the comparison with the stored address on. *)
Definition updateRecord_compare (record : config.DNSRecord) (recordType currentIP : string)
    : prog (outcome (option error)) :=
  lastKnownIP ← call (StateGet (config.ZoneID record) (config.Name record) recordType);
  if bool_decide (currentIP = lastKnownIP) && bool_decide (lastKnownIP ≠ "")
  then mret (Returned None)
  else
    (* IP has changed or this is the first run, update DNS record *)
    err ←! cloudflare.UpsertDNSRecord (config.ZoneID record) (config.Name record) recordType
             currentIP (config.TTL record) (config.Proxied record);
    match err with
    | Some e => mret (Returned (Some (ErrFailedUpdateCloudflare e)))
    | None =>
        _ ← call (StateSet (config.ZoneID record) (config.Name record) recordType currentIP);
        mret (Returned None)
    end.

(** [updateRecord] from [if err != nil] after the detection on. *)
Definition updateRecord_detected (record : config.DNSRecord) (recordType : string)
    (detected : result string) : prog (outcome (option error)) :=
  match detected with
  | Err err => mret (Returned (Some (ErrFailedDetectIP err)))
  | Ok currentIP => updateRecord_compare record recordType currentIP
  end.

Definition updateRecord (record : config.DNSRecord) (recordType : string)
    : prog (outcome (option error)) :=
  if bool_decide (recordType = "A") then
    ipdetect.GetIPv4 ≫= updateRecord_detected record recordType
  else if bool_decide (recordType = "AAAA") then
    ipdetect.GetIPv6 ≫= updateRecord_detected record recordType
  else
    mret (Returned (Some (ErrInvalidRecordType recordType))).

(** [InitializeState]: the inner loop over [record.Types]. *)
Fixpoint InitializeState_types (record : config.DNSRecord) (types : list string)
    : prog (outcome unit) :=
  match types with
  | [] => mret (Returned tt)
  | recordType :: rest =>
      r ←! cloudflare.GetDNSRecord (config.ZoneID record) (config.Name record) recordType;
      match r with
      | Err _ =>
          (* Record doesn't exist yet, skip *)
          InitializeState_types record rest
      | Ok existing =>
          _ ← call (StateSet (config.ZoneID record) (config.Name record) recordType
                      (cloudflare.Content existing));
          InitializeState_types record rest
      end
  end.

(** The outer loop over [u.cfg.Records]. *)
Fixpoint InitializeState_records (records : list config.DNSRecord) : prog (outcome unit) :=
  match records with
  | [] => mret (Returned tt)
  | record :: rest =>
      _ ←! InitializeState_types record (config.Types record);
      InitializeState_records rest
  end.

Definition InitializeState (cfg : config.Config) : prog (outcome (option error)) :=
  _ ←! InitializeState_records (config.Records cfg);
  mret (Returned None).

(** The units of work of a pass: one per record and per entry of its
    [Types], in the order of the two nested [range] loops. *)
Definition units (records : list config.DNSRecord) : list (config.DNSRecord * string) :=
  record ← records; recordType ← config.Types record; [(record, recordType)].

(** A goroutine of [UpdateAll], by where it stands:
    - [GoRun rec recType p]: inside [u.updateRecord(ctx, rec, recType)], with
      [p] left to run; at [p = Ret o] the call has come to [o];
    - [GoSent err]: [errChan <- ...] done, the deferred [wg.Done()] pending;
    - [GoDone o]: over, the deferred [wg.Done()] done: [updateRecord] has
      returned and so has the goroutine, or [updateRecord] has panicked,
      the goroutine is unwound, and the program is about to terminate. *)
Inductive goroutine : Type :=
  | GoRun (rec : config.DNSRecord) (recType : string) (p : prog (outcome (option error)))
  | GoSent (err : error)
  | GoDone (o : outcome (option error)).

Definition spawn (unit : config.DNSRecord * string) : goroutine :=
  GoRun unit.1 unit.2 (updateRecord unit.1 unit.2).

End updater.

(** ** The environment: lookup services and the provider

    Everything behind [fetchIP] and [c.api] is outside the repository.  An
    [Env] is one possible outside world: a type of world states and, for each
    external call, the answer it gives and the world it leaves.  Theorems
    quantified over [Env] hold for every pattern of answers. *)

Record Env : Type := {
  World : Type;
  env_fetchIP : string → bool → World → result string * World;
  env_list : string → string → string → World → result (list CFRecord) * World;
  env_update : string → string → string → Z → bool → World → result CFRecord * World;
  env_create :
    string → string → string → string → Z → bool → World → result CFRecord * World
}.

(** What the goroutines of one [Updater] share. *)
Record Machine (E : Env) : Type := {
  m_world : World E;
  m_ipv4Cache : string;        (* u.detector.ipv4Cache *)
  m_ipv6Cache : string;        (* u.detector.ipv6Cache *)
  m_state : updater.State      (* u.state *)
}.
Arguments m_world {E} m.
Arguments m_ipv4Cache {E} m.
Arguments m_ipv6Cache {E} m.
Arguments m_state {E} m.

Definition set_world {E} (m : Machine E) (w : World E) : Machine E :=
  {| m_world := w; m_ipv4Cache := m_ipv4Cache m; m_ipv6Cache := m_ipv6Cache m;
     m_state := m_state m |}.

Definition set_state {E} (m : Machine E) (s : updater.State) : Machine E :=
  {| m_world := m_world m; m_ipv4Cache := m_ipv4Cache m; m_ipv6Cache := m_ipv6Cache m;
     m_state := s |}.

Definition set_cache {E} (m : Machine E) (isIPv6 : bool) (ip : string) : Machine E :=
  {| m_world := m_world m;
     m_ipv4Cache := if isIPv6 then m_ipv4Cache m else ip;
     m_ipv6Cache := if isIPv6 then ip else m_ipv6Cache m;
     m_state := m_state m |}.

(** One action, executed atomically. *)
Definition handle {E X} (act : action X) : Machine E → X * Machine E :=
  match act in action X return Machine E → X * Machine E with
  | FetchIP url v6 => λ m,
      let '(r, w) := env_fetchIP E url v6 (m_world m) in (r, set_world m w)
  | CacheIP v6 ip => λ m, (tt, set_cache m v6 ip)
  | StateGet z n t => λ m, (updater.State_Get (m_state m) z n t, m)
  | StateSet z n t ip => λ m, (tt, set_state m (updater.State_Set (m_state m) z n t ip))
  | ApiListDNSRecords z n t => λ m,
      let '(r, w) := env_list E z n t (m_world m) in (r, set_world m w)
  | ApiUpdateDNSRecord z id c ttl p => λ m,
      let '(r, w) := env_update E z id c ttl p (m_world m) in (r, set_world m w)
  | ApiCreateDNSRecord z n t c ttl p => λ m,
      let '(r, w) := env_create E z n t c ttl p (m_world m) in (r, set_world m w)
  end.

(** Sequential execution of a program: its value, the machine it leaves and
    the trace of its actions. *)
Fixpoint run {E A} (p : prog A) (m : Machine E) : A * Machine E * list event :=
  match p with
  | Ret a => (a, m, [])
  | Vis act k =>
      let '(x, m1) := handle act m in
      let '(a, m2, evs) := run (k x) m1 in
      (a, m2, event_of act x :: evs)
  end.

(** ** UpdateAll: the goroutine pool *)

Record Pool (E : Env) : Type := {
  p_machine : Machine E;
  p_threads : list updater.goroutine;
  p_errChan : list error;               (* the buffer of errChan, oldest first *)
  p_cap : nat;                          (* cap(errChan) *)
  p_wg : nat;                           (* the counter of wg *)
  p_trace : list (nat * event);         (* who did what, oldest first *)
  p_exited : bool                       (* the program has terminated on a panic *)
}.
Arguments p_machine {E} p.
Arguments p_threads {E} p.
Arguments p_errChan {E} p.
Arguments p_cap {E} p.
Arguments p_wg {E} p.
Arguments p_trace {E} p.
Arguments p_exited {E} p.

(** The pool that [UpdateAll] sets up: one goroutine per unit of work, an
    empty channel of capacity [len(u.cfg.Records)*2], a wait group that
    counts one [Add(1)] per goroutine.  A goroutine that the loop has yet
    to start is in the pool as one that has not taken a step. *)
Definition UpdateAll_spawn {E} (cfg : config.Config) (m : Machine E) : Pool E :=
  {| p_machine := m;
     p_threads := updater.spawn <$> updater.units (config.Records cfg);
     p_errChan := [];
     p_cap := (length (config.Records cfg) * 2)%nat;
     p_wg := length (updater.units (config.Records cfg));
     p_trace := [];
     p_exited := false |}.

(** One atomic step of goroutine [i]; [None] when it has returned, when it
    is blocked sending on a full channel, or when the program has
    terminated. *)
Definition step {E} (i : nat) (p : Pool E) : option (Pool E) :=
  if p_exited p then None else
  match p_threads p !! i with
  | None => None
  | Some (updater.GoRun rec recType (Vis act k)) =>
      let '(x, m) := handle act (p_machine p) in
      Some {| p_machine := m;
              p_threads := <[i := updater.GoRun rec recType (k x)]> (p_threads p);
              p_errChan := p_errChan p;
              p_cap := p_cap p;
              p_wg := p_wg p;
              p_trace := p_trace p ++ [(i, event_of act x)];
              p_exited := false |}
  | Some (updater.GoRun rec recType (Ret (Returned None))) =>
      (* updateRecord returned nil: the deferred wg.Done() *)
      Some {| p_machine := p_machine p;
              p_threads := <[i := updater.GoDone (Returned None)]> (p_threads p);
              p_errChan := p_errChan p;
              p_cap := p_cap p;
              p_wg := (p_wg p - 1)%nat;
              p_trace := p_trace p;
              p_exited := false |}
  | Some (updater.GoRun rec recType (Ret (Returned (Some err)))) =>
      (* errChan <- fmt.Errorf("failed to update %s (%s): %w", ...) *)
      if bool_decide (length (p_errChan p) < p_cap p)%nat then
        Some {| p_machine := p_machine p;
                p_threads := <[i := updater.GoSent err]> (p_threads p);
                p_errChan := p_errChan p ++ [ErrFailedToUpdate (config.Name rec) recType err];
                p_cap := p_cap p;
                p_wg := p_wg p;
                p_trace := p_trace p;
                p_exited := false |}
      else None
  | Some (updater.GoRun rec recType (Ret Panicked)) =>
      (* updateRecord panicked: the goroutine unwinds, the deferred wg.Done() *)
      Some {| p_machine := p_machine p;
              p_threads := <[i := updater.GoDone Panicked]> (p_threads p);
              p_errChan := p_errChan p;
              p_cap := p_cap p;
              p_wg := (p_wg p - 1)%nat;
              p_trace := p_trace p;
              p_exited := false |}
  | Some (updater.GoSent err) =>
      Some {| p_machine := p_machine p;
              p_threads := <[i := updater.GoDone (Returned (Some err))]> (p_threads p);
              p_errChan := p_errChan p;
              p_cap := p_cap p;
              p_wg := (p_wg p - 1)%nat;
              p_trace := p_trace p;
              p_exited := false |}
  | Some (updater.GoDone Panicked) =>
      (* the panicking goroutine has left its last function: the program
         terminates *)
      Some {| p_machine := p_machine p;
              p_threads := p_threads p;
              p_errChan := p_errChan p;
              p_cap := p_cap p;
              p_wg := p_wg p;
              p_trace := p_trace p;
              p_exited := true |}
  | Some (updater.GoDone (Returned _)) => None
  end.

(** A schedule names the goroutine to run at each step; a goroutine that
    cannot move when named is passed over. *)
Fixpoint exec {E} (sched : list nat) (p : Pool E) : Pool E :=
  match sched with
  | [] => p
  | i :: rest => exec rest (default p (step i p))
  end.

(** The pools a pass can reach. *)
Inductive reachable {E} (p0 : Pool E) : Pool E → Prop :=
  | reach_refl : reachable p0 p0
  | reach_step p i p' : reachable p0 p → step i p = Some p' → reachable p0 p'.

(** [UpdateAll] after [wg.Wait()]: close the channel, drain it, count.
    [None] while the wait group still holds [UpdateAll] back, and when the
    program has terminated. *)
Definition UpdateAll_collect {E} (p : Pool E) : option (option error) :=
  if p_exited p then None
  else if bool_decide (p_wg p = 0%nat) then
    Some (if bool_decide (0 < length (p_errChan p))%nat
          then Some (ErrEncountered (length (p_errChan p)))
          else None)
  else None.

(** [UpdateAll] under a schedule: what it returns, if it returns, and the
    machine it leaves. *)
Definition UpdateAll {E} (sched : list nat) (cfg : config.Config) (m : Machine E)
    : option (option error) * Machine E :=
  let p := exec sched (UpdateAll_spawn cfg m) in
  (UpdateAll_collect p, p_machine p).

(** ** A simulated outside world

    A concrete [Env] to run the code on: lookup services that all give the
    same answer, and a provider that stores records per zone and can be
    switched to refuse listings or writes. *)

Module sim.

Record world : Type := {
  w_ipv4 : result string;                 (* what every IPv4 service answers *)
  w_ipv6 : result string;                 (* what every IPv6 service answers *)
  w_zone : list (string * CFRecord);      (* the provider's records, with their zone *)
  w_list_fails : bool;                    (* listings are refused *)
  w_write_fails : bool                    (* creations and updates are refused *)
}.

Definition with_zone (w : world) (zone : list (string * CFRecord)) : world :=
  {| w_ipv4 := w_ipv4 w; w_ipv6 := w_ipv6 w; w_zone := zone;
     w_list_fails := w_list_fails w; w_write_fails := w_write_fails w |}.

Definition fetchIP (url : string) (isIPv6 : bool) (w : world) : result string * world :=
  (if isIPv6 then w_ipv6 w else w_ipv4 w, w).

Definition matches (zoneID name recordType : string) (entry : string * CFRecord) : bool :=
  bool_decide (entry.1 = zoneID) && bool_decide (cf_Name entry.2 = name)
  && bool_decide (cf_Type entry.2 = recordType).

Definition list (zoneID name recordType : string) (w : world)
    : result (list CFRecord) * world :=
  if w_list_fails w then (Err (ErrExternal "Authentication error (10000)"), w)
  else (Ok (snd <$> filter (λ e, matches zoneID name recordType e = true) (w_zone w)), w).

Definition create (zoneID name recordType content : string) (ttl : Z) (proxied : bool)
    (w : world) : result CFRecord * world :=
  if w_write_fails w then (Err (ErrExternal "Authentication error (10000)"), w)
  else
    let record := {| cf_ID := "id-" +:+ name +:+ "-" +:+ recordType; cf_Name := name;
                     cf_Type := recordType; cf_Content := content; cf_TTL := ttl;
                     cf_Proxied := Some proxied |} in
    (Ok record, with_zone w (w_zone w ++ [(zoneID, record)])).

Definition rewrite (zoneID recordID content : string) (ttl : Z) (proxied : bool)
    (entry : string * CFRecord) : string * CFRecord :=
  if bool_decide (entry.1 = zoneID) && bool_decide (cf_ID entry.2 = recordID)
  then (entry.1, {| cf_ID := recordID; cf_Name := cf_Name entry.2;
                    cf_Type := cf_Type entry.2; cf_Content := content; cf_TTL := ttl;
                    cf_Proxied := Some proxied |})
  else entry.

Definition update (zoneID recordID content : string) (ttl : Z) (proxied : bool)
    (w : world) : result CFRecord * world :=
  if w_write_fails w then (Err (ErrExternal "Authentication error (10000)"), w)
  else
    (Ok {| cf_ID := recordID; cf_Name := ""; cf_Type := ""; cf_Content := content;
           cf_TTL := ttl; cf_Proxied := Some proxied |},
     with_zone w (rewrite zoneID recordID content ttl proxied <$> w_zone w)).

Definition env : Env :=
  {| World := world; env_fetchIP := fetchIP; env_list := list;
     env_update := update; env_create := create |}.

Definition machine (w : world) (s : updater.State) : Machine env :=
  Build_Machine env w "" "" s.

(** The record of the specification's example scenario. *)
Definition home : config.DNSRecord :=
  {| config.ZoneID := "Z1"; config.Name := "home.example.com";
     config.Types := ["A"; "AAAA"]; config.TTL := 120; config.Proxied := false |}.

Definition home_cfg : config.Config :=
  {| config.APIToken := "token"; config.CheckInterval := "5m";
     config.Records := [home] |}.

(** A record that names the type A three times; validation accepts it. *)
Definition triple : config.DNSRecord :=
  {| config.ZoneID := "Z1"; config.Name := "home.example.com";
     config.Types := ["A"; "A"; "A"]; config.TTL := 120; config.Proxied := false |}.

Definition triple_cfg : config.Config :=
  {| config.APIToken := "token"; config.CheckInterval := "5m";
     config.Records := [triple] |}.

(** The same name configured in two records; validation accepts it. *)
Definition home_a : config.DNSRecord :=
  {| config.ZoneID := "Z1"; config.Name := "home.example.com";
     config.Types := ["A"]; config.TTL := 120; config.Proxied := false |}.

Definition twin_cfg : config.Config :=
  {| config.APIToken := "token"; config.CheckInterval := "5m";
     config.Records := [home_a; home_a] |}.

(** The same name configured in two records, one per type. *)
Definition home_aaaa : config.DNSRecord :=
  {| config.ZoneID := "Z1"; config.Name := "home.example.com";
     config.Types := ["AAAA"]; config.TTL := 120; config.Proxied := false |}.

Definition split_cfg : config.Config :=
  {| config.APIToken := "token"; config.CheckInterval := "5m";
     config.Records := [home_a; home_aaaa] |}.

(** A provider without any record, lookup services that answer. *)
Definition fresh : world :=
  {| w_ipv4 := Ok "203.0.113.5"; w_ipv6 := Ok "2001:db8::1"; w_zone := [];
     w_list_fails := false; w_write_fails := false |}.

(** No network: every lookup service fails. *)
Definition offline : world :=
  {| w_ipv4 := Err (ErrExternal "dial tcp: network is unreachable");
     w_ipv6 := Err (ErrExternal "dial tcp: network is unreachable");
     w_zone := []; w_list_fails := true; w_write_fails := true |}.

(** A provider that refuses listings but accepts writes. *)
Definition unlistable : world :=
  {| w_ipv4 := Ok "203.0.113.5"; w_ipv6 := Ok "2001:db8::1"; w_zone := [];
     w_list_fails := true; w_write_fails := false |}.

(** A stand-in for [time.ParseDuration] that knows two durations. *)
Definition ParseDuration (s : string) : option error :=
  if bool_decide (s = "5m") || bool_decide (s = "30s") then None
  else Some (ErrExternal "time: invalid duration").

End sim.

(** * The rest of the packages

    The functions around those above: loading a configuration, making the
    client, what [fetchIP] does with an HTTP answer, and the other methods
    of the detector. *)

(** ** Package config: Load and GetCheckInterval *)

Module config_io.

Inductive load_error : Type :=
  | ErrReadConfig (e : error)      (* "failed to read config file: %w" *)
  | ErrParseConfig (e : error)     (* "failed to parse config file: %w" *)
  | ErrInvalidConfig (e : config.config_error)
                                   (* "invalid configuration: %w" *).

Section Load.
(** [os.ReadFile], [yaml.Unmarshal] into a zero [Config], and
    [time.ParseDuration] with the duration (in nanoseconds) it returns
    beside its error. *)
Variable ReadFile : string → result string.
Variable Unmarshal : string → result config.Config.
Variable ParseDuration : string → Z * option error.

Definition Load (path : string) : load_error + config.Config :=
  match ReadFile path with
  | Err err => inl (ErrReadConfig err)
  | Ok data =>
      match Unmarshal data with
      | Err err => inl (ErrParseConfig err)
      | Ok cfg =>
          match config.Validate (λ s, (ParseDuration s).2) cfg with
          | Some err => inl (ErrInvalidConfig err)
          | None => inr cfg
          end
      end
  end.

(** [duration, _ := time.ParseDuration(c.CheckInterval)]: the error is
    dropped. *)
Definition GetCheckInterval (c : config.Config) : Z :=
  (ParseDuration (config.CheckInterval c)).1.
End Load.

End config_io.

(** ** Package cloudflare: NewClient *)

Module cloudflare_new.

Inductive client_error : Type :=
  | ErrTokenRequired               (* "API token is required" *)
  | ErrCreateClient (e : error)    (* "failed to create Cloudflare client: %w" *).

Section NewClient.
(** [cloudflare.NewWithAPIToken] of the library, and the type of what it
    returns. *)
Variable API : Type.
Variable NewWithAPIToken : string → result API.

Definition NewClient (apiToken : string) : client_error + API :=
  if bool_decide (apiToken = "") then inl ErrTokenRequired
  else match NewWithAPIToken apiToken with
       | Err err => inl (ErrCreateClient err)
       | Ok api => inr api
       end.
End NewClient.

End cloudflare_new.

(** ** Package ipdetect: fetchIP and the other methods of the detector *)

Module detector.

(** What [client.Do] answers, as far as [fetchIP] looks at it: the status
    code and what [io.ReadAll(resp.Body)] returns. *)
Record response : Type := {
  StatusCode : Z;
  Body : result string
}.

(** The world outside, one level below [Env]: HTTP requests instead of
    [fetchIP], and the functions of the Go library that [fetchIP] applies
    to an answer. *)
Record Outside : Type := {
  OWorld : Type;
  NewRequest : string → option error;
      (* the error of http.NewRequestWithContext(ctx, "GET", url, nil) *)
  Do : bool → string → OWorld → result response * OWorld;
      (* client.Do(req): over the tcp6 transport ([true]) or with d.client *)
  TrimSpace : string → string;            (* strings.TrimSpace *)
  IP : Type;
  ParseIP : string → option IP;           (* net.ParseIP, [None] for nil *)
  To4 : IP → bool;                        (* parsedIP.To4() != nil *)
  out_list : string → string → string → OWorld → result (list CFRecord) * OWorld;
  out_update : string → string → string → Z → bool → OWorld → result CFRecord * OWorld;
  out_create :
    string → string → string → string → Z → bool → OWorld → result CFRecord * OWorld
}.

(** The errors that [fetchIP] makes itself, as error values with their
    message. *)
Definition ErrStatus (code : Z) : error :=
  ErrExternal ("service returned status " +:+ pretty code).
Definition ErrInvalidIP (ip : string) : error :=
  ErrExternal ("invalid IP address: " +:+ ip).
Definition ErrExpectedIPv6 : error := ErrExternal "expected IPv6 but got IPv4".
Definition ErrExpectedIPv4 : error := ErrExternal "expected IPv4 but got IPv6".

(** [fetchIP] from [resp.StatusCode] on, in the IPv6 branch; the branch
    tests [isIPv6] again, as the source does. *)
Definition fetchIP_answer6 (O : Outside) (isIPv6 : bool) (resp : response) : result string :=
  if bool_decide (StatusCode resp ≠ 200) then Err (ErrStatus (StatusCode resp))
  else match Body resp with
       | Err err => Err err
       | Ok body =>
           let ip := TrimSpace O body in
           match ParseIP O ip with
           | None => Err (ErrInvalidIP ip)
           | Some parsedIP =>
               if isIPv6 && To4 O parsedIP then Err ErrExpectedIPv6
               else if negb isIPv6 && negb (To4 O parsedIP) then Err ErrExpectedIPv4
               else Ok ip
           end
       end.

(** The same in the IPv4 path. *)
Definition fetchIP_answer4 (O : Outside) (resp : response) : result string :=
  if bool_decide (StatusCode resp ≠ 200) then Err (ErrStatus (StatusCode resp))
  else match Body resp with
       | Err err => Err err
       | Ok body =>
           let ip := TrimSpace O body in
           match ParseIP O ip with
           | None => Err (ErrInvalidIP ip)
           | Some parsedIP =>
               if negb (To4 O parsedIP) then Err ErrExpectedIPv4
               else Ok ip
           end
       end.

Definition fetchIP (O : Outside) (url : string) (isIPv6 : bool) (w : OWorld O)
    : result string * OWorld O :=
  match NewRequest O url with
  | Some err => (Err err, w)
  | None =>
      if isIPv6 then
        (* For IPv6, prefer IPv6 transport *)
        match Do O true url w with
        | (Ok resp, w1) => (fetchIP_answer6 O isIPv6 resp, w1)
        | (Err _, w1) =>
            (* Fallback to default client *)
            match Do O false url w1 with
            | (Ok resp, w2) => (fetchIP_answer6 O isIPv6 resp, w2)
            | (Err err, w2) => (Err err, w2)
            end
        end
      else
        (* For IPv4, use default client *)
        match Do O false url w with
        | (Ok resp, w1) => (fetchIP_answer4 O resp, w1)
        | (Err err, w1) => (Err err, w1)
        end
  end.

(** The environment that an outside world makes, with [fetchIP] for the
    lookups. *)
Definition Env_of (O : Outside) : Env :=
  {| World := OWorld O;
     env_fetchIP := fetchIP O;
     env_list := out_list O;
     env_update := out_update O;
     env_create := out_create O |}.

Definition GetCachedIPv4 {E} (m : Machine E) : string := m_ipv4Cache m.
Definition GetCachedIPv6 {E} (m : Machine E) : string := m_ipv6Cache m.

(** [HasIPChanged] from [if err != nil] after the detection on. *)
Definition HasIPChanged_detected (lastKnownIP : string) (detected : result string)
    : prog (bool * string * option error) :=
  match detected with
  | Err err => mret (false, "", Some err)
  | Ok currentIP => mret (bool_decide (currentIP ≠ lastKnownIP), currentIP, None)
  end.

Definition HasIPChanged (recordType lastKnownIP : string)
    : prog (bool * string * option error) :=
  if bool_decide (recordType = "A") then
    ipdetect.GetIPv4 ≫= HasIPChanged_detected lastKnownIP
  else if bool_decide (recordType = "AAAA") then
    ipdetect.GetIPv6 ≫= HasIPChanged_detected lastKnownIP
  else
    mret (false, "", Some (ErrInvalidRecordType recordType)).

End detector.

(** ** A simulated outside world, at the level of HTTP

    Over the worlds of [sim]: a request over the tcp6 transport gets the
    IPv6 answer of the world, a request with the default client its IPv4
    answer, each with a trailing newline.  The stand-ins for the Go library
    know the two addresses of the scenario. *)

Module sim_http.

Definition Do (tcp6 : bool) (url : string) (w : sim.world)
    : result detector.response * sim.world :=
  (match (if tcp6 then sim.w_ipv6 w else sim.w_ipv4 w) with
   | Ok ip => Ok {| detector.StatusCode := 200; detector.Body := Ok (ip +:+ String "010"%char "") |}
   | Err err => Err err
   end, w).

(** Enough of [strings.TrimSpace] for these answers: one trailing newline
    is dropped. *)
Fixpoint TrimSpace (s : string) : string :=
  match s with
  | EmptyString => EmptyString
  | String a s' =>
      if bool_decide (s' = EmptyString) && Ascii.eqb a "010"%char then EmptyString
      else String a (TrimSpace s')
  end.

(** [Some true] for the IPv4 address of the scenario, [Some false] for its
    IPv6 address. *)
Definition ParseIP (s : string) : option bool :=
  if bool_decide (s = "203.0.113.5") || bool_decide (s = "203.0.113.9") then Some true
  else if bool_decide (s = "2001:db8::1") then Some false
  else None.

Definition outside : detector.Outside :=
  {| detector.OWorld := sim.world;
     detector.NewRequest := λ _, None;
     detector.Do := Do;
     detector.TrimSpace := TrimSpace;
     detector.IP := bool;
     detector.ParseIP := ParseIP;
     detector.To4 := λ a, a;
     detector.out_list := sim.list;
     detector.out_update := sim.update;
     detector.out_create := sim.create |}.

Definition machine (w : sim.world) (s : updater.State) : Machine (detector.Env_of outside) :=
  Build_Machine (detector.Env_of outside) w "" "" s.

End sim_http.

(** ** Inputs for the examples of the later sections *)

Module sim_io.

Definition ReadFile (path : string) : result string :=
  if bool_decide (path = "config.yaml") then Ok "records: ..."
  else Err (ErrExternal "open: no such file or directory").

Definition Unmarshal (data : string) : result config.Config := Ok sim.home_cfg.

(** A stand-in for [time.ParseDuration] with its value, in nanoseconds. *)
Definition ParseDuration (s : string) : Z * option error :=
  if bool_decide (s = "5m") then (300000000000, None)
  else if bool_decide (s = "30s") then (30000000000, None)
  else (0, Some (ErrExternal "time: invalid duration")).

Definition NewWithAPIToken (token : string) : result unit := Ok tt.

(** A second record with a TTL below the minimum. *)
Definition short_ttl : config.DNSRecord :=
  {| config.ZoneID := "Z1"; config.Name := "www.example.com";
     config.Types := ["A"]; config.TTL := 30; config.Proxied := true |}.

Definition short_ttl_cfg : config.Config :=
  {| config.APIToken := "token"; config.CheckInterval := "5m";
     config.Records := [sim.home; short_ttl] |}.

(** A provider that already holds the A record of the scenario. *)
Definition listed : sim.world :=
  sim.with_zone sim.fresh
    [("Z1", {| cf_ID := "r1"; cf_Name := "home.example.com"; cf_Type := "A";
               cf_Content := "203.0.113.5"; cf_TTL := 120; cf_Proxied := Some false |})].

Definition listed_record : CFRecord :=
  {| cf_ID := "r1"; cf_Name := "home.example.com"; cf_Type := "A";
     cf_Content := "203.0.113.5"; cf_TTL := 120; cf_Proxied := Some false |}.

(** A provider that holds the A record of the scenario and answers it
    without the field "proxied". *)
Definition bare_record : CFRecord :=
  {| cf_ID := "r1"; cf_Name := "home.example.com"; cf_Type := "A";
     cf_Content := "203.0.113.5"; cf_TTL := 120; cf_Proxied := None |}.

Definition bare : sim.world := sim.with_zone sim.fresh [("Z1", bare_record)].

(** A record with the type MX three times.  Validation refuses it; the
    engine can be given it all the same. *)
Definition mx : config.DNSRecord :=
  {| config.ZoneID := "Z1"; config.Name := "home.example.com";
     config.Types := ["MX"; "MX"; "MX"]; config.TTL := 120; config.Proxied := false |}.

Definition mx_cfg : config.Config :=
  {| config.APIToken := "token"; config.CheckInterval := "5m";
     config.Records := [mx] |}.

(** A record with the type MX next to the two types of the enumeration. *)
Definition mixed : config.DNSRecord :=
  {| config.ZoneID := "Z1"; config.Name := "home.example.com";
     config.Types := ["MX"; "A"; "AAAA"]; config.TTL := 120; config.Proxied := false |}.

Definition mixed_cfg : config.Config :=
  {| config.APIToken := "token"; config.CheckInterval := "5m";
     config.Records := [mixed] |}.

(** Two records whose zone identifier and name differ and are written
    with a colon; validation accepts them. *)
Definition colon_ab_c : config.DNSRecord :=
  {| config.ZoneID := "a:b"; config.Name := "c";
     config.Types := ["A"]; config.TTL := 120; config.Proxied := false |}.

Definition colon_a_bc : config.DNSRecord :=
  {| config.ZoneID := "a"; config.Name := "b:c";
     config.Types := ["A"]; config.TTL := 120; config.Proxied := false |}.

Definition colon_cfg : config.Config :=
  {| config.APIToken := "token"; config.CheckInterval := "5m";
     config.Records := [colon_ab_c; colon_a_bc] |}.

(** The state that a pass leaves when both addresses of the scenario have
    been written. *)
Definition settled : updater.State :=
  updater.State_Set
    (updater.State_Set updater.NewState "Z1" "home.example.com" "A" "203.0.113.5")
    "Z1" "home.example.com" "AAAA" "2001:db8::1".

(** The addresses of the scenario, by family. *)
Definition addr (isIPv6 : bool) : string :=
  if isIPv6 then "2001:db8::1" else "203.0.113.5".

End sim_io.

(** * Vocabulary of the statements *)

(** ** Paths through a program

    [residual p tr q]: the program [p], performing the actions of [tr] and
    receiving the answers recorded there, becomes [q].  This does not depend
    on an environment or on what other goroutines do in between, so a fact
    about all paths of a program holds in every run and every interleaving. *)

Fixpoint residual {A} (p : prog A) (tr : list event) (q : prog A) {struct tr} : Prop :=
  match tr with
  | [] => p = q
  | ev :: tr' =>
      match p with
      | Ret _ => False
      | Vis act k => ∃ x, ev = event_of act x ∧ residual (k x) tr' q
      end
  end.

(** [returns p tr a]: [tr] is a complete path of [p], ending in the value
    [a]. *)
Definition returns {A} (p : prog A) (tr : list event) (a : A) : Prop :=
  residual p tr (Ret a).

(** ** Vocabulary for traces *)

(** Actions of the address resolver. *)
Definition is_resolver_event (ev : event) : bool :=
  match ev with
  | EvFetchIP _ _ _ | EvCacheIP _ _ => true
  | _ => false
  end.

(** Calls to the provider. *)
Definition is_provider_event (ev : event) : bool :=
  match ev with
  | EvList _ _ _ _ | EvUpdate _ _ _ _ _ _ | EvCreate _ _ _ _ _ _ _ => true
  | _ => false
  end.

(** A write request to the provider: the zone, content, TTL and proxied
    flag it carries. *)
Definition write_of (ev : event) : option (string * string * Z * bool) :=
  match ev with
  | EvUpdate z _ c ttl p _ => Some (z, c, ttl, p)
  | EvCreate z _ _ c ttl p _ => Some (z, c, ttl, p)
  | _ => None
  end.

(** A write request that the provider confirmed: its content. *)
Definition confirmed_write_of (ev : event) : option string :=
  match ev with
  | EvUpdate _ _ c _ _ (Ok _) => Some c
  | EvCreate _ _ _ c _ _ (Ok _) => Some c
  | _ => None
  end.

(** A write to the Reconciliation State: the key and the address. *)
Definition set_of (ev : event) : option (string * string * string * string) :=
  match ev with
  | EvStateSet z n t ip => Some (z, n, t, ip)
  | _ => None
  end.

(** The complete paths of [GetIPv4] / [GetIPv6], chosen by record type. *)
Definition resolves (recordType : string) (tr : list event) (r : result string) : Prop :=
  (recordType = "A" ∧ returns ipdetect.GetIPv4 tr r)
  ∨ (recordType = "AAAA" ∧ returns ipdetect.GetIPv6 tr r).

(** What [UpsertDNSRecord] comes to after a creation that the provider
    answered with [cr]: the error of the creation; nil; or, when the record
    that the provider answers has no [Proxied], the panic of
    [CreateDNSRecord]. *)
Definition created (cr : result CFRecord) : outcome (option error) :=
  match cr with
  | Err e => Returned (Some (ErrCreateDNS e))
  | Ok record =>
      match cf_Proxied record with
      | Some _ => Returned None
      | None => Panicked
      end
  end.

(** The complete paths of [UpsertDNSRecord]: a listing; then, when the
    listing names records, an update of the first record listed, or the
    panic of [GetDNSRecord] when that record has no [Proxied]; and, when
    the listing is empty or failed, a creation. *)
Inductive upsert_path (zoneID name recordType content : string) (ttl : Z) (proxied : bool)
    : list event → outcome (option error) → Prop :=
  | upsert_update record others ur :
      is_Some (cf_Proxied record) →
      upsert_path zoneID name recordType content ttl proxied
        [EvList zoneID name recordType (Ok (record :: others));
         EvUpdate zoneID (cf_ID record) content ttl proxied ur]
        (Returned (match ur with Ok _ => None | Err e => Some (ErrUpdateDNS e) end))
  | upsert_create lr cr :
      (∀ record others, lr ≠ Ok (record :: others)) →
      upsert_path zoneID name recordType content ttl proxied
        [EvList zoneID name recordType lr;
         EvCreate zoneID name recordType content ttl proxied cr]
        (created cr)
  | upsert_find_panics record others :
      cf_Proxied record = None →
      upsert_path zoneID name recordType content ttl proxied
        [EvList zoneID name recordType (Ok (record :: others))]
        Panicked.

(** The complete paths of [updateRecord], one constructor per way through
    the function. *)
Inductive unit_path (record : config.DNSRecord) (recordType : string)
    : list event → outcome (option error) → Prop :=
  | unit_invalid_type :
      recordType ≠ "A" → recordType ≠ "AAAA" →
      unit_path record recordType [] (Returned (Some (ErrInvalidRecordType recordType)))
  | unit_detect_failed tr err :
      resolves recordType tr (Err err) →
      unit_path record recordType tr (Returned (Some (ErrFailedDetectIP err)))
  | unit_no_change tr currentIP :
      resolves recordType tr (Ok currentIP) →
      currentIP ≠ "" →
      unit_path record recordType
        (tr ++ [EvStateGet (config.ZoneID record) (config.Name record) recordType currentIP])
        (Returned None)
  | unit_upsert_failed tr currentIP lastKnownIP tru err :
      resolves recordType tr (Ok currentIP) →
      currentIP ≠ lastKnownIP ∨ lastKnownIP = "" →
      upsert_path (config.ZoneID record) (config.Name record) recordType currentIP
        (config.TTL record) (config.Proxied record) tru (Returned (Some err)) →
      unit_path record recordType
        (tr ++ EvStateGet (config.ZoneID record) (config.Name record) recordType lastKnownIP
            :: tru)
        (Returned (Some (ErrFailedUpdateCloudflare err)))
  | unit_upserted tr currentIP lastKnownIP tru :
      resolves recordType tr (Ok currentIP) →
      currentIP ≠ lastKnownIP ∨ lastKnownIP = "" →
      upsert_path (config.ZoneID record) (config.Name record) recordType currentIP
        (config.TTL record) (config.Proxied record) tru (Returned None) →
      unit_path record recordType
        (tr ++ EvStateGet (config.ZoneID record) (config.Name record) recordType lastKnownIP
            :: tru
            ++ [EvStateSet (config.ZoneID record) (config.Name record) recordType currentIP])
        (Returned None)
  | unit_upsert_panicked tr currentIP lastKnownIP tru :
      resolves recordType tr (Ok currentIP) →
      currentIP ≠ lastKnownIP ∨ lastKnownIP = "" →
      upsert_path (config.ZoneID record) (config.Name record) recordType currentIP
        (config.TTL record) (config.Proxied record) tru Panicked →
      unit_path record recordType
        (tr ++ EvStateGet (config.ZoneID record) (config.Name record) recordType lastKnownIP
            :: tru)
        Panicked.

(** The resolver that [updateRecord] calls for a record type, if any. *)
Definition resolver (recordType : string) : option (prog (result string)) :=
  if bool_decide (recordType = "A") then Some ipdetect.GetIPv4
  else if bool_decide (recordType = "AAAA") then Some ipdetect.GetIPv6
  else None.

(** The effect of a trace on the Reconciliation State. *)
Definition apply_event (s : updater.State) (ev : event) : updater.State :=
  match ev with
  | EvStateSet z n t ip => updater.State_Set s z n t ip
  | _ => s
  end.

Definition replay (s : updater.State) (evs : list event) : updater.State :=
  foldl apply_event s evs.

(** Two states that no [Get] can tell apart. *)
Definition state_equiv (s1 s2 : updater.State) : Prop :=
  ∀ k, default "" (updater.Records s1 !! k) = default "" (updater.Records s2 !! k).

Definition machine_equiv {E} (m1 m2 : Machine E) : Prop :=
  m_world m1 = m_world m2 ∧ m_ipv4Cache m1 = m_ipv4Cache m2
  ∧ m_ipv6Cache m1 = m_ipv6Cache m2 ∧ state_equiv (m_state m1) (m_state m2).

(** ** Vocabulary for the bootstrap *)

(** The Reconciliation Key of a unit of work. *)
Definition unit_key (unit : config.DNSRecord * string) : string * string * string :=
  (config.ZoneID unit.1, config.Name unit.1, unit.2).

(** A listing that names no record: an empty one or a failed one. *)
Definition found_nothing (lr : result (list CFRecord)) : Prop :=
  match lr with
  | Ok (_ :: _) => False
  | _ => True
  end.

(** A listing whose first record has no [Proxied]: the find panics on
    it. *)
Definition lacks_proxied (lr : result (list CFRecord)) : Prop :=
  match lr with
  | Ok (record :: _) => cf_Proxied record = None
  | _ => False
  end.

#[global] Instance lacks_proxied_dec lr : Decision (lacks_proxied lr).
Proof. destruct lr as [[|record others]|err]; simpl; apply _. Defined.

(** The answers of the provider to one listing per unit, asked in order,
    and the world they leave. *)
Fixpoint listings {E} (us : list (config.DNSRecord * string)) (w : World E)
    : list (result (list CFRecord)) * World E :=
  match us with
  | [] => ([], w)
  | unit :: rest =>
      let '(lr, w1) := env_list E (config.ZoneID unit.1) (config.Name unit.1) unit.2 w in
      let '(lrs, w2) := listings rest w1 in
      (lr :: lrs, w2)
  end.

(** What [InitializeState] does for one unit whose listing answered [lr]. *)
Definition init_events (unit : config.DNSRecord * string) (lr : result (list CFRecord))
    : list event :=
  EvList (config.ZoneID unit.1) (config.Name unit.1) unit.2 lr
  :: match lr with
     | Ok (record :: _) =>
         [EvStateSet (config.ZoneID unit.1) (config.Name unit.1) unit.2 (cf_Content record)]
     | _ => []
     end.

Definition init_trace (us : list (config.DNSRecord * string))
    (lrs : list (result (list CFRecord))) : list event :=
  concat (zip_with init_events us lrs).

(** The state after one unit: seeded with the content of the first record
    listed, untouched when there is none. *)
Definition seed (s : updater.State)
    (answer : config.DNSRecord * string * result (list CFRecord)) : updater.State :=
  match answer.2 with
  | Ok (record :: _) =>
      updater.State_Set s (config.ZoneID answer.1.1) (config.Name answer.1.1) answer.1.2
        (cf_Content record)
  | _ => s
  end.

(** The content that the answer of a unit holds for the key [k] of the
    state: that of the first record listed, when the unit has this key. *)
Definition found_for (k : string)
    (answer : config.DNSRecord * string * result (list CFRecord)) : option string :=
  match answer.2 with
  | Ok (record :: _) =>
      if bool_decide (updater.stateKey (config.ZoneID answer.1.1) (config.Name answer.1.1)
                        answer.1.2 = k)
      then Some (cf_Content record) else None
  | _ => None
  end.

(** The two loops of [InitializeState] as one loop over the units of
    work. *)
Fixpoint init_units (us : list (config.DNSRecord * string)) : prog (outcome unit) :=
  match us with
  | [] => mret (Returned tt)
  | unit :: rest =>
      r ←! cloudflare.GetDNSRecord (config.ZoneID unit.1) (config.Name unit.1) unit.2;
      match r with
      | Err _ => init_units rest
      | Ok existing =>
          _ ← call (StateSet (config.ZoneID unit.1) (config.Name unit.1) unit.2
                      (cloudflare.Content existing));
          init_units rest
      end
  end.

(** No (zone, name, type) triple is configured twice: no record names a
    type twice, and no two records of the same zone and name have a type in
    common. *)
Definition no_triple_twice (records : list config.DNSRecord) : Prop :=
  Forall (λ r, NoDup (config.Types r)) records
  ∧ ∀ i j r1 r2 t,
      (i < j)%nat → records !! i = Some r1 → records !! j = Some r2 →
      config.ZoneID r1 = config.ZoneID r2 → config.Name r1 = config.Name r2 →
      t ∈ config.Types r1 → t ∈ config.Types r2 → False.

(** A configuration of one record that names the type A [n] times. *)
Definition repeated_cfg (n : nat) : config.Config :=
  {| config.APIToken := "token"; config.CheckInterval := "5m";
     config.Records :=
       [{| config.ZoneID := "Z1"; config.Name := "home.example.com";
           config.Types := replicate n "A"; config.TTL := 120;
           config.Proxied := false |}] |}.

(** ** Vocabulary for termination *)

(** Every path of the program has at most [n] actions. *)
Fixpoint bounded {A} (n : nat) (q : prog A) {struct q} : Prop :=
  match q with
  | Ret _ => True
  | Vis act k =>
      match n with
      | O => False
      | S n' => ∀ x, bounded n' (k x)
      end
  end.

(** An upper bound on the steps a goroutine has left. *)
Definition fuel (g : updater.goroutine) (d : nat) : Prop :=
  match g with
  | updater.GoRun _ _ q => ∃ d', bounded d' q ∧ (d' + 2 ≤ d)%nat
  | updater.GoSent _ => (1 ≤ d)%nat
  | updater.GoDone (Returned _) => True
  | updater.GoDone Panicked => (1 ≤ d)%nat
  end.

(** The pools reached in exactly [n] steps. *)
Inductive reachable_in {E} (p0 : Pool E) : nat → Pool E → Prop :=
  | reach_in_O : reachable_in p0 0 p0
  | reach_in_S n p i p' :
      reachable_in p0 n p → step i p = Some p' → reachable_in p0 (S n) p'.

(** Some answer to an action: every action has one. *)
Definition some_answer {X} (act : action X) : X :=
  match act in action X return X with
  | FetchIP _ _ => Err ErrDetectIPv4
  | CacheIP _ _ => tt
  | StateGet _ _ _ => ""
  | StateSet _ _ _ _ => tt
  | ApiListDNSRecords _ _ _ => Ok []
  | ApiUpdateDNSRecord _ _ _ _ _ => Err (ErrExternal "")
  | ApiCreateDNSRecord _ _ _ _ _ _ => Err (ErrExternal "")
  end.

(** The address that an event [Set]s at the map key [k], if it does. *)
Definition set_on (k : string) (ev : event) : option string :=
  match ev with
  | EvStateSet z n t ip => if decide (updater.stateKey z n t = k) then Some ip else None
  | _ => None
  end.

(** The string has a colon in it. *)
Fixpoint has_colon (s : string) : bool :=
  match s with
  | EmptyString => false
  | String a s' => Ascii.eqb a ":"%char || has_colon s'
  end.

(** ** Vocabulary for pools *)

(** What goroutine [i] did, out of the trace of the pool. *)
Definition thread_trace (i : nat) (tr : list (nat * event)) : list event :=
  snd <$> filter (λ e, e.1 = i) tr.

(** The goroutine has sent its error on the channel. *)
Definition has_sent (g : updater.goroutine) : bool :=
  match g with
  | updater.GoSent _ | updater.GoDone (Returned (Some _)) => true
  | _ => false
  end.

(** The goroutine has not yet called [wg.Done()]. *)
Definition is_live (g : updater.goroutine) : bool :=
  match g with
  | updater.GoDone _ => false
  | _ => true
  end.

(** [updateRecord] returned an error. *)
Definition is_failure (o : outcome (option error)) : bool :=
  match o with
  | Returned (Some _) => true
  | _ => false
  end.

(** The entry of a pool trace is not a lookup service answering. *)
Definition no_answer (e : nat * event) : Prop :=
  match e.2 with
  | EvFetchIP _ _ (Ok _) => False
  | _ => True
  end.

(** No goroutine of the pool can move. *)
Definition stuck {E} (p : Pool E) : Prop := ∀ i, step i p = None.

Definition count {A} (f : A → bool) (l : list A) : nat :=
  sum_list_with (λ x, if f x then 1%nat else 0%nat) l.

(** A goroutine stands where its own actions have led it through
    [updateRecord]. *)
Definition thread_ok (unit : config.DNSRecord * string) (tr : list event)
    (g : updater.goroutine) : Prop :=
  match g with
  | updater.GoRun rec recType q =>
      rec = unit.1 ∧ recType = unit.2
      ∧ residual (updater.updateRecord unit.1 unit.2) tr q
  | updater.GoSent err =>
      returns (updater.updateRecord unit.1 unit.2) tr (Returned (Some err))
  | updater.GoDone o => returns (updater.updateRecord unit.1 unit.2) tr o
  end.

(** What holds of every pool that a pass over [cfg], started on the machine
    [m0], can reach. *)
Record pool_inv {E} (cfg : config.Config) (m0 : Machine E) (p : Pool E) : Prop := {
  inv_length : length (p_threads p) = length (updater.units (config.Records cfg));
  inv_threads : ∀ i unit g,
    updater.units (config.Records cfg) !! i = Some unit →
    p_threads p !! i = Some g →
    thread_ok unit (thread_trace i (p_trace p)) g;
  inv_chan : length (p_errChan p) = count has_sent (p_threads p);
  inv_cap : p_cap p = (length (config.Records cfg) * 2)%nat;
  inv_room : (length (p_errChan p) ≤ p_cap p)%nat;
  inv_wg : p_wg p = count is_live (p_threads p);
  inv_state : m_state (p_machine p) = replay (m_state m0) (p_trace p).*2
}.

(** ** Vocabulary for configurations *)

(** A record that passes every check of [Validate]. *)
Definition record_ok (r : config.DNSRecord) : Prop :=
  config.ZoneID r ≠ "" ∧ config.Name r ≠ "" ∧ config.Types r ≠ []
  ∧ Forall (λ t, t = "A" ∨ t = "AAAA") (config.Types r)
  ∧ 60 ≤ config.TTL r ≤ 86400.

(** [e] is the error of the first check that record [r], at index [i],
    fails, the checks taken in the order of the source. *)
Definition first_failure (i : nat) (r : config.DNSRecord) (e : config.config_error) : Prop :=
  (config.ZoneID r = "" ∧ e = config.ErrZoneIDRequired i)
  ∨ (config.ZoneID r ≠ "" ∧ config.Name r = "" ∧ e = config.ErrNameRequired i)
  ∨ (config.ZoneID r ≠ "" ∧ config.Name r ≠ "" ∧ config.Types r = []
     ∧ e = config.ErrTypesRequired i)
  ∨ (config.ZoneID r ≠ "" ∧ config.Name r ≠ ""
     ∧ ∃ before t after,
         config.Types r = before ++ t :: after
         ∧ Forall (λ t, t = "A" ∨ t = "AAAA") before
         ∧ t ≠ "A" ∧ t ≠ "AAAA" ∧ e = config.ErrInvalidType i t)
  ∨ (config.ZoneID r ≠ "" ∧ config.Name r ≠ "" ∧ config.Types r ≠ []
     ∧ Forall (λ t, t = "A" ∨ t = "AAAA") (config.Types r)
     ∧ (config.TTL r < 60 ∨ config.TTL r > 86400) ∧ e = config.ErrTTLRange i).

(** ** Vocabulary for the detector *)

(** A lookup: the service asked, the family asked for, the answer. *)
Definition fetch_of (ev : event) : option (string * bool * result string) :=
  match ev with
  | EvFetchIP url isIPv6 r => Some (url, isIPv6, r)
  | _ => None
  end.

(** A write of a cache of the detector: the family and the address. *)
Definition cached_of (ev : event) : option (bool * string) :=
  match ev with
  | EvCacheIP isIPv6 ip => Some (isIPv6, ip)
  | _ => None
  end.

(** An answer that [GetIPv4] and [GetIPv6] take: no error, and an address
    that is not empty. *)
Definition usable (r : result string) : bool :=
  match r with
  | Ok ip => bool_decide (ip ≠ "")
  | Err _ => false
  end.

(** [net.ParseIP] parses the address, and it is of the family asked for:
    IPv6 when [To4] is nil, IPv4 when it is not. *)
Definition valid_address (O : detector.Outside) (isIPv6 : bool) (ip : string) : Prop :=
  ∃ parsedIP, detector.ParseIP O ip = Some parsedIP
              ∧ detector.To4 O parsedIP = negb isIPv6.

(** Every lookup that the trace of a pool says was answered with an
    address was answered with a valid address of the family asked for. *)
Definition answers_valid (O : detector.Outside) (e : nat * event) : Prop :=
  match e.2 with
  | EvFetchIP _ isIPv6 (Ok ip) => valid_address O isIPv6 ip
  | _ => True
  end.

(** ** Vocabulary for a pass in the steady state *)

(** Every read of the state in the trace was answered with what the
    writes before it had left there. *)
Definition reads_consistent (s0 : updater.State) (tr : list event) : Prop :=
  ∀ j z n t v,
    tr !! j = Some (EvStateGet z n t v) →
    v = updater.State_Get (replay s0 (take j tr)) z n t.

Definition is_set_event (ev : event) : bool :=
  match ev with
  | EvStateSet _ _ _ _ => true
  | _ => false
  end.

(** Neither a call to the provider nor a write of the state. *)
Definition quiet (ev : event) : bool :=
  negb (is_provider_event ev) && negb (is_set_event ev).

(** The address family that [updateRecord] asks for: IPv6 for AAAA. *)
Definition family (recordType : string) : bool := bool_decide (recordType = "AAAA").

(** * Verification *)

(** ** Paths and runs *)

(** A [call] followed by its continuation is one node of the tree. *)
Ltac call_bind := change (Vis ?a Ret ≫= ?f) with (Vis a (λ x, f x)) in *.

Lemma residual_Ret {A} (a : A) tr q : residual (Ret a) tr q → tr = [] ∧ q = Ret a.
Proof. destruct tr; simpl; [intros <-; done | done]. Qed.

Lemma returns_Ret {A} (a b : A) tr : returns (Ret a) tr b ↔ tr = [] ∧ a = b.
Proof.
  split.
  - intros H. apply residual_Ret in H as [-> H]. by injection H as ->.
  - intros [-> ->]. reflexivity.
Qed.

Lemma returns_Vis {A X} (act : action X) (k : X → prog A) tr (a : A) :
  returns (Vis act k) tr a ↔ ∃ x tr', tr = event_of act x :: tr' ∧ returns (k x) tr' a.
Proof.
  unfold returns. split.
  - destruct tr as [|ev tr']; simpl; [discriminate|].
    intros (x & -> & H). eauto.
  - intros (x & tr' & -> & H). simpl. eauto.
Qed.

Lemma residual_app {A} (p q r : prog A) tr1 tr2 :
  residual p tr1 q → residual q tr2 r → residual p (tr1 ++ tr2) r.
Proof.
  revert p. induction tr1 as [|ev tr1 IH]; simpl; intros p.
  - by intros ->.
  - destruct p as [|X act k]; [done|]. intros (x & -> & H) Hq. eauto.
Qed.

Lemma residual_snoc {A X} (p : prog A) tr (act : action X) (k : X → prog A) (x : X) :
  residual p tr (Vis act k) → residual p (tr ++ [event_of act x]) (k x).
Proof. intros H. eapply residual_app; [exact H|]. simpl. eauto. Qed.

Lemma returns_bind {A B} (p : prog A) (f : A → prog B) tr (b : B) :
  returns (p ≫= f) tr b ↔
  ∃ a tr1 tr2, tr = tr1 ++ tr2 ∧ returns p tr1 a ∧ returns (f a) tr2 b.
Proof.
  revert tr. induction p as [a|X act k IH]; intros tr.
  - change (Ret a ≫= f) with (f a). split.
    + intros H. exists a, [], tr. by rewrite returns_Ret.
    + intros (a' & tr1 & tr2 & -> & [-> ->]%returns_Ret & H). done.
  - change (Vis act k ≫= f) with (Vis act (λ x, k x ≫= f)).
    rewrite returns_Vis. split.
    + intros (x & tr' & -> & (a & tr1 & tr2 & -> & H1 & H2)%IH).
      exists a, (event_of act x :: tr1), tr2. rewrite returns_Vis. eauto 10.
    + intros (a & tr1 & tr2 & -> & (x & tr' & -> & H1)%returns_Vis & H2).
      exists x, (tr' ++ tr2). split; [done|]. apply IH. eauto 10.
Qed.

(** A sequential run follows a path of the program. *)
Lemma run_returns {E A} (p : prog A) (m m' : Machine E) (a : A) (evs : list event) :
  run p m = (a, m', evs) → returns p evs a.
Proof.
  revert m evs. induction p as [b|X act k IH]; simpl; intros m evs.
  - intros [= -> _ <-]. reflexivity.
  - destruct (handle act m) as [x m1] eqn:Hh.
    destruct (run (k x) m1) as [[a' m2] evs'] eqn:Hr.
    intros [= -> -> <-]. apply returns_Vis. eauto.
Qed.

Lemma run_bind {E A B} (p : prog A) (f : A → prog B) (m : Machine E) :
  run (p ≫= f) m =
  let '(a, m1, evs1) := run p m in
  let '(b, m2, evs2) := run (f a) m1 in
  (b, m2, evs1 ++ evs2).
Proof.
  revert m. induction p as [a|X act k IH]; intros m.
  - change (Ret a ≫= f) with (f a). simpl. by destruct (run (f a) m) as [[??]?].
  - change (Vis act k ≫= f) with (Vis act (λ x, k x ≫= f)). simpl.
    destruct (handle act m) as [x m1]. rewrite IH.
    destruct (run (k x) m1) as [[a m2] evs1].
    by destruct (run (f a) m2) as [[??]?].
Qed.

(** Calls that may panic, in sequence. *)
Lemma returns_try_bind {A B} (p : prog (outcome A)) (f : A → prog (outcome B)) tr b :
  returns (try_bind f p) tr b ↔
  (∃ a tr1 tr2, tr = tr1 ++ tr2 ∧ returns p tr1 (Returned a) ∧ returns (f a) tr2 b)
  ∨ (returns p tr Panicked ∧ b = Panicked).
Proof.
  unfold try_bind. rewrite returns_bind. split.
  - intros ([a|] & tr1 & tr2 & -> & Hp & Hf).
    + left. by exists a, tr1, tr2.
    + right. apply returns_Ret in Hf as [-> <-]. by rewrite app_nil_r.
  - intros [(a & tr1 & tr2 & -> & Hp & Hf)|[Hp ->]].
    + by exists (Returned a), tr1, tr2.
    + exists Panicked, tr, []. by rewrite app_nil_r, returns_Ret.
Qed.

Lemma run_try_bind {E A B} (p : prog (outcome A)) (f : A → prog (outcome B))
    (m : Machine E) :
  run (try_bind f p) m =
  let '(o, m1, evs1) := run p m in
  match o with
  | Returned a => let '(b, m2, evs2) := run (f a) m1 in (b, m2, evs1 ++ evs2)
  | Panicked => (Panicked, m1, evs1)
  end.
Proof.
  unfold try_bind. rewrite run_bind. destruct (run p m) as [[[a|] m1] evs1]; [done|].
  cbn. by rewrite app_nil_r.
Qed.

(** ** The resolver *)

Lemma GetIP_loop_returns isIPv6 services tr r :
  returns (ipdetect.GetIP_loop isIPv6 services) tr r →
  Forall (λ ev, is_resolver_event ev = true) tr
  ∧ match r with
    | Ok ip => ip ≠ "" ∧ ∃ tr0 url, tr = tr0 ++ [EvFetchIP url isIPv6 (Ok ip); EvCacheIP isIPv6 ip]
    | Err e => e = (if isIPv6 then ErrDetectIPv6 else ErrDetectIPv4)
               ∧ length tr = length services
    end.
Proof.
  revert tr. induction services as [|service rest IH]; intros tr; simpl.
  - intros [-> [= <-]]%returns_Ret. done.
  - intros (x & tr' & -> & H)%returns_Vis.
    destruct x as [ip|e].
    + case_bool_decide as Hip.
      * apply returns_Vis in H as ([] & tr'' & -> & [-> [= <-]]%returns_Ret).
        split; [repeat constructor|]. split; [done|]. by exists [], service.
      * apply IH in H as [Hall Hr]. split; [by constructor|].
        destruct r as [ip'|e'].
        -- destruct Hr as (Hne & tr0 & url & ->). split; [done|].
           by exists (EvFetchIP service isIPv6 (Ok ip) :: tr0), url.
        -- destruct Hr as [-> Hlen]. split; [done|]. simpl. by rewrite Hlen.
    + apply IH in H as [Hall Hr]. split; [by constructor|].
      destruct r as [ip'|e'].
      * destruct Hr as (Hne & tr0 & url & ->). split; [done|].
        by exists (EvFetchIP service isIPv6 (Err e) :: tr0), url.
      * destruct Hr as [-> Hlen]. split; [done|]. simpl. by rewrite Hlen.
Qed.

Lemma resolves_events recordType tr r :
  resolves recordType tr r → Forall (λ ev, is_resolver_event ev = true) tr.
Proof. by intros [[_ H]|[_ H]]; apply GetIP_loop_returns in H as [? _]. Qed.

(** An address that a resolver returns is never empty. *)
Lemma resolves_nonempty recordType tr ip : resolves recordType tr (Ok ip) → ip ≠ "".
Proof. by intros [[_ H]|[_ H]]; apply GetIP_loop_returns in H as [_ [? _]]. Qed.

(** ** The provider client *)

Lemma GetDNSRecord_returns zoneID name recordType tr r :
  returns (cloudflare.GetDNSRecord zoneID name recordType) tr r ↔
  ∃ lr, tr = [EvList zoneID name recordType lr]
        ∧ r = match lr with
              | Err err => Returned (Err (ErrListDNS err))
              | Ok [] => Returned (Err (ErrRecordNotFound name recordType))
              | Ok (record :: _) =>
                  match cloudflare.info_of zoneID record with
                  | Panicked => Panicked
                  | Returned info => Returned (Ok info)
                  end
              end.
Proof.
  unfold cloudflare.GetDNSRecord, call.
  call_bind.
  rewrite returns_Vis. split.
  - intros (lr & tr' & -> & H). exists lr. simpl.
    destruct lr as [[|record others]|err]; [| |];
      try destruct (cloudflare.info_of zoneID record);
      apply returns_Ret in H as [-> <-]; done.
  - intros (lr & -> & ->). exists lr, []. split; [done|].
    destruct lr as [[|record others]|err]; try done.
    by destruct (cloudflare.info_of zoneID record).
Qed.

Lemma info_of_Some zoneID record proxied :
  cf_Proxied record = Some proxied →
  ∃ info, cloudflare.info_of zoneID record = Returned info
          ∧ cloudflare.ID info = cf_ID record
          ∧ cloudflare.Content info = cf_Content record.
Proof. unfold cloudflare.info_of. intros ->. by eexists. Qed.

Lemma info_of_None zoneID record :
  cf_Proxied record = None → cloudflare.info_of zoneID record = Panicked.
Proof. unfold cloudflare.info_of. by intros ->. Qed.

Lemma CreateDNSRecord_then_returns zoneID name recordType content ttl proxied tr r :
  returns (c ←! cloudflare.CreateDNSRecord zoneID name recordType content ttl proxied;
           match c with
           | Err err => mret (Returned (Some err))
           | Ok _ => mret (Returned None)
           end) tr r ↔
  ∃ cr, tr = [EvCreate zoneID name recordType content ttl proxied cr] ∧ r = created cr.
Proof.
  unfold cloudflare.CreateDNSRecord, call, try_bind.
  cbn [mbind prog_mbind prog_bind].
  rewrite returns_Vis. split.
  - intros (cr & tr' & -> & H). exists cr. unfold created, cloudflare.info_of in *.
    destruct cr as [record|err]; [destruct (cf_Proxied record)|];
      cbn [mbind prog_mbind prog_bind mret prog_ret] in H;
      apply returns_Ret in H as [-> <-]; done.
  - intros (cr & -> & ->). exists cr, []. split; [done|].
    unfold created, cloudflare.info_of.
    destruct cr as [record|err]; [destruct (cf_Proxied record)|]; done.
Qed.

Lemma UpsertDNSRecord_returns zoneID name recordType content ttl proxied tr r :
  returns (cloudflare.UpsertDNSRecord zoneID name recordType content ttl proxied) tr r ↔
  upsert_path zoneID name recordType content ttl proxied tr r.
Proof.
  unfold cloudflare.UpsertDNSRecord. rewrite returns_try_bind. split.
  - intros [(g & tr1 & tr2 & -> & (lr & -> & Hg)%GetDNSRecord_returns & H)
           |[(lr & -> & Hg)%GetDNSRecord_returns ->]].
    + destruct lr as [[|record others]|err].
      * injection Hg as ->.
        apply CreateDNSRecord_then_returns in H as (cr & -> & ->).
        by apply upsert_create.
      * destruct (cf_Proxied record) as [px|] eqn:Hpx.
        -- destruct (info_of_Some zoneID record px Hpx) as (info & Hinfo & Hid & _).
           rewrite Hinfo in Hg. injection Hg as ->. rewrite Hid in H.
           unfold cloudflare.UpdateDNSRecord, call in H.
           change (Vis ?a Ret ≫= ?f ≫= ?g) with (Vis a (λ x, f x ≫= g)) in H.
           apply returns_Vis in H as (ur & tr5 & -> & H).
           destruct ur as [record'|err']; apply returns_Ret in H as [-> <-].
           ++ by apply (upsert_update _ _ _ _ _ _ record others (Ok record')).
           ++ by apply (upsert_update _ _ _ _ _ _ record others (Err err')).
        -- by rewrite (info_of_None _ _ Hpx) in Hg.
      * injection Hg as ->.
        apply CreateDNSRecord_then_returns in H as (cr & -> & ->).
        by apply upsert_create.
    + destruct lr as [[|record others]|err]; try done.
      destruct (cf_Proxied record) as [px|] eqn:Hpx.
      * destruct (info_of_Some zoneID record px Hpx) as (info & Hinfo & _).
        by rewrite Hinfo in Hg.
      * by apply upsert_find_panics.
  - intros [record others ur [px Hpx]|lr cr Hlr|record others Hpx].
    + left. destruct (info_of_Some zoneID record px Hpx) as (info & Hinfo & Hid & _).
      exists (Ok info), [EvList zoneID name recordType (Ok (record :: others))],
        [EvUpdate zoneID (cf_ID record) content ttl proxied ur].
      split; [done|]. split.
      * apply GetDNSRecord_returns. exists (Ok (record :: others)). by rewrite Hinfo.
      * rewrite Hid. unfold cloudflare.UpdateDNSRecord, call.
        change (Vis ?a Ret ≫= ?f ≫= ?g) with (Vis a (λ x, f x ≫= g)).
        apply returns_Vis. exists ur, []. split; [done|]. by destruct ur.
    + left.
      exists (match lr with
              | Err err => Err (ErrListDNS err)
              | _ => Err (ErrRecordNotFound name recordType)
              end),
        [EvList zoneID name recordType lr],
        [EvCreate zoneID name recordType content ttl proxied cr].
      split; [done|]. split.
      * apply GetDNSRecord_returns. exists lr.
        destruct lr as [[|record others]|err]; [done| |done].
        by destruct (Hlr record others).
      * assert (returns
          (c ←! cloudflare.CreateDNSRecord zoneID name recordType content ttl proxied;
           match c with
           | Err err => mret (Returned (Some err))
           | Ok _ => mret (Returned None)
           end)
          [EvCreate zoneID name recordType content ttl proxied cr] (created cr)) as Hc
          by (apply CreateDNSRecord_then_returns; by exists cr).
        destruct lr as [[|record others]|err]; [done| |done].
        by destruct (Hlr record others).
    + right. split; [|done]. apply GetDNSRecord_returns.
      exists (Ok (record :: others)). by rewrite (info_of_None _ _ Hpx).
Qed.

(** ** The paths of a unit of work *)

Lemma updateRecord_compare_returns record recordType currentIP tr r :
  returns (updater.updateRecord_compare record recordType currentIP) tr r ↔
  ∃ lastKnownIP tr',
    tr = EvStateGet (config.ZoneID record) (config.Name record) recordType lastKnownIP :: tr'
    ∧ if bool_decide (currentIP = lastKnownIP) && bool_decide (lastKnownIP ≠ "")
      then tr' = [] ∧ r = Returned None
      else ∃ tru out,
        upsert_path (config.ZoneID record) (config.Name record) recordType currentIP
          (config.TTL record) (config.Proxied record) tru out
        ∧ match out with
          | Returned (Some e) =>
              tr' = tru ∧ r = Returned (Some (ErrFailedUpdateCloudflare e))
          | Returned None =>
              tr' = tru ++ [EvStateSet (config.ZoneID record) (config.Name record)
                              recordType currentIP]
              ∧ r = Returned None
          | Panicked => tr' = tru ∧ r = Panicked
          end.
Proof.
  unfold updater.updateRecord_compare, call.
  call_bind.
  rewrite returns_Vis. apply exist_proper; intros lastKnownIP.
  apply exist_proper; intros tr'. apply and_iff_compat_l.
  destruct (bool_decide (currentIP = lastKnownIP) && bool_decide (lastKnownIP ≠ "")).
  - rewrite returns_Ret. split; intros [-> ?]; done.
  - rewrite returns_try_bind. split.
    + intros [(uerr & tr1 & tr2 & -> & Hu%UpsertDNSRecord_returns & H)
             |[Hu%UpsertDNSRecord_returns ->]].
      * exists tr1, (Returned uerr). split; [done|]. destruct uerr as [e|].
        -- apply returns_Ret in H as [-> <-]. by rewrite app_nil_r.
        -- call_bind.
           apply returns_Vis in H as ([] & tr3 & -> & [-> <-]%returns_Ret). done.
      * by exists tr', Panicked.
    + intros (tru & out & Hu%UpsertDNSRecord_returns & H).
      destruct out as [[e|]|]; destruct H as [-> ->].
      * left. exists (Some e), tru, []. rewrite app_nil_r, returns_Ret. done.
      * left. exists None, tru,
          [EvStateSet (config.ZoneID record) (config.Name record) recordType currentIP].
        split; [done|]. split; [done|].
        call_bind.
        apply returns_Vis. by exists tt, [].
      * by right.
Qed.

Lemma updateRecord_detected_returns record recordType (p : prog (result string)) tr r :
  returns (p ≫= updater.updateRecord_detected record recordType) tr r →
  (∃ err, returns p tr (Err err) ∧ r = Returned (Some (ErrFailedDetectIP err)))
  ∨ (∃ currentIP tr1 tr2, tr = tr1 ++ tr2 ∧ returns p tr1 (Ok currentIP)
       ∧ returns (updater.updateRecord_compare record recordType currentIP) tr2 r).
Proof.
  intros (d & tr1 & tr2 & -> & Hd & H)%returns_bind. destruct d as [currentIP|err]; simpl in H.
  - right. by exists currentIP, tr1, tr2.
  - left. apply returns_Ret in H as [-> <-]. rewrite app_nil_r. by exists err.
Qed.

(** Every complete path of [updateRecord] is one of the six of
    [unit_path], and conversely. *)
Lemma updateRecord_returns record recordType tr r :
  returns (updater.updateRecord record recordType) tr r ↔ unit_path record recordType tr r.
Proof.
  split.
  - intros H.
    assert (Hres : ∀ p : prog (result string),
      (∀ tr0 d, returns p tr0 d → resolves recordType tr0 d) →
      returns (p ≫= updater.updateRecord_detected record recordType) tr r →
      unit_path record recordType tr r).
    { intros p Hp [(err & Hd & ->)|(currentIP & tr1 & tr2 & -> & Hd & Hc)]
        %updateRecord_detected_returns.
      - apply unit_detect_failed. by apply Hp.
      - apply Hp in Hd. pose proof (resolves_nonempty _ _ _ Hd) as Hne.
        apply updateRecord_compare_returns in Hc as (lastKnownIP & tr' & -> & Hc).
        destruct (bool_decide (currentIP = lastKnownIP) && bool_decide (lastKnownIP ≠ ""))
          eqn:Hcmp.
        + destruct Hc as [-> ->].
          apply andb_prop in Hcmp as [<-%bool_decide_eq_true_1 _].
          by apply unit_no_change.
        + assert (currentIP ≠ lastKnownIP ∨ lastKnownIP = "") as Hchg.
          { apply andb_false_iff in Hcmp as [Hc1%bool_decide_eq_false_1|Hc2%bool_decide_eq_false_1].
            - by left.
            - right. by destruct (decide (lastKnownIP = "")). }
          destruct Hc as (tru & out & Hu & Hr).
          destruct out as [[e|]|]; destruct Hr as [-> ->].
          * by eapply unit_upsert_failed.
          * by eapply unit_upserted.
          * by eapply unit_upsert_panicked. }
    unfold updater.updateRecord in H.
    case_bool_decide as HA; [|case_bool_decide as HAAAA].
    + apply (Hres _ (λ tr0 d H0, or_introl (conj HA H0)) H).
    + apply (Hres _ (λ tr0 d H0, or_intror (conj HAAAA H0)) H).
    + apply returns_Ret in H as [-> <-]. by apply unit_invalid_type.
  - assert (Hres : ∀ tr0 d tr2 r0,
      resolves recordType tr0 d →
      returns (updater.updateRecord_detected record recordType d) tr2 r0 →
      returns (updater.updateRecord record recordType) (tr0 ++ tr2) r0).
    { intros tr0 d tr2 r0 [[-> Hd]|[-> Hd]] H; unfold updater.updateRecord.
      - rewrite bool_decide_eq_true_2 by done.
        apply returns_bind. by exists d, tr0, tr2.
      - rewrite bool_decide_eq_false_2, bool_decide_eq_true_2 by done.
        apply returns_bind. by exists d, tr0, tr2. }
    assert (Hcmp : ∀ currentIP lastKnownIP,
      currentIP ≠ lastKnownIP ∨ lastKnownIP = "" →
      bool_decide (currentIP = lastKnownIP) && bool_decide (lastKnownIP ≠ "") = false).
    { intros currentIP lastKnownIP Hchg. apply andb_false_iff.
      destruct Hchg as [?| ->]; [left|right]; by apply bool_decide_eq_false_2; auto. }
    intros [HA HAAAA|tr0 err Hd|tr0 currentIP Hd Hne
            |tr0 currentIP lastKnownIP tru err Hd Hchg Hu
            |tr0 currentIP lastKnownIP tru Hd Hchg Hu
            |tr0 currentIP lastKnownIP tru Hd Hchg Hu].
    + unfold updater.updateRecord. rewrite !bool_decide_eq_false_2 by done. reflexivity.
    + rewrite <- (app_nil_r tr0). by apply (Hres tr0 (Err err) []).
    + apply (Hres tr0 (Ok currentIP)); [done|]. simpl.
      apply updateRecord_compare_returns. exists currentIP, []. split; [done|].
      by rewrite !bool_decide_eq_true_2.
    + apply (Hres tr0 (Ok currentIP)); [done|]. simpl.
      apply updateRecord_compare_returns. exists lastKnownIP, tru. split; [done|].
      rewrite (Hcmp _ _ Hchg). by exists tru, (Returned (Some err)).
    + apply (Hres tr0 (Ok currentIP)); [done|]. simpl.
      apply updateRecord_compare_returns. exists lastKnownIP, (tru ++
        [EvStateSet (config.ZoneID record) (config.Name record) recordType currentIP]).
      split; [done|]. rewrite (Hcmp _ _ Hchg). by exists tru, (Returned None).
    + apply (Hres tr0 (Ok currentIP)); [done|]. simpl.
      apply updateRecord_compare_returns. exists lastKnownIP, tru. split; [done|].
      rewrite (Hcmp _ _ Hchg). by exists tru, Panicked.
Qed.

(** ** Sequential runs *)

Lemma resolver_resolves recordType p tr r :
  resolver recordType = Some p → returns p tr r → resolves recordType tr r.
Proof.
  unfold resolver, resolves. repeat case_bool_decide; intros [= <-] Hp; auto.
Qed.

Lemma updateRecord_resolver record recordType :
  updater.updateRecord record recordType =
  match resolver recordType with
  | Some p => p ≫= updater.updateRecord_detected record recordType
  | None => Ret (Returned (Some (ErrInvalidRecordType recordType)))
  end.
Proof. unfold updater.updateRecord, resolver. by repeat case_bool_decide. Qed.

Lemma handle_state {E X} (act : action X) (m : Machine E) :
  m_state (handle act m).2 = apply_event (m_state m) (event_of act (handle act m).1).
Proof.
  destruct act; simpl; try done.
  - by destruct (env_fetchIP _ _ _ _).
  - by destruct (env_list _ _ _ _ _).
  - by destruct (env_update _ _ _ _ _ _ _).
  - by destruct (env_create _ _ _ _ _ _ _ _).
Qed.

(** The state a run leaves is the state it found, with the [Set]s of its
    trace applied in order. *)
Lemma run_state {E A} (p : prog A) (m m' : Machine E) (a : A) evs :
  run p m = (a, m', evs) → m_state m' = replay (m_state m) evs.
Proof.
  revert m evs. induction p as [b|X act k IH]; simpl; intros m evs.
  - by intros [= _ <- <-].
  - pose proof (handle_state act m) as Hh.
    destruct (handle act m) as [x m1]. simpl in Hh.
    destruct (run (k x) m1) as [[a' m2] evs'] eqn:Hr.
    intros [= -> -> <-]. unfold replay. simpl. rewrite <- Hh. by eapply IH.
Qed.

Lemma replay_app s evs1 evs2 : replay s (evs1 ++ evs2) = replay (replay s evs1) evs2.
Proof. apply foldl_app. Qed.

Lemma replay_no_sets s evs : omap set_of evs = [] → replay s evs = s.
Proof.
  revert s. induction evs as [|ev evs IH]; intros s; [done|].
  simpl. destruct ev; simpl; try done; apply IH.
Qed.

Lemma resolver_events_no_sets evs :
  Forall (λ ev, is_resolver_event ev = true) evs →
  omap set_of evs = [] ∧ omap write_of evs = [] ∧ omap confirmed_write_of evs = []
  ∧ Forall (λ ev, is_provider_event ev = false) evs.
Proof.
  induction 1 as [|ev evs Hev _ (IH1 & IH2 & IH3 & IH4)]; [done|].
  destruct ev; try discriminate; simpl; rewrite ?IH1, ?IH2, ?IH3; auto.
Qed.

Lemma omap_cons_None {A B} (f : A → option B) x l : f x = None → omap f (x :: l) = omap f l.
Proof. intros H. simpl. by rewrite H. Qed.

Lemma omap_cons_Some {A B} (f : A → option B) x y l :
  f x = Some y → omap f (x :: l) = y :: omap f l.
Proof. intros H. simpl. by rewrite H. Qed.

Lemma upsert_path_events z n t c ttl p tru out :
  upsert_path z n t c ttl p tru out →
  omap set_of tru = []
  ∧ ((∃ record others,
        tru = [EvList z n t (Ok (record :: others))]
        ∧ cf_Proxied record = None ∧ out = Panicked)
     ∨ (∃ lr w, tru = [EvList z n t lr; w] ∧ write_of w = Some (z, c, ttl, p)
          ∧ confirmed_write_of w
            = match out with Returned (Some _) => None | _ => Some c end)).
Proof.
  intros [record others ur Hpx|lr cr Hlr|record others Hpx]; (split; [done|]).
  - right. eexists _, _. split; [done|]. by destruct ur.
  - right. eexists _, _. split; [done|]. unfold created.
    destruct cr as [record|err]; [by destruct (cf_Proxied record)|done].
  - left. by exists record, others.
Qed.

(** An upsert that returns has made its one write. *)
Lemma upsert_path_returned z n t c ttl p tru uerr :
  upsert_path z n t c ttl p tru (Returned uerr) →
  omap set_of tru = [] ∧ omap write_of tru = [(z, c, ttl, p)]
  ∧ ∃ lr w, tru = [EvList z n t lr; w] ∧ write_of w = Some (z, c, ttl, p)
      ∧ confirmed_write_of w = match uerr with Some _ => None | None => Some c end.
Proof.
  intros [Hs [(record & others & _ & _ & [=])|(lr & w & -> & Hw & Hc)]]%upsert_path_events.
  split; [done|]. split; [simpl; by rewrite Hw|].
  exists lr, w. split; [done|]. split; [done|]. by destruct uerr.
Qed.

(** [updateRecord], from the comparison on, computed. *)
Lemma run_updateRecord_compare {E} record recordType currentIP (m : Machine E) :
  run (updater.updateRecord_compare record recordType currentIP) m =
  let lastKnownIP :=
    updater.State_Get (m_state m) (config.ZoneID record) (config.Name record) recordType in
  let get := EvStateGet (config.ZoneID record) (config.Name record) recordType lastKnownIP in
  if bool_decide (currentIP = lastKnownIP) && bool_decide (lastKnownIP ≠ "")
  then (Returned None, m, [get])
  else
    let '(out, m2, evs2) :=
      run (cloudflare.UpsertDNSRecord (config.ZoneID record) (config.Name record)
             recordType currentIP (config.TTL record) (config.Proxied record)) m in
    match out with
    | Returned (Some e) => (Returned (Some (ErrFailedUpdateCloudflare e)), m2, get :: evs2)
    | Returned None =>
        (Returned None,
         set_state m2 (updater.State_Set (m_state m2) (config.ZoneID record)
                         (config.Name record) recordType currentIP),
         get :: evs2 ++ [EvStateSet (config.ZoneID record) (config.Name record)
                           recordType currentIP])
    | Panicked => (Panicked, m2, get :: evs2)
    end.
Proof.
  unfold updater.updateRecord_compare, call.
  call_bind.
  cbn [run handle event_of].
  destruct (bool_decide _ && bool_decide _); [done|].
  rewrite run_try_bind.
  destruct (run (cloudflare.UpsertDNSRecord _ _ _ _ _ _) m) as [[[[e|]|] m2] evs2].
  - cbn. by rewrite app_nil_r.
  - call_bind. done.
  - done.
Qed.

Lemma State_Get_Set s z n t ip : updater.State_Get (updater.State_Set s z n t ip) z n t = ip.
Proof. unfold updater.State_Get, updater.State_Set. simpl. by rewrite lookup_insert_eq. Qed.

Lemma State_Get_absent s z n t :
  updater.Records s !! updater.stateKey z n t = None → updater.State_Get s z n t = "".
Proof. unfold updater.State_Get. by intros ->. Qed.

Lemma State_Set_other s z n t ip k :
  k ≠ updater.stateKey z n t →
  updater.Records (updater.State_Set s z n t ip) !! k = updater.Records s !! k.
Proof. intros Hk. unfold updater.State_Set. simpl. by rewrite lookup_insert_ne. Qed.

(** A resolver leaves the Reconciliation State alone. *)
Lemma run_resolver {E} recordType p (m m1 : Machine E) d evs1 :
  resolver recordType = Some p →
  run p m = (d, m1, evs1) →
  resolves recordType evs1 d ∧ m_state m1 = m_state m
  ∧ Forall (λ ev, is_resolver_event ev = true) evs1.
Proof.
  intros Hres Hrun.
  pose proof (resolver_resolves _ _ _ _ Hres (run_returns _ _ _ _ _ Hrun)) as Hd.
  pose proof (resolves_events _ _ _ Hd) as Hevs.
  split; [done|]. split; [|done].
  rewrite (run_state _ _ _ _ _ Hrun). apply replay_no_sets.
  by apply resolver_events_no_sets.
Qed.

(** An upsert leaves the Reconciliation State alone. *)
Lemma run_UpsertDNSRecord {E} z n t c ttl p (m m2 : Machine E) out tru :
  run (cloudflare.UpsertDNSRecord z n t c ttl p) m = (out, m2, tru) →
  upsert_path z n t c ttl p tru out ∧ m_state m2 = m_state m.
Proof.
  intros Hrun.
  pose proof (proj1 (UpsertDNSRecord_returns _ _ _ _ _ _ _ _) (run_returns _ _ _ _ _ Hrun))
    as Hu.
  split; [done|]. rewrite (run_state _ _ _ _ _ Hrun). apply replay_no_sets.
  by apply upsert_path_events in Hu as [? _].
Qed.

(** ** C1: a changed or first-seen address is upserted, once *)

(** What [updateRecord] does when the comparison does not stop it. *)
Lemma run_updateRecord_upsert {E} (m m1 : Machine E) record recordType p A2 evs1 :
  resolver recordType = Some p →
  run p m = (Ok A2, m1, evs1) →
  updater.State_Get (m_state m) (config.ZoneID record) (config.Name record) recordType = ""
  ∨ updater.State_Get (m_state m) (config.ZoneID record) (config.Name record) recordType
    ≠ A2 →
  ∃ out m2 tru m' evs,
    run (cloudflare.UpsertDNSRecord (config.ZoneID record) (config.Name record) recordType
           A2 (config.TTL record) (config.Proxied record)) m1 = (out, m2, tru)
    ∧ run (updater.updateRecord record recordType) m
      = (match out with
         | Returned uerr => Returned (ErrFailedUpdateCloudflare <$> uerr)
         | Panicked => Panicked
         end, m', evs)
    ∧ evs
      = evs1
        ++ EvStateGet (config.ZoneID record) (config.Name record) recordType
             (updater.State_Get (m_state m) (config.ZoneID record) (config.Name record)
                recordType)
        :: tru
        ++ match out with
           | Returned None =>
               [EvStateSet (config.ZoneID record) (config.Name record) recordType A2]
           | _ => []
           end
    ∧ (omap write_of evs
       = [(config.ZoneID record, A2, config.TTL record, config.Proxied record)]
       ∨ out = Panicked ∧ omap write_of evs = []
         ∧ ∃ existing others,
             tru = [EvList (config.ZoneID record) (config.Name record) recordType
                      (Ok (existing :: others))]
             ∧ cf_Proxied existing = None)
    ∧ match out with
      | Returned None =>
          m_state m' = updater.State_Set (m_state m) (config.ZoneID record)
                         (config.Name record) recordType A2
          ∧ updater.State_Get (m_state m') (config.ZoneID record) (config.Name record)
              recordType = A2
      | _ => m_state m' = m_state m
      end.
Proof.
  intros Hres Hrun Hstored.
  destruct (run_resolver _ _ _ _ _ _ Hres Hrun) as (Hd & Hst & Hevs).
  pose proof (resolves_nonempty _ _ _ Hd) as Hne.
  apply resolver_events_no_sets in Hevs as (_ & Hw1 & _).
  rewrite updateRecord_resolver, Hres, run_bind, Hrun.
  cbn [updater.updateRecord_detected]. rewrite run_updateRecord_compare. cbn zeta.
  rewrite Hst.
  replace (bool_decide _ && bool_decide _) with false; cycle 1.
  { symmetry. apply andb_false_iff. destruct Hstored as [Habs|Hdiff].
    - right. apply bool_decide_eq_false_2. rewrite Habs. auto.
    - left. by apply bool_decide_eq_false_2. }
  destruct (run (cloudflare.UpsertDNSRecord _ _ _ _ _ _) m1) as [[out m2] tru] eqn:Hup.
  destruct (run_UpsertDNSRecord _ _ _ _ _ _ _ _ _ _ Hup) as [Hpath Hst2].
  apply upsert_path_events in Hpath
    as (_ & [(existing & others & -> & Hpx & ->)|(lr & w & -> & Hw & _)]).
  - eexists Panicked, m2, _, _, _. split; [done|]. split; [done|]. split; [done|].
    split; [|congruence]. right. split; [done|]. split; [|by eauto].
    by rewrite omap_app, Hw1.
  - exists out, m2, [EvList (config.ZoneID record) (config.Name record) recordType lr; w].
    destruct out as [[e|]|]; eexists _, _; (split; [done|]); (split; [done|]);
      (split; [done|]).
    + split; [|congruence]. left. rewrite omap_app, Hw1. simpl. by rewrite Hw.
    + split.
      * left. rewrite omap_app, Hw1. simpl. by rewrite Hw.
      * simpl. rewrite Hst2, Hst. split; [done|]. apply State_Get_Set.
    + split; [|congruence]. left. rewrite omap_app, Hw1. simpl. by rewrite Hw.
Qed.

(** C1. When the resolver of the record type answers [A2] and the stored
    address for the key (zoneID, name, type) is absent or differs from [A2],
    [updateRecord] reads the state and then calls [UpsertDNSRecord] once, on
    the machine the resolver left, with content [A2] and the record's TTL
    and proxied flag: the trace of the unit is the trace of the resolver,
    the read, and the trace of that one call.  The unit makes exactly one
    write request to the provider, with these arguments, unless the upsert
    panics at its find, before any write.  What [updateRecord] comes to is
    what the upsert came to (an error wrapped): nil if the upsert succeeded,
    and then the state entry for the key is [A2], set as the last action;
    otherwise the state is left as it was. *)
Theorem updateRecord_changed_upserts {E} (m m1 : Machine E) record recordType p A2 evs1 :
  resolver recordType = Some p →
  run p m = (Ok A2, m1, evs1) →
  updater.Records (m_state m)
    !! updater.stateKey (config.ZoneID record) (config.Name record) recordType = None
  ∨ updater.State_Get (m_state m) (config.ZoneID record) (config.Name record) recordType
    ≠ A2 →
  ∃ out m2 tru m' evs,
    run (cloudflare.UpsertDNSRecord (config.ZoneID record) (config.Name record) recordType
           A2 (config.TTL record) (config.Proxied record)) m1 = (out, m2, tru)
    ∧ run (updater.updateRecord record recordType) m
      = (match out with
         | Returned uerr => Returned (ErrFailedUpdateCloudflare <$> uerr)
         | Panicked => Panicked
         end, m', evs)
    ∧ evs
      = evs1
        ++ EvStateGet (config.ZoneID record) (config.Name record) recordType
             (updater.State_Get (m_state m) (config.ZoneID record) (config.Name record)
                recordType)
        :: tru
        ++ match out with
           | Returned None =>
               [EvStateSet (config.ZoneID record) (config.Name record) recordType A2]
           | _ => []
           end
    ∧ (omap write_of evs
       = [(config.ZoneID record, A2, config.TTL record, config.Proxied record)]
       ∨ out = Panicked ∧ omap write_of evs = []
         ∧ ∃ existing others,
             tru = [EvList (config.ZoneID record) (config.Name record) recordType
                      (Ok (existing :: others))]
             ∧ cf_Proxied existing = None)
    ∧ match out with
      | Returned None =>
          m_state m' = updater.State_Set (m_state m) (config.ZoneID record)
                         (config.Name record) recordType A2
          ∧ updater.State_Get (m_state m') (config.ZoneID record) (config.Name record)
              recordType = A2
      | _ => m_state m' = m_state m
      end.
Proof.
  intros Hres Hrun [Habs|Hdiff]; eapply run_updateRecord_upsert; eauto.
  left. by apply State_Get_absent.
Qed.

(** ** C2: an unchanged address is a no-op *)

(** C2. When the resolver answers the address [A] that is stored for the
    key, and [A] is not empty, [updateRecord] returns nil after reading the
    state: it makes no call to the provider and leaves the Reconciliation
    State as it was. *)
Theorem updateRecord_unchanged_noop {E} (m m1 : Machine E) record recordType p A evs1 :
  resolver recordType = Some p →
  run p m = (Ok A, m1, evs1) →
  updater.State_Get (m_state m) (config.ZoneID record) (config.Name record) recordType = A →
  A ≠ "" →
  ∃ evs,
    run (updater.updateRecord record recordType) m = (Returned None, m1, evs)
    ∧ evs = evs1 ++ [EvStateGet (config.ZoneID record) (config.Name record) recordType A]
    ∧ Forall (λ ev, is_provider_event ev = false) evs
    ∧ omap set_of evs = []
    ∧ m_state m1 = m_state m.
Proof.
  intros Hres Hrun Hstored Hne.
  destruct (run_resolver _ _ _ _ _ _ Hres Hrun) as (Hd & Hst & Hevs).
  apply resolver_events_no_sets in Hevs as (Hs1 & _ & _ & Hp1).
  rewrite updateRecord_resolver, Hres, run_bind, Hrun.
  cbn [updater.updateRecord_detected]. rewrite run_updateRecord_compare. cbn zeta.
  rewrite Hst, Hstored, !bool_decide_eq_true_2 by done. cbn [andb].
  eexists. split; [done|]. split; [done|]. split.
  - apply Forall_app. split; [done|]. by constructor.
  - split; [|done]. rewrite omap_app, Hs1. done.
Qed.

(** ** The keys of the Reconciliation State *)

Lemma append_nil s : "" +:+ s = s.
Proof. reflexivity. Qed.

Lemma append_String a s t : String a s +:+ t = String a (s +:+ t).
Proof. reflexivity. Qed.

Lemma append_colon_inj z z' r r' :
  has_colon z = false → has_colon z' = false →
  z +:+ ":" +:+ r = z' +:+ ":" +:+ r' → z = z' ∧ r = r'.
Proof.
  revert z'. induction z as [|a z IH]; intros [|a' z'];
    repeat (rewrite append_nil || rewrite append_String); simpl.
  - by intros _ _ [= ->].
  - intros _ [Ha' _]%orb_false_elim [= <- _]. done.
  - intros [Ha _]%orb_false_elim _ [= -> _]. done.
  - intros [_ Hz]%orb_false_elim [_ Hz']%orb_false_elim [= -> Heq].
    by destruct (IH z' Hz Hz' Heq) as [-> ->].
Qed.

(** The formatted key determines the triple, as long as zone identifiers
    and names have no colon in them. *)
Lemma stateKey_inj z n t z' n' t' :
  has_colon z = false → has_colon n = false →
  has_colon z' = false → has_colon n' = false →
  updater.stateKey z n t = updater.stateKey z' n' t' →
  z = z' ∧ n = n' ∧ t = t'.
Proof.
  unfold updater.stateKey. intros Hz Hn Hz' Hn' Heq.
  apply append_colon_inj in Heq as [-> Heq]; [|done..].
  apply append_colon_inj in Heq as [-> ->]; done.
Qed.

(** With a colon in a zone identifier or a name, two triples can have one
    formatted key. *)
Lemma stateKey_collision :
  updater.stateKey "a:b" "c" "A" = updater.stateKey "a" "b:c" "A".
Proof. reflexivity. Qed.

(** ** C5: what a unit of work may do to the Reconciliation State *)

(** The [Set]s and confirmed writes on a complete path of a unit of work:
    no [Set], and then no confirmed write either unless the unit panicked;
    or exactly one confirmed write followed at once by the one [Set], of
    the unit's own key, as the last two actions. *)
Lemma unit_path_sets record recordType tr r :
  unit_path record recordType tr r →
  (omap set_of tr = [] ∧ (omap confirmed_write_of tr = [] ∨ r = Panicked))
  ∨ (∃ pre w ip,
       r = Returned None
       ∧ tr = pre ++ [w; EvStateSet (config.ZoneID record) (config.Name record) recordType ip]
       ∧ confirmed_write_of w = Some ip
       ∧ omap set_of pre = [] ∧ omap confirmed_write_of pre = []).
Proof.
  intros [HA HAAAA|tr0 err Hd|tr0 currentIP Hd Hne
          |tr0 currentIP lastKnownIP tru err Hd Hchg Hu
          |tr0 currentIP lastKnownIP tru Hd Hchg Hu
          |tr0 currentIP lastKnownIP tru Hd Hchg Hu].
  - left. by split; [|left].
  - left. apply resolves_events, resolver_events_no_sets in Hd as (? & _ & ? & _).
    by split; [|left].
  - left. apply resolves_events, resolver_events_no_sets in Hd as (Hs & _ & Hc & _).
    rewrite !omap_app, Hs, Hc. by split; [|left].
  - left. apply resolves_events, resolver_events_no_sets in Hd as (Hs & _ & Hc & _).
    apply upsert_path_returned in Hu as (Hs2 & _ & lr & w & -> & _ & Hcw).
    rewrite !omap_app, Hs, Hc. simpl in *. rewrite Hcw. by split; [|left].
  - right. apply resolves_events, resolver_events_no_sets in Hd as (Hs & _ & Hc & _).
    apply upsert_path_returned in Hu as (Hs2 & _ & lr & w & -> & _ & Hcw).
    exists (tr0 ++ [EvStateGet (config.ZoneID record) (config.Name record) recordType
                      lastKnownIP; EvList (config.ZoneID record) (config.Name record)
                      recordType lr]), w, currentIP.
    split; [done|]. split; [by rewrite <- app_assoc|]. split; [done|].
    by rewrite !omap_app, Hs, Hc.
  - left. apply resolves_events, resolver_events_no_sets in Hd as (Hs & _ & Hc & _).
    apply upsert_path_events in Hu as (Hs2 & _).
    rewrite !omap_app, Hs, omap_cons_None, Hs2 by done. by split; [|right].
Qed.

(** A unit of work that does not return nil has written nothing. *)
Lemma unit_path_failed record recordType tr out :
  unit_path record recordType tr out → out ≠ Returned None → omap set_of tr = [].
Proof.
  intros [[? _]|(pre & w & ip & -> & _)]%unit_path_sets; done.
Qed.

(** What a unit of work may do to the state.  If it does not return nil (it
    fails at address resolution, at the type check or at the upsert, or it
    panics) the Reconciliation State is unchanged; it never changes the map
    entry of another formatted key than its own, "zone:name:type"; and the
    State is written at most once, as the last action of the unit, right
    after the one write the provider confirmed, with the address of that
    write.  For zone identifiers and names without a colon, what [Get]
    returns for any other triple (zoneID, name, type) is unchanged. *)
Lemma updateRecord_frame {E} (m m' : Machine E) record recordType out evs :
  run (updater.updateRecord record recordType) m = (out, m', evs) →
  (out ≠ Returned None → m_state m' = m_state m ∧ omap set_of evs = [])
  ∧ (∀ k, k ≠ updater.stateKey (config.ZoneID record) (config.Name record) recordType →
       updater.Records (m_state m') !! k = updater.Records (m_state m) !! k)
  ∧ ((omap set_of evs = [] ∧ m_state m' = m_state m
      ∧ (omap confirmed_write_of evs = [] ∨ out = Panicked))
     ∨ (∃ pre w ip,
          out = Returned None
          ∧ evs = pre ++ [w; EvStateSet (config.ZoneID record) (config.Name record)
                               recordType ip]
          ∧ confirmed_write_of w = Some ip
          ∧ omap set_of pre = [] ∧ omap confirmed_write_of pre = []
          ∧ m_state m' = updater.State_Set (m_state m) (config.ZoneID record)
                           (config.Name record) recordType ip))
  ∧ (∀ z n t,
       has_colon (config.ZoneID record) = false → has_colon (config.Name record) = false →
       has_colon z = false → has_colon n = false →
       (z, n, t) ≠ (config.ZoneID record, config.Name record, recordType) →
       updater.State_Get (m_state m') z n t = updater.State_Get (m_state m) z n t).
Proof.
  intros Hrun.
  pose proof (proj1 (updateRecord_returns _ _ _ _) (run_returns _ _ _ _ _ Hrun)) as Hpath.
  pose proof (run_state _ _ _ _ _ Hrun) as Hst.
  assert (∀ z n t,
    has_colon (config.ZoneID record) = false → has_colon (config.Name record) = false →
    has_colon z = false → has_colon n = false →
    (z, n, t) ≠ (config.ZoneID record, config.Name record, recordType) →
    updater.stateKey z n t
    ≠ updater.stateKey (config.ZoneID record) (config.Name record) recordType) as Hkeys.
  { intros z n t Hz0 Hn0 Hz Hn Hne Heq. apply Hne.
    by destruct (stateKey_inj _ _ _ _ _ _ Hz Hn Hz0 Hn0 Heq) as (-> & -> & ->). }
  destruct (unit_path_sets _ _ _ _ Hpath) as [[Hs Hc]|(pre & w & ip & -> & -> & Hw & Hs & Hc)].
  - rewrite (replay_no_sets _ _ Hs) in Hst.
    split; [done|]. split; [by rewrite Hst|]. split; [by left|]. intros. by rewrite Hst.
  - rewrite replay_app, (replay_no_sets _ _ Hs) in Hst.
    assert (replay (m_state m)
              [w; EvStateSet (config.ZoneID record) (config.Name record) recordType ip]
            = updater.State_Set (m_state m) (config.ZoneID record) (config.Name record)
                recordType ip) as Hrep.
    { by destruct w. }
    rewrite Hrep in Hst. split; [done|]. split.
    + intros k Hk. rewrite Hst. by apply State_Set_other.
    + split.
      * right. by exists pre, w, ip.
      * intros z n t Hz0 Hn0 Hz Hn Hne. unfold updater.State_Get. rewrite Hst.
        rewrite State_Set_other; [done|]. by apply Hkeys.
Qed.

(** C5. The Reconciliation State is keyed by the string "zone:name:type",
    which two triples can share when a zone identifier or a name has a
    colon in it.  A unit of work that does not return nil leaves the state
    as it was, and a unit writes the state at most once, right after the one
    write that the provider confirmed, under its own formatted key; so for
    zone identifiers and names without a colon no unit changes what [Get]
    returns for another triple.  But [Validate] accepts
    [sim_io.colon_cfg], with the records (a:b, c) and (a, b:c); their
    units have different keys (zoneID, name, type), and the unit of the
    first, alone, changes what [Get] returns for the key of the second. *)
Theorem updateRecord_writes_other_triple :
  (∀ E (m m' : Machine E) record recordType out evs,
     run (updater.updateRecord record recordType) m = (out, m', evs) →
     (out ≠ Returned None → m_state m' = m_state m ∧ omap set_of evs = [])
     ∧ (∀ k, k ≠ updater.stateKey (config.ZoneID record) (config.Name record) recordType →
          updater.Records (m_state m') !! k = updater.Records (m_state m) !! k)
     ∧ ((omap set_of evs = [] ∧ m_state m' = m_state m
         ∧ (omap confirmed_write_of evs = [] ∨ out = Panicked))
        ∨ (∃ pre w ip,
             out = Returned None
             ∧ evs = pre ++ [w; EvStateSet (config.ZoneID record) (config.Name record)
                                  recordType ip]
             ∧ confirmed_write_of w = Some ip
             ∧ omap set_of pre = [] ∧ omap confirmed_write_of pre = []
             ∧ m_state m' = updater.State_Set (m_state m) (config.ZoneID record)
                              (config.Name record) recordType ip))
     ∧ (∀ z n t,
          has_colon (config.ZoneID record) = false →
          has_colon (config.Name record) = false →
          has_colon z = false → has_colon n = false →
          (z, n, t) ≠ (config.ZoneID record, config.Name record, recordType) →
          updater.State_Get (m_state m') z n t = updater.State_Get (m_state m) z n t))
  ∧ config.Validate sim.ParseDuration sim_io.colon_cfg = None
  ∧ updater.units (config.Records sim_io.colon_cfg)
    = [(sim_io.colon_ab_c, "A"); (sim_io.colon_a_bc, "A")]
  ∧ unit_key (sim_io.colon_ab_c, "A") ≠ unit_key (sim_io.colon_a_bc, "A")
  ∧ let m := sim.machine sim.fresh updater.NewState in
    let out := run (updater.updateRecord sim_io.colon_ab_c "A") m in
    out.1.1 = Returned None
    ∧ updater.State_Get (m_state m) "a" "b:c" "A" = ""
    ∧ updater.State_Get (m_state out.1.2) "a" "b:c" "A" = "203.0.113.5".
Proof.
  split; [intros E m m' record recordType out evs; apply updateRecord_frame|].
  split; [done|]. split; [done|]. split; [done|]. by vm_compute.
Qed.

(** ** The goroutine pool *)

Lemma count_insert {A} (f : A → bool) (l : list A) i x y :
  l !! i = Some x →
  (count f (<[i:=y]> l) + (if f x then 1 else 0) = count f l + (if f y then 1 else 0))%nat.
Proof.
  unfold count. revert i. induction l as [|z l IH]; intros [|i]; simpl; try done.
  - intros [= ->]. lia.
  - intros H. specialize (IH _ H). lia.
Qed.

Lemma count_le_length {A} (f : A → bool) (l : list A) : (count f l ≤ length l)%nat.
Proof. unfold count. induction l as [|x l IH]; simpl; [done|]. destruct (f x); lia. Qed.

Lemma count_zero {A} (f : A → bool) (l : list A) :
  count f l = 0%nat ↔ Forall (λ x, f x = false) l.
Proof.
  unfold count. induction l as [|x l IH]; simpl.
  - split; [constructor|done].
  - rewrite Forall_cons, <- IH. destruct (f x); split; try lia; naive_solver lia.
Qed.

Lemma thread_trace_snoc i j ev tr :
  thread_trace i (tr ++ [(j, ev)]) = thread_trace i tr ++ (if decide (j = i) then [ev] else []).
Proof.
  unfold thread_trace. rewrite filter_app, fmap_app. f_equal.
  rewrite filter_cons. simpl. destruct (decide (j = i)); done.
Qed.

Lemma spawn_inv {E} cfg (m0 : Machine E) : pool_inv cfg m0 (UpdateAll_spawn cfg m0).
Proof.
  split; simpl; try done.
  - by rewrite length_fmap.
  - intros i unit g Hu. rewrite list_lookup_fmap, Hu. intros [= <-]. simpl. done.
  - symmetry. apply count_zero, Forall_fmap, Forall_forall. by intros [??] _.
  - lia.
  - unfold count. induction (updater.units (config.Records cfg)) as [|u us IH]; simpl; [done|].
    by rewrite IH.
Qed.

Lemma step_inv {E} cfg (m0 : Machine E) (p p' : Pool E) i :
  pool_inv cfg m0 p → step i p = Some p' → pool_inv cfg m0 p'.
Proof.
  intros [Hlen Hthr Hchan Hcap Hroom Hwg Hst]. unfold step.
  destruct (p_exited p); [done|].
  destruct (p_threads p !! i) as [g|] eqn:Hg; [|done].
  assert (∀ g', ∀ tr',
    (∀ u, updater.units (config.Records cfg) !! i = Some u →
       thread_ok u (thread_trace i (p_trace p)) g → thread_ok u (thread_trace i tr') g') →
    (∀ j, j ≠ i → thread_trace j tr' = thread_trace j (p_trace p)) →
    ∀ j unit g0,
      updater.units (config.Records cfg) !! j = Some unit →
      <[i:=g']> (p_threads p) !! j = Some g0 →
      thread_ok unit (thread_trace j tr') g0) as Hupd.
  { intros g' tr' Hi Hother j unit g0 Hu Hj. destruct (decide (j = i)) as [->|Hne].
    - rewrite list_lookup_insert_eq in Hj by (by eapply lookup_lt_Some).
      injection Hj as <-. eauto.
    - rewrite list_lookup_insert_ne in Hj by done. rewrite Hother by done. eauto. }
  pose proof (count_insert has_sent _ _ _ (updater.GoDone (Returned None)) Hg) as Hs1.
  pose proof (count_insert is_live _ _ _ (updater.GoDone (Returned None)) Hg) as Hl1.
  pose proof (count_insert has_sent _ _ _ (updater.GoDone Panicked) Hg) as Hs2.
  pose proof (count_insert is_live _ _ _ (updater.GoDone Panicked) Hg) as Hl2.
  destruct g as [rec recType [[[err|]|]|X act k]|err|[r|]]; [| | | | | done |].
  - (* the send *)
    case_bool_decide as Hfree; [|done]. intros [= <-].
    pose proof (count_insert has_sent _ _ _ (updater.GoSent err) Hg) as Hs.
    pose proof (count_insert is_live _ _ _ (updater.GoSent err) Hg) as Hl.
    split; simpl in *; rewrite ?length_insert, ?length_app; simpl; try done; try lia.
    apply Hupd; [|done]. by intros u Hu (-> & -> & ?).
  - (* wg.Done() after a nil *)
    intros [= <-].
    split; simpl in *; rewrite ?length_insert; try done; try lia.
    apply Hupd; [|done]. by intros u Hu (-> & -> & ?).
  - (* wg.Done() after a panic *)
    intros [= <-].
    split; simpl in *; rewrite ?length_insert; try done; try lia.
    apply Hupd; [|done]. by intros u Hu (-> & -> & ?).
  - (* an action *)
    pose proof (handle_state act (p_machine p)) as Hh.
    destruct (handle act (p_machine p)) as [x m]. intros [= <-].
    pose proof (count_insert has_sent _ _ _ (updater.GoRun rec recType (k x)) Hg) as Hs.
    pose proof (count_insert is_live _ _ _ (updater.GoRun rec recType (k x)) Hg) as Hl.
    split; simpl in *; rewrite ?length_insert; try done; try lia.
    + apply Hupd.
      * intros u Hu (-> & -> & Hres). rewrite thread_trace_snoc, decide_True by done.
        split; [done|]. split; [done|]. by apply residual_snoc.
      * intros j Hne. rewrite thread_trace_snoc, decide_False by done. apply app_nil_r.
    + rewrite fmap_app, replay_app. simpl. by rewrite <- Hst.
  - (* wg.Done() after the send *)
    intros [= <-].
    pose proof (count_insert has_sent _ _ _ (updater.GoDone (Returned (Some err))) Hg) as Hs.
    pose proof (count_insert is_live _ _ _ (updater.GoDone (Returned (Some err))) Hg) as Hl.
    split; simpl in *; rewrite ?length_insert; try done; try lia.
    apply Hupd; done.
  - (* the program terminates *)
    intros [= <-]. by split.
Qed.

Lemma reachable_inv {E} cfg (m0 : Machine E) (p : Pool E) :
  reachable (UpdateAll_spawn cfg m0) p → pool_inv cfg m0 p.
Proof.
  induction 1 as [|p i p' _ IH Hstep]; [apply spawn_inv|by eapply step_inv].
Qed.

Lemma exec_reachable {E} (p0 : Pool E) sched : reachable p0 (exec sched p0).
Proof.
  assert (∀ p, reachable p0 p → reachable p0 (exec sched p)) as H.
  { induction sched as [|i sched IH]; intros p Hp; simpl; [done|].
    apply IH. destruct (step i p) as [p'|] eqn:Hstep; simpl; [|done].
    by eapply reach_step. }
  apply H. constructor.
Qed.

(** ** UpdateAll: what it returns when it returns *)

Lemma all_done threads :
  count is_live threads = 0%nat →
  ∃ outcomes, threads = updater.GoDone <$> outcomes
              ∧ count has_sent threads = count is_failure outcomes.
Proof.
  unfold count. induction threads as [|g threads IH]; simpl.
  - by exists [].
  - destruct g as [| |o]; simpl; try lia. intros (outcomes & -> & Hc)%IH.
    exists (o :: outcomes). split; [done|]. simpl. rewrite Hc. by destruct o as [[?|]|].
Qed.

(** Whenever [UpdateAll] returns, under any interleaving of its goroutines
    and any answers of the outside world: every unit of work has run
    [updateRecord] to its end, a return or a panic; the value returned is
    nil when none of them returned an error and otherwise the error that
    counts those that did; and the Reconciliation State is the initial one
    with every [Set] of the pass applied, none undone. *)
Lemma UpdateAll_aggregate {E} cfg (m0 : Machine E) (p : Pool E) r :
  reachable (UpdateAll_spawn cfg m0) p →
  UpdateAll_collect p = Some r →
  ∃ outcomes : list (outcome (option error)),
    p_threads p = updater.GoDone <$> outcomes
    ∧ length outcomes = length (updater.units (config.Records cfg))
    ∧ (∀ i unit o,
         updater.units (config.Records cfg) !! i = Some unit →
         outcomes !! i = Some o →
         unit_path unit.1 unit.2 (thread_trace i (p_trace p)) o)
    ∧ r = (if bool_decide (count is_failure outcomes = 0%nat) then None
           else Some (ErrEncountered (count is_failure outcomes)))
    ∧ (count is_failure outcomes ≤ p_cap p)%nat
    ∧ m_state (p_machine p) = replay (m_state m0) (p_trace p).*2.
Proof.
  intros [Hlen Hthr Hchan Hcap Hroom Hwg Hst]%reachable_inv. unfold UpdateAll_collect.
  destruct (p_exited p); [done|].
  case_bool_decide as Hzero; [|done]. intros [= <-].
  rewrite Hwg in Hzero. apply all_done in Hzero as (outcomes & Hout & Hcount).
  exists outcomes. rewrite Hout in Hlen, Hthr. rewrite length_fmap in Hlen.
  split; [done|]. split; [done|]. split.
  { intros i unit o Hu Ho. apply updateRecord_returns.
    apply (Hthr i unit (updater.GoDone o) Hu). by rewrite list_lookup_fmap, Ho. }
  rewrite Hchan, Hcount in Hroom |- *. split; [|done].
  repeat case_bool_decide; try done; lia.
Qed.

(** ** C3: the aggregate outcome, and the pass that never returns *)

Lemma thread_trace_elem i ev tr : ev ∈ thread_trace i tr → (i, ev) ∈ tr.
Proof.
  unfold thread_trace. intros ([j ev'] & -> & [Hj Hin]%list_elem_of_filter)%list_elem_of_fmap.
  simpl in Hj. by subst.
Qed.

Lemma resolves_answer recordType tr ip :
  resolves recordType tr (Ok ip) → ∃ url isIPv6, EvFetchIP url isIPv6 (Ok ip) ∈ tr.
Proof.
  intros [[_ H]|[_ H]]; apply GetIP_loop_returns in H as (_ & _ & tr0 & url & ->);
    eexists url, _; apply elem_of_app; right; apply elem_of_cons; by left.
Qed.

(** Without any lookup service answering, a unit of work fails, at the
    check of its type or at the resolution. *)
Lemma unit_path_no_answer record recordType tr o :
  unit_path record recordType tr o →
  (∀ url isIPv6 ip, EvFetchIP url isIPv6 (Ok ip) ∉ tr) →
  is_failure o = true.
Proof.
  intros [HA HAAAA|tr0 err Hd|tr0 currentIP Hd Hne
          |tr0 currentIP lastKnownIP tru err Hd Hchg Hu
          |tr0 currentIP lastKnownIP tru Hd Hchg Hu
          |tr0 currentIP lastKnownIP tru Hd Hchg Hu] Hno; try done;
    apply resolves_answer in Hd as (url & v6 & Hin);
    destruct (Hno url v6 currentIP); apply elem_of_app; by left.
Qed.

Lemma offline_inv cfg s (p : Pool sim.env) :
  reachable (UpdateAll_spawn cfg (sim.machine sim.offline s)) p →
  m_world (p_machine p) = sim.offline ∧ Forall no_answer (p_trace p).
Proof.
  induction 1 as [|p i p' _ [IHw IHt] Hstep]; [by split|].
  unfold step in Hstep. destruct (p_exited p); [done|].
  destruct (p_threads p !! i) as [g|]; [|done].
  destruct g as [rec recType [[[err|]|]|X act k]|err|[r|]]; try done.
  - case_bool_decide; [|done]. by injection Hstep as <-.
  - by injection Hstep as <-.
  - by injection Hstep as <-.
  - destruct (handle act (p_machine p)) as [x m] eqn:Hh. injection Hstep as <-. simpl.
    rewrite Forall_app, Forall_singleton. unfold no_answer. simpl.
    destruct act; simpl in Hh; rewrite ?IHw in Hh.
    + destruct isIPv6; injection Hh as <- <-; done.
    + by injection Hh as <- <-.
    + by injection Hh as <- <-.
    + by injection Hh as <- <-.
    + by injection Hh as <- <-.
    + by injection Hh as <- <-.
    + by injection Hh as <- <-.
  - by injection Hstep as <-.
  - by injection Hstep as <-.
Qed.

(** C3. The configuration [sim.triple_cfg], one record
    with types [A, A, A], is accepted by [Validate]; [UpdateAll] makes three
    units of work of it and a channel for two errors.  With the lookup
    services out of reach every unit fails, and [UpdateAll] never returns,
    under any schedule: two goroutines send their error and finish, the
    third blocks on the full channel, and [wg.Wait()] waits for it. *)
Theorem UpdateAll_three_failures_never_returns :
  let p0 := UpdateAll_spawn sim.triple_cfg (sim.machine sim.offline updater.NewState) in
  config.Validate sim.ParseDuration sim.triple_cfg = None
  ∧ length (p_threads p0) = 3%nat ∧ p_cap p0 = 2%nat
  ∧ (∀ p, reachable p0 p → UpdateAll_collect p = None)
  ∧ (∀ sched, (UpdateAll sched sim.triple_cfg
                 (sim.machine sim.offline updater.NewState)).1 = None)
  ∧ ∃ sched e,
      let p := exec sched p0 in
      stuck p
      ∧ p_threads p = [updater.GoDone (Returned (Some e));
                       updater.GoDone (Returned (Some e));
                       updater.GoRun sim.triple "A" (Ret (Returned (Some e)))]
      ∧ length (p_errChan p) = 2%nat ∧ p_wg p = 1%nat.
Proof.
  intros p0.
  assert (∀ p, reachable p0 p → UpdateAll_collect p = None) as Hnever.
  { intros p Hreach. destruct (UpdateAll_collect p) as [r|] eqn:Hc; [exfalso|done].
    destruct (UpdateAll_aggregate _ _ _ _ Hreach Hc)
      as (outcomes & _ & Hlen & Hpaths & _ & Hroom & _).
    rewrite (inv_cap _ _ _ (reachable_inv _ _ _ Hreach)) in Hroom.
    apply offline_inv in Hreach as [_ Hno].
    assert (∀ i o, (i < 3)%nat → outcomes !! i = Some o → is_failure o = true) as Hfail.
    { intros i o Hi Ho.
      apply (unit_path_no_answer sim.triple "A" (thread_trace i (p_trace p))).
      - apply (Hpaths i (sim.triple, "A")); [|done].
        by destruct i as [|[|[|i]]]; [| | |lia].
      - intros url v6 ip Hin%thread_trace_elem.
        rewrite Forall_forall in Hno. apply (Hno _ Hin). }
    destruct outcomes as [|o0 [|o1 [|o2 [|o3 outcomes]]]]; try done.
    unfold count in Hroom. simpl in Hroom.
    rewrite (Hfail 0%nat o0), (Hfail 1%nat o1), (Hfail 2%nat o2) in Hroom
      by (done || lia).
    lia. }
  split; [done|]. split; [done|]. split; [done|]. split; [done|]. split.
  { intros sched. unfold UpdateAll. simpl. apply Hnever, exec_reachable. }
  exists [0; 0; 0; 0; 0; 0; 1; 1; 1; 1; 1; 1; 2; 2; 2; 2; 2]%nat,
    (ErrFailedDetectIP ErrDetectIPv4).
  split; [|by vm_compute].
  intros [|[|[|i]]]; by vm_compute.
Qed.

(** ** C8: a type outside the enumeration *)

Lemma unit_path_invalid record recordType tr o :
  recordType ≠ "A" → recordType ≠ "AAAA" →
  unit_path record recordType tr o →
  tr = [] ∧ o = Returned (Some (ErrInvalidRecordType recordType)).
Proof.
  intros HA HAAAA Hpath.
  assert (∀ tr0 d, ¬ resolves recordType tr0 d) as Hno by (by intros tr0 d [[? _]|[? _]]).
  destruct Hpath as [_ _|tr0 err Hd|tr0 currentIP Hd Hne
                     |tr0 currentIP lastKnownIP tru err Hd Hchg Hu
                     |tr0 currentIP lastKnownIP tru Hd Hchg Hu
                     |tr0 currentIP lastKnownIP tru Hd Hchg Hu];
    [done|by destruct (Hno _ _ Hd)..].
Qed.

(** The goroutine of a unit of work with a type outside the enumeration
    does nothing to the world or the state, at any moment of a pass. *)
Lemma invalid_type_silent {E} cfg (m0 : Machine E) (p : Pool E) i unit :
  unit.2 ≠ "A" → unit.2 ≠ "AAAA" →
  reachable (UpdateAll_spawn cfg m0) p →
  updater.units (config.Records cfg) !! i = Some unit →
  thread_trace i (p_trace p) = [].
Proof.
  intros HA HAAAA [Hlen Hthr _ _ _ _ _]%reachable_inv Hu.
  assert (is_Some (p_threads p !! i)) as [g Hg].
  { apply lookup_lt_is_Some_2. rewrite Hlen. by eapply lookup_lt_Some. }
  specialize (Hthr i unit g Hu Hg).
  assert (updater.updateRecord unit.1 unit.2
          = Ret (Returned (Some (ErrInvalidRecordType unit.2)))) as Heq.
  { unfold updater.updateRecord. by rewrite !bool_decide_eq_false_2. }
  destruct g as [rec recType q|err|o]; simpl in Hthr; rewrite Heq in Hthr.
  - destruct Hthr as (_ & _ & Hres). by apply residual_Ret in Hres as [? _].
  - by apply residual_Ret in Hthr as [? _].
  - by apply residual_Ret in Hthr as [? _].
Qed.

(** C8. For a type that is neither "A" nor "AAAA", [updateRecord] is the
    program that returns the invalid-type error at once: it performs no
    action at all, so no resolver call, no provider call, no change of the
    machine, and no panic; in a pass, the goroutine of such a unit does
    nothing to what the other goroutines see.  But its error has to go
    through the channel of errors, which has room for two errors per
    record, and so the other units of the pass are not processed as they
    are without it.  [sim_io.mixed_cfg] has one record with the types MX, A
    and AAAA: with the lookup services out of reach [UpdateAll] never
    returns, under any schedule, two goroutines having sent their error and
    the third being blocked on the full channel, where for the same record
    with the types A and AAAA alone it returns the error that counts two
    failures.  [sim_io.mx_cfg] has one record with the type MX three times,
    and [UpdateAll] never returns in any outside world. *)
Theorem invalid_types_block_the_pass :
  (∀ record recordType,
     recordType ≠ "A" → recordType ≠ "AAAA" →
     updater.updateRecord record recordType
     = Ret (Returned (Some (ErrInvalidRecordType recordType)))
     ∧ (∀ E (m : Machine E),
          run (updater.updateRecord record recordType) m
          = (Returned (Some (ErrInvalidRecordType recordType)), m, []))
     ∧ (∀ E cfg (m0 : Machine E) (p : Pool E) i,
          reachable (UpdateAll_spawn cfg m0) p →
          updater.units (config.Records cfg) !! i = Some (record, recordType) →
          thread_trace i (p_trace p) = []))
  ∧ config.Validate sim.ParseDuration sim_io.mx_cfg = Some (config.ErrInvalidType 0 "MX")
  ∧ config.Validate sim.ParseDuration sim_io.mixed_cfg
    = Some (config.ErrInvalidType 0 "MX")
  ∧ (let m := sim.machine sim.offline updater.NewState in
     let p0 := UpdateAll_spawn sim_io.mixed_cfg m in
     updater.units (config.Records sim_io.mixed_cfg)
     = [(sim_io.mixed, "MX"); (sim_io.mixed, "A"); (sim_io.mixed, "AAAA")]
     ∧ p_cap p0 = 2%nat
     ∧ (∀ p, reachable p0 p → UpdateAll_collect p = None)
     ∧ (∀ sched, (UpdateAll sched sim_io.mixed_cfg m).1 = None)
     ∧ (∃ sched,
          let p := exec sched p0 in
          stuck p
          ∧ p_threads p
            = [updater.GoDone (Returned (Some (ErrInvalidRecordType "MX")));
               updater.GoDone (Returned (Some (ErrFailedDetectIP ErrDetectIPv4)));
               updater.GoRun sim_io.mixed "AAAA"
                 (Ret (Returned (Some (ErrFailedDetectIP ErrDetectIPv6))))]
          ∧ length (p_errChan p) = 2%nat ∧ p_wg p = 1%nat)
     ∧ updater.units (config.Records sim.home_cfg) = [(sim.home, "A"); (sim.home, "AAAA")]
     ∧ ∃ sched, (UpdateAll sched sim.home_cfg m).1 = Some (Some (ErrEncountered 2)))
  ∧ ∀ E (m : Machine E),
      let p0 := UpdateAll_spawn sim_io.mx_cfg m in
      length (p_threads p0) = 3%nat ∧ p_cap p0 = 2%nat
      ∧ (∀ p, reachable p0 p → UpdateAll_collect p = None)
      ∧ (∀ sched, (UpdateAll sched sim_io.mx_cfg m).1 = None)
      ∧ ∃ sched,
          let p := exec sched p0 in
          stuck p
          ∧ p_threads p
            = [updater.GoDone (Returned (Some (ErrInvalidRecordType "MX")));
               updater.GoDone (Returned (Some (ErrInvalidRecordType "MX")));
               updater.GoRun sim_io.mx "MX"
                 (Ret (Returned (Some (ErrInvalidRecordType "MX"))))]
          ∧ length (p_errChan p) = 2%nat ∧ p_wg p = 1%nat
          ∧ p_machine p = m ∧ p_trace p = [].
Proof.
  split; [|split; [done|split; [done|split]]].
  - intros record recordType HA HAAAA.
    assert (updater.updateRecord record recordType
            = Ret (Returned (Some (ErrInvalidRecordType recordType)))) as Heq.
    { unfold updater.updateRecord. by rewrite !bool_decide_eq_false_2. }
    split; [done|]. split; [by intros; rewrite Heq|].
    intros E cfg m0 p i Hreach Hu.
    by apply (invalid_type_silent cfg m0 p i (record, recordType)).
  - intros m p0.
    assert (∀ p, reachable p0 p → UpdateAll_collect p = None) as Hnever.
    { intros p Hreach. destruct (UpdateAll_collect p) as [r|] eqn:Hc; [exfalso|done].
      destruct (UpdateAll_aggregate _ _ _ _ Hreach Hc)
        as (outcomes & _ & Hlen & Hpaths & _ & Hroom & _).
      rewrite (inv_cap _ _ _ (reachable_inv _ _ _ Hreach)) in Hroom.
      apply offline_inv in Hreach as [_ Hno].
      assert (∀ i o, (i < 3)%nat → outcomes !! i = Some o → is_failure o = true) as Hfail.
      { intros i o Hi Ho.
        assert (∃ unit, updater.units (config.Records sim_io.mixed_cfg) !! i = Some unit)
          as [unit Hu] by (destruct i as [|[|[|i]]]; [eauto..|lia]).
        apply (unit_path_no_answer unit.1 unit.2 (thread_trace i (p_trace p)));
          [by apply (Hpaths i unit)|].
        intros url v6 ip Hin%thread_trace_elem.
        rewrite Forall_forall in Hno. apply (Hno _ Hin). }
      destruct outcomes as [|o0 [|o1 [|o2 [|o3 outcomes]]]]; try done.
      unfold count in Hroom. simpl in Hroom.
      rewrite (Hfail 0%nat o0), (Hfail 1%nat o1), (Hfail 2%nat o2) in Hroom
        by (done || lia).
      lia. }
    split; [done|]. split; [done|]. split; [done|]. split.
    { intros sched. unfold UpdateAll. simpl. apply Hnever, exec_reachable. }
    split.
    { exists [0; 0; 1; 1; 1; 1; 1; 1; 2; 2; 2; 2]%nat. split; [|by vm_compute].
      intros [|[|[|i]]]; by vm_compute. }
    split; [done|].
    exists [0; 0; 0; 0; 0; 0; 1; 1; 1; 1; 1]%nat. by vm_compute.
  - intros E m p0.
    assert (∀ p, reachable p0 p → UpdateAll_collect p = None) as Hnever.
    { intros p Hreach. destruct (UpdateAll_collect p) as [r|] eqn:Hc; [exfalso|done].
      destruct (UpdateAll_aggregate _ _ _ _ Hreach Hc)
        as (outcomes & _ & Hlen & Hpaths & _ & Hroom & _).
      rewrite (inv_cap _ _ _ (reachable_inv _ _ _ Hreach)) in Hroom.
      assert (∀ i o, (i < 3)%nat → outcomes !! i = Some o → is_failure o = true) as Hfail.
      { intros i o Hi Ho.
        destruct (unit_path_invalid sim_io.mx "MX" (thread_trace i (p_trace p)) o)
          as [_ ->]; [done|done| |done].
        apply (Hpaths i (sim_io.mx, "MX")); [|done].
        by destruct i as [|[|[|i]]]; [| | |lia]. }
      destruct outcomes as [|o0 [|o1 [|o2 [|o3 outcomes]]]]; try done.
      unfold count in Hroom. simpl in Hroom.
      rewrite (Hfail 0%nat o0), (Hfail 1%nat o1), (Hfail 2%nat o2) in Hroom
        by (done || lia).
      lia. }
    split; [done|]. split; [done|]. split; [done|]. split.
    { intros sched. unfold UpdateAll. simpl. apply Hnever, exec_reachable. }
    exists [0; 0; 1; 1]%nat. split; [|done].
    intros [|[|[|i]]]; done.
Qed.

(** ** C9: the empty string is the absent marker *)

Lemma handle_equiv {E X} (act : action X) (m1 m2 : Machine E) :
  machine_equiv m1 m2 →
  (handle act m1).1 = (handle act m2).1 ∧ machine_equiv (handle act m1).2 (handle act m2).2.
Proof.
  intros (Hw & H4 & H6 & Hs). destruct act; simpl; rewrite ?Hw.
  - by destruct (env_fetchIP _ _ _ _).
  - split; [done|]. unfold machine_equiv. simpl. by rewrite H4, H6.
  - split; [|done]. apply Hs.
  - split; [done|]. unfold machine_equiv. simpl. repeat (split; [done|]).
    intros k. cbn [updater.State_Set updater.Records].
    destruct (decide (k = updater.stateKey zoneID name recordType)) as [->|Hk].
    + by rewrite !lookup_insert_eq.
    + rewrite !lookup_insert_ne by done. apply Hs.
  - by destruct (env_list _ _ _ _ _).
  - by destruct (env_update _ _ _ _ _ _ _).
  - by destruct (env_create _ _ _ _ _ _ _ _).
Qed.

(** No program tells apart two machines whose states differ only in keys
    that one has at the empty string and the other not at all. *)
Lemma run_equiv {E A} (p : prog A) (m1 m2 : Machine E) :
  machine_equiv m1 m2 →
  (run p m1).1.1 = (run p m2).1.1 ∧ (run p m1).2 = (run p m2).2
  ∧ machine_equiv (run p m1).1.2 (run p m2).1.2.
Proof.
  revert m1 m2. induction p as [a|X act k IH]; intros m1 m2 Hm; simpl; [done|].
  destruct (handle_equiv act m1 m2 Hm) as [Hx Hm'].
  destruct (handle act m1) as [x1 m1'], (handle act m2) as [x2 m2']. simpl in *. subst x2.
  destruct (IH x1 m1' m2' Hm') as (Ha & Hevs & Hm'').
  destruct (run (k x1) m1') as [[a1 n1] evs1], (run (k x1) m2') as [[a2 n2] evs2].
  simpl in *. by subst.
Qed.

Lemma State_Set_empty_equiv {E} (m : Machine E) z n t :
  updater.Records (m_state m) !! updater.stateKey z n t = None →
  machine_equiv m (set_state m (updater.State_Set (m_state m) z n t "")).
Proof.
  intros Habs. unfold machine_equiv. simpl. repeat (split; [done|]).
  intros k. cbn [updater.State_Set updater.Records].
  destruct (decide (k = updater.stateKey z n t)) as [->|Hk].
  - by rewrite lookup_insert_eq, Habs.
  - by rewrite lookup_insert_ne.
Qed.

(** C9. [State.Get] of a key never recorded is the empty string.  After
    [State.Set(key, "")] on a key that was absent, every unit of work runs
    exactly as it does on the state without that entry: same value
    returned, same actions with the same answers, and machines that no
    [Get] can tell apart.  For the unit of that key this means an upsert
    whenever the resolver succeeds, whatever the address: the read of the
    state is followed by the one call of [UpsertDNSRecord], which makes one
    write to the provider unless it panics at its find. *)
Theorem empty_address_is_absence {E} (m : Machine E) z n t :
  updater.Records (m_state m) !! updater.stateKey z n t = None →
  let m0 := set_state m (updater.State_Set (m_state m) z n t "") in
  updater.State_Get updater.NewState z n t = ""
  ∧ updater.State_Get (m_state m) z n t = ""
  ∧ updater.State_Get (m_state m0) z n t = ""
  ∧ (∀ record recordType,
       ∃ r m' m0' evs,
         run (updater.updateRecord record recordType) m = (r, m', evs)
         ∧ run (updater.updateRecord record recordType) m0 = (r, m0', evs)
         ∧ machine_equiv m' m0')
  ∧ (∀ record p A m1 evs1,
       config.ZoneID record = z → config.Name record = n →
       resolver t = Some p →
       run p m0 = (Ok A, m1, evs1) →
       ∃ out m2 tru,
         run (cloudflare.UpsertDNSRecord z n t A (config.TTL record) (config.Proxied record))
           m1 = (out, m2, tru)
         ∧ (run (updater.updateRecord record t) m0).2
           = evs1 ++ EvStateGet z n t "" :: tru
             ++ match out with Returned None => [EvStateSet z n t A] | _ => [] end
         ∧ (run (updater.updateRecord record t) m).2
           = (run (updater.updateRecord record t) m0).2
         ∧ (omap write_of (run (updater.updateRecord record t) m0).2
            = [(z, A, config.TTL record, config.Proxied record)]
            ∨ out = Panicked
              ∧ omap write_of (run (updater.updateRecord record t) m0).2 = [])).
Proof.
  intros Habs m0.
  pose proof (State_Set_empty_equiv m z n t Habs) as Hequiv.
  split; [done|]. split; [by apply State_Get_absent|].
  split; [apply State_Get_Set|]. split.
  - intros record recordType.
    destruct (run_equiv (updater.updateRecord record recordType) m m0 Hequiv)
      as (Hr & Hevs & Hm).
    destruct (run (updater.updateRecord record recordType) m) as [[r m'] evs].
    destruct (run (updater.updateRecord record recordType) m0) as [[r0 m0'] evs0].
    simpl in *. subst. by exists r0, m', m0', evs0.
  - intros record p A m1 evs1 <- <- Hres Hrun.
    destruct (run_updateRecord_upsert m0 m1 record t p A evs1 Hres Hrun)
      as (out & m2 & tru & m' & evs & Hup & Hupd & Hevs & Hw & _);
      [left; apply State_Get_Set|].
    assert (updater.State_Get (m_state m0) (config.ZoneID record) (config.Name record) t
            = "") as Hg0 by apply State_Get_Set.
    exists out, m2, tru. split; [done|]. rewrite Hupd. cbn [snd].
    split; [by rewrite Hevs, Hg0|]. split.
    + destruct (run_equiv (updater.updateRecord record t) m m0 Hequiv) as (_ & -> & _).
      by rewrite Hupd.
    + destruct Hw as [Hw|(-> & Hw & _)]; [by left|by right].
Qed.

(** ** C4: the bootstrap never fails *)

Lemma units_cons record records :
  updater.units (record :: records)
  = ((λ t, (record, t)) <$> config.Types record) ++ updater.units records.
Proof.
  unfold updater.units. cbn [mbind list_bind].
  by induction (config.Types record) as [|t ts IH]; [|cbn; rewrite <- IH].
Qed.

Lemma listings_length {E} us (w : World E) : length (listings us w).1 = length us.
Proof.
  revert w. induction us as [|u us IH]; intros w; simpl; [done|].
  destruct (env_list _ _ _ _ _) as [lr w1]. specialize (IH w1).
  destruct (listings us w1) as [lrs w2]. simpl in *. by rewrite IH.
Qed.

Lemma listings_app {E} us1 us2 (w : World E) :
  listings (us1 ++ us2) w
  = let '(lrs1, w1) := listings us1 w in
    let '(lrs2, w2) := listings us2 w1 in
    (lrs1 ++ lrs2, w2).
Proof.
  revert w. induction us1 as [|u us1 IH]; intros w; simpl.
  - by destruct (listings us2 w).
  - destruct (env_list _ _ _ _ _) as [lr w1]. rewrite IH.
    destruct (listings us1 w1) as [lrs1 w2]. by destruct (listings us2 w2).
Qed.

Lemma run_GetDNSRecord {E} z n t (m : Machine E) :
  run (cloudflare.GetDNSRecord z n t) m
  = let '(lr, w) := env_list E z n t (m_world m) in
    (match lr with
     | Err err => Returned (Err (ErrListDNS err))
     | Ok [] => Returned (Err (ErrRecordNotFound n t))
     | Ok (record :: _) =>
         match cloudflare.info_of z record with
         | Panicked => Panicked
         | Returned info => Returned (Ok info)
         end
     end, set_world m w, [EvList z n t lr]).
Proof.
  unfold cloudflare.GetDNSRecord, call.
  call_bind. cbn [run handle event_of].
  destruct (env_list _ _ _ _ _) as [[[|record others]|err] w]; try done.
  by destruct (cloudflare.info_of z record).
Qed.

(** One turn of the loop of [InitializeState]. *)
Lemma run_init_units_cons {E} unit rest (m : Machine E) :
  let z := config.ZoneID unit.1 in
  let n := config.Name unit.1 in
  run (init_units (unit :: rest)) m
  = let '(lr, w1) := env_list E z n unit.2 (m_world m) in
    match lr with
    | Ok (record :: _) =>
        match cf_Proxied record with
        | None => (Panicked, set_world m w1, [EvList z n unit.2 lr])
        | Some _ =>
            let '(o, m2, evs) :=
              run (init_units rest)
                (set_state (set_world m w1)
                   (updater.State_Set (m_state m) z n unit.2 (cf_Content record))) in
            (o, m2, EvList z n unit.2 lr :: EvStateSet z n unit.2 (cf_Content record) :: evs)
        end
    | _ =>
        let '(o, m2, evs) := run (init_units rest) (set_world m w1) in
        (o, m2, EvList z n unit.2 lr :: evs)
    end.
Proof.
  cbv zeta. cbn [init_units]. rewrite run_try_bind, run_GetDNSRecord.
  destruct (env_list _ _ _ _ _) as [[[|record others]|err] w1]; try done.
  unfold cloudflare.info_of. destruct (cf_Proxied record) as [proxied|]; [|done].
  rewrite run_bind. cbn [call run handle event_of cloudflare.Content m_state set_world].
  by destruct (run (init_units rest) _) as [[o m2] evs].
Qed.

Lemma InitializeState_types_flat record types :
  updater.InitializeState_types record types = init_units ((λ t, (record, t)) <$> types).
Proof.
  induction types as [|t types IH]; [done|].
  cbn [updater.InitializeState_types fmap list_fmap init_units fst snd]. by rewrite IH.
Qed.

Lemma run_init_units_app {E} us1 us2 (m : Machine E) :
  run (init_units (us1 ++ us2)) m
  = run (_ ←! init_units us1; init_units us2) m.
Proof.
  rewrite run_try_bind. revert m. induction us1 as [|unit us1 IH]; intros m.
  - cbn. by destruct (run (init_units us2) m) as [[o m2] evs].
  - rewrite <- app_comm_cons, !run_init_units_cons. cbv zeta.
    destruct (env_list _ _ _ _ _) as [[[|record others]|err] w1].
    + rewrite IH. destruct (run (init_units us1) _) as [[[[]|] m1] evs1]; [|done].
      by destruct (run (init_units us2) m1) as [[o m2] evs2].
    + destruct (cf_Proxied record); [|done].
      rewrite IH. destruct (run (init_units us1) _) as [[[[]|] m1] evs1]; [|done].
      by destruct (run (init_units us2) m1) as [[o m2] evs2].
    + rewrite IH. destruct (run (init_units us1) _) as [[[[]|] m1] evs1]; [|done].
      by destruct (run (init_units us2) m1) as [[o m2] evs2].
Qed.

(** The two loops run as the one loop over the units of work. *)
Lemma run_InitializeState_records {E} records (m : Machine E) :
  run (updater.InitializeState_records records) m = run (init_units (updater.units records)) m.
Proof.
  revert m. induction records as [|record records IH]; intros m; [done|].
  cbn [updater.InitializeState_records].
  rewrite units_cons, run_init_units_app, !run_try_bind, InitializeState_types_flat.
  destruct (run (init_units _) m) as [[[[]|] m1] evs1]; [|done]. by rewrite IH.
Qed.

(** The loop when no listing lacks [Proxied]: every unit is listed, and the
    state is seeded answer by answer. *)
Lemma run_init_units_ok {E} us (m : Machine E) :
  Forall (λ lr, ¬ lacks_proxied lr) (listings us (m_world m)).1 →
  run (init_units us) m
  = (Returned tt,
     set_state (set_world m (listings us (m_world m)).2)
       (foldl seed (m_state m) (zip us (listings us (m_world m)).1)),
     init_trace us (listings us (m_world m)).1).
Proof.
  revert m. induction us as [|unit us IH]; intros m.
  - by destruct m.
  - rewrite run_init_units_cons. cbv zeta. cbn [listings].
    destruct (env_list _ _ _ _ _) as [lr w1]. specialize (IH (set_world m w1)) as IH1.
    cbn [m_world set_world m_state] in IH1.
    destruct (listings us w1) as [lrs w2] eqn:Hls. cbn [fst snd] in *.
    intros [Hlr Hlrs]%Forall_cons.
    destruct lr as [[|record others]|err].
    + by rewrite IH1.
    + simpl in Hlr. destruct (cf_Proxied record) as [proxied|]; [|done].
      rewrite (IH (set_state (set_world m w1) _)); cbn [m_world set_world set_state];
        rewrite Hls; [|done].
      done.
    + by rewrite IH1.
Qed.

(** The loop when a listing lacks [Proxied]: it panics at the first such
    listing, after the units before it, and with the state as they left
    it. *)
Lemma run_init_units_panics {E} us1 unit us2 lr w2 (m : Machine E) :
  let z := config.ZoneID unit.1 in
  let n := config.Name unit.1 in
  Forall (λ lr, ¬ lacks_proxied lr) (listings us1 (m_world m)).1 →
  env_list E z n unit.2 (listings us1 (m_world m)).2 = (lr, w2) →
  lacks_proxied lr →
  run (init_units (us1 ++ unit :: us2)) m
  = (Panicked,
     set_state (set_world m w2)
       (foldl seed (m_state m) (zip us1 (listings us1 (m_world m)).1)),
     init_trace us1 (listings us1 (m_world m)).1 ++ [EvList z n unit.2 lr]).
Proof.
  intros z n Hok Hlist Hlr.
  rewrite run_init_units_app, run_try_bind, run_init_units_ok by done.
  rewrite run_init_units_cons. cbv zeta. cbn [m_world set_world set_state].
  fold z n. rewrite Hlist.
  destruct lr as [[|record others]|err]; try done. simpl in Hlr. rewrite Hlr.
  by destruct m.
Qed.

Lemma listings_lookup {E} us (w : World E) i lr :
  (listings us w).1 !! i = Some lr →
  ∃ unit w2,
    us !! i = Some unit
    ∧ (listings (take i us) w).1 = take i (listings us w).1
    ∧ env_list E (config.ZoneID unit.1) (config.Name unit.1) unit.2
        (listings (take i us) w).2 = (lr, w2).
Proof.
  revert w i. induction us as [|unit us IH]; intros w i; cbn [listings].
  - by destruct i.
  - destruct (env_list _ _ _ _ _) as [lr1 w1] eqn:Hlist.
    destruct (listings us w1) as [lrs w3] eqn:Hls. destruct i as [|i]; cbn [fst lookup].
    + intros [= <-]. by exists unit, w1.
    + intros Hi. destruct (IH w1 i) as (unit' & w2 & Hu & Htake & Henv);
        [by rewrite Hls|].
      exists unit', w2. split; [done|]. cbn [take listings]. rewrite Hlist.
      rewrite Hls in Htake. cbn [fst] in Htake.
      destruct (listings (take i us) w1) as [lrs' w4]. cbn [fst snd] in *.
      by rewrite Htake.
Qed.

(** Whether a run of the loop panics is decided by the listings. *)
Lemma init_units_cases {E} us (m : Machine E) :
  let lrs := (listings us (m_world m)).1 in
  Forall (λ lr, ¬ lacks_proxied lr) lrs
  ∨ ∃ us1 unit us2 lr w2,
      us = us1 ++ unit :: us2
      ∧ Forall (λ lr, ¬ lacks_proxied lr) (listings us1 (m_world m)).1
      ∧ env_list E (config.ZoneID unit.1) (config.Name unit.1) unit.2
          (listings us1 (m_world m)).2 = (lr, w2)
      ∧ lacks_proxied lr.
Proof.
  intros lrs. destruct (list_find lacks_proxied lrs) as [[i lr]|] eqn:Hfind.
  - right. apply list_find_Some in Hfind as (Hi & Hlr & Hbefore).
    destruct (listings_lookup _ _ _ _ Hi) as (unit & w2 & Hu & Htake & Henv).
    exists (take i us), unit, (drop (S i) us), lr, w2.
    split; [by rewrite take_drop_middle|]. split; [|done].
    rewrite Htake. apply Forall_lookup. intros j lr' Hj.
    apply lookup_take_Some in Hj as [Hj Hlt]. by eapply Hbefore.
  - left. apply list_find_None in Hfind. done.
Qed.

Lemma run_InitializeState {E} cfg (m : Machine E) :
  run (updater.InitializeState cfg) m
  = let '(o, m', evs) := run (init_units (updater.units (config.Records cfg))) m in
    (match o with Returned _ => Returned None | Panicked => Panicked end, m', evs).
Proof.
  unfold updater.InitializeState. rewrite run_try_bind, run_InitializeState_records.
  destruct (run (init_units _) m) as [[[[]|] m'] evs]; [|done].
  cbn. by rewrite app_nil_r.
Qed.

(** [InitializeState] when no listing lacks [Proxied]. *)
Lemma run_InitializeState_ok {E} cfg (m : Machine E) :
  let us := updater.units (config.Records cfg) in
  Forall (λ lr, ¬ lacks_proxied lr) (listings us (m_world m)).1 →
  run (updater.InitializeState cfg) m
  = (Returned None,
     set_state (set_world m (listings us (m_world m)).2)
       (foldl seed (m_state m) (zip us (listings us (m_world m)).1)),
     init_trace us (listings us (m_world m)).1).
Proof. intros us Hok. by rewrite run_InitializeState, run_init_units_ok. Qed.

(** [InitializeState] when a listing lacks [Proxied]. *)
Lemma run_InitializeState_panics {E} cfg us1 unit us2 lr w2 (m : Machine E) :
  let z := config.ZoneID unit.1 in
  let n := config.Name unit.1 in
  updater.units (config.Records cfg) = us1 ++ unit :: us2 →
  Forall (λ lr, ¬ lacks_proxied lr) (listings us1 (m_world m)).1 →
  env_list E z n unit.2 (listings us1 (m_world m)).2 = (lr, w2) →
  lacks_proxied lr →
  run (updater.InitializeState cfg) m
  = (Panicked,
     set_state (set_world m w2)
       (foldl seed (m_state m) (zip us1 (listings us1 (m_world m)).1)),
     init_trace us1 (listings us1 (m_world m)).1 ++ [EvList z n unit.2 lr]).
Proof.
  intros z n Hus Hok Hlist Hlr.
  by rewrite run_InitializeState, Hus, (run_init_units_panics us1 unit us2 lr w2).
Qed.

Lemma foldl_seed_nothing s us lrs : Forall found_nothing lrs → foldl seed s (zip us lrs) = s.
Proof.
  intros H. revert us s. induction H as [|lr lrs Hlr _ IH]; intros [|u us] s; simpl; try done.
  rewrite IH. unfold seed. simpl. by destruct lr as [[|??]|?].
Qed.

(** The finds that fail for a key leave the entry of that key alone. *)
Lemma foldl_seed_frame s k answers :
  Forall (λ answer,
            updater.stateKey (config.ZoneID answer.1.1) (config.Name answer.1.1)
              answer.1.2 = k →
            found_nothing answer.2) answers →
  updater.Records (foldl seed s answers) !! k = updater.Records s !! k.
Proof.
  intros H. revert s. induction H as [|[[record t] lr] answers Ha _ IH]; intros s; [done|].
  simpl. rewrite IH. unfold seed. simpl in *.
  destruct lr as [[|found others]|err]; try done.
  apply State_Set_other. intros ->. by apply Ha.
Qed.

(** The entry of a key after the seeding: the content found by the last
    unit of that key that found a record, and the entry as it was when
    there is no such unit. *)
Lemma foldl_seed_lookup s k answers :
  updater.Records (foldl seed s answers) !! k
  = match last (omap (found_for k) answers) with
    | Some content => Some content
    | None => updater.Records s !! k
    end.
Proof.
  induction answers as [|[[record t] lr] answers IH] using rev_ind; [done|].
  rewrite foldl_app, omap_app. cbn [foldl omap list_omap]. unfold seed at 1, found_for at 2.
  cbn [fst snd]. destruct lr as [[|found others]|err].
  - by rewrite app_nil_r.
  - case_bool_decide as Hk.
    + rewrite last_snoc, <- Hk. unfold updater.State_Set. cbn [updater.Records].
      by rewrite lookup_insert_eq.
    + rewrite app_nil_r, State_Set_other by done. apply IH.
  - by rewrite app_nil_r.
Qed.

Lemma foldl_seed_Get s z n t answers :
  updater.State_Get (foldl seed s answers) z n t
  = default (updater.State_Get s z n t)
      (last (omap (found_for (updater.stateKey z n t)) answers)).
Proof.
  unfold updater.State_Get. rewrite foldl_seed_lookup.
  by destruct (last _).
Qed.

(** The last unit that finds a record for a key decides the entry. *)
Lemma foldl_seed_last s (us : list (config.DNSRecord * string)) lrs i unit record others :
  us !! i = Some unit →
  lrs !! i = Some (Ok (record :: others)) →
  (∀ j unit' lr,
     (i < j)%nat → us !! j = Some unit' → lrs !! j = Some lr →
     updater.stateKey (config.ZoneID unit'.1) (config.Name unit'.1) unit'.2
     = updater.stateKey (config.ZoneID unit.1) (config.Name unit.1) unit.2 →
     found_nothing lr) →
  updater.State_Get (foldl seed s (zip us lrs)) (config.ZoneID unit.1) (config.Name unit.1)
    unit.2
  = cf_Content record.
Proof.
  intros Hu Hlr Hlater.
  assert (zip us lrs !! i = Some (unit, Ok (record :: others))) as Hzip.
  { by apply lookup_zip_Some. }
  rewrite <- (take_drop_middle _ _ _ Hzip), foldl_app. cbn [foldl].
  unfold updater.State_Get. rewrite foldl_seed_frame.
  - unfold seed. cbn [fst snd]. fold (updater.State_Get
      (updater.State_Set (foldl seed s (take i (zip us lrs))) (config.ZoneID unit.1)
         (config.Name unit.1) unit.2 (cf_Content record))
      (config.ZoneID unit.1) (config.Name unit.1) unit.2).
    apply State_Get_Set.
  - apply Forall_lookup. intros j [unit' lr] Hj Hkey. rewrite lookup_drop in Hj.
    apply lookup_zip_Some in Hj as [Hu' Hl'].
    apply (Hlater (S i + j)%nat unit' lr); [lia|done..].
Qed.

Lemma listings_empty {E} (P : World E → Prop) us w :
  (∀ z n t w, P w → ∃ w', env_list E z n t w = (Ok [], w') ∧ P w') →
  P w → Forall (λ lr, lr = Ok []) (listings us w).1.
Proof.
  intros HP. revert w. induction us as [|u us IH]; intros w Hw; simpl; [done|].
  destruct (HP (config.ZoneID u.1) (config.Name u.1) u.2 w Hw) as (w' & -> & Hw').
  specialize (IH w' Hw'). destruct (listings us w') as [lrs w2]. by constructor.
Qed.

Lemma found_nothing_sound lrs :
  Forall found_nothing lrs → Forall (λ lr, ¬ lacks_proxied lr) lrs.
Proof. intros H. eapply Forall_impl; [exact H|]. by intros [[|??]|?] Hn Hl. Qed.

Lemma listings_split_Exists {E} us1 unit us2 lr w2 (w : World E) :
  env_list E (config.ZoneID unit.1) (config.Name unit.1) unit.2 (listings us1 w).2
  = (lr, w2) →
  lacks_proxied lr →
  Exists lacks_proxied (listings (us1 ++ unit :: us2) w).1.
Proof.
  intros Hlist Hlr. rewrite listings_app. destruct (listings us1 w) as [lrs1 w1].
  cbn [listings snd] in *. rewrite Hlist. destruct (listings us2 w2) as [lrs2 w3].
  cbn [fst]. apply Exists_app. right. by left.
Qed.

(** [InitializeState] returns nil or panics, and the listings decide
    which. *)
Lemma InitializeState_outcome {E} cfg (m : Machine E) :
  let lrs := (listings (updater.units (config.Records cfg)) (m_world m)).1 in
  (run (updater.InitializeState cfg) m).1.1
  = if decide (Exists lacks_proxied lrs) then Panicked else Returned None.
Proof.
  intros lrs.
  destruct (init_units_cases (updater.units (config.Records cfg)) m)
    as [Hok|(us1 & unit & us2 & lr & w2 & Hus & Hok & Hlist & Hlr)].
  - rewrite run_InitializeState_ok by done. rewrite decide_False; [done|].
    by apply Forall_not_Exists.
  - rewrite (run_InitializeState_panics cfg us1 unit us2 lr w2) by done.
    rewrite decide_True; [done|]. unfold lrs. rewrite Hus.
    by eapply listings_split_Exists.
Qed.

(** C4. [InitializeState] does not always return: it panics when the first
    record of a listing comes without [Proxied], at the dereference
    [*record.Proxied] of [GetDNSRecord].  So it does against the provider
    [sim_io.bare], whose one record has no [Proxied]: the call of
    [InitializeState] for [sim.home_cfg] panics at its first listing.

    In general the call panics exactly when some listing that the provider
    gives to the units of work, asked in order, has a first record without
    [Proxied], and it never returns an error.  When it panics it has
    listed for the units before the first such listing and for that one,
    and seeded the state from the earlier ones.  When no listing is of
    that kind it returns nil, having listed once for each (record, type)
    pair, in order, whatever the earlier answers were; the entry of a key
    is then the content of the first record found by the last unit of that
    key whose listing names a record, and the entry it was when there is
    no such unit, so that [State.Get] returns that content, resp. what it
    returned before.  When no listing names a record the call returns nil
    and the state is unchanged; this is so against a provider that has no
    matching record for any key. *)
Theorem InitializeState_panics_without_proxied :
  run (updater.InitializeState sim.home_cfg) (sim.machine sim_io.bare updater.NewState)
  = (Panicked, sim.machine sim_io.bare updater.NewState,
     [EvList "Z1" "home.example.com" "A" (Ok [sim_io.bare_record])])
  ∧ cf_Proxied sim_io.bare_record = None
  ∧ (∀ E cfg (m : Machine E),
       let us := updater.units (config.Records cfg) in
       let lrs := (listings us (m_world m)).1 in
       ((run (updater.InitializeState cfg) m).1.1 = Panicked ↔ Exists lacks_proxied lrs)
       ∧ ((run (updater.InitializeState cfg) m).1.1 = Returned None
          ↔ Forall (λ lr, ¬ lacks_proxied lr) lrs)
       ∧ (∀ us1 unit us2 lr w2,
            us = us1 ++ unit :: us2 →
            Forall (λ lr, ¬ lacks_proxied lr) (listings us1 (m_world m)).1 →
            env_list E (config.ZoneID unit.1) (config.Name unit.1) unit.2
              (listings us1 (m_world m)).2 = (lr, w2) →
            lacks_proxied lr →
            run (updater.InitializeState cfg) m
            = (Panicked,
               set_state (set_world m w2)
                 (foldl seed (m_state m) (zip us1 (listings us1 (m_world m)).1)),
               init_trace us1 (listings us1 (m_world m)).1
               ++ [EvList (config.ZoneID unit.1) (config.Name unit.1) unit.2 lr]))
       ∧ (Forall (λ lr, ¬ lacks_proxied lr) lrs →
          ∃ m',
            run (updater.InitializeState cfg) m = (Returned None, m', init_trace us lrs)
            ∧ length lrs = length us
            ∧ m_world m' = (listings us (m_world m)).2
            ∧ (∀ k,
                 updater.Records (m_state m') !! k
                 = match last (omap (found_for k) (zip us lrs)) with
                   | Some content => Some content
                   | None => updater.Records (m_state m) !! k
                   end)
            ∧ (∀ z n t,
                 updater.State_Get (m_state m') z n t
                 = default (updater.State_Get (m_state m) z n t)
                     (last (omap (found_for (updater.stateKey z n t)) (zip us lrs))))
            ∧ (∀ i unit record others,
                 us !! i = Some unit →
                 lrs !! i = Some (Ok (record :: others)) →
                 (∀ j unit' lr,
                    (i < j)%nat → us !! j = Some unit' → lrs !! j = Some lr →
                    updater.stateKey (config.ZoneID unit'.1) (config.Name unit'.1) unit'.2
                    = updater.stateKey (config.ZoneID unit.1) (config.Name unit.1) unit.2 →
                    found_nothing lr) →
                 updater.State_Get (m_state m') (config.ZoneID unit.1) (config.Name unit.1)
                   unit.2 = cf_Content record)
            ∧ (∀ k,
                 Forall (λ answer,
                           updater.stateKey (config.ZoneID answer.1.1)
                             (config.Name answer.1.1) answer.1.2 = k →
                           found_nothing answer.2) (zip us lrs) →
                 updater.Records (m_state m') !! k = updater.Records (m_state m) !! k))
       ∧ (Forall found_nothing lrs →
          run (updater.InitializeState cfg) m
          = (Returned None, set_world m (listings us (m_world m)).2, init_trace us lrs))
       ∧ (∀ P : World E → Prop,
            (∀ z n t w, P w → ∃ w', env_list E z n t w = (Ok [], w') ∧ P w') →
            P (m_world m) →
            ∃ m', run (updater.InitializeState cfg) m = (Returned None, m', init_trace us lrs)
                  ∧ m_state m' = m_state m)).
Proof.
  split; [by vm_compute|]. split; [done|]. intros E cfg m us lrs.
  pose proof (InitializeState_outcome cfg m) as Hout. cbv zeta in Hout. fold us lrs in Hout.
  split; [|split; [|split; [|split; [|split; [|]]]]].
  - rewrite Hout. destruct (decide (Exists lacks_proxied lrs)) as [Hex|Hnex]; [done|].
    split; [done|by intros ?].
  - rewrite Hout. destruct (decide (Exists lacks_proxied lrs)) as [Hex|Hnex].
    + split; [done|]. intros Hok. by apply Forall_not_Exists in Hok.
    + split; [|done]. intros _. by apply (not_Exists_Forall _).
  - intros us1 unit us2 lr w2 Hus Hok Hlist Hlr.
    by apply (run_InitializeState_panics cfg us1 unit us2 lr w2).
  - intros Hok. rewrite run_InitializeState_ok by done. eexists. split; [done|].
    cbn [m_world m_state set_state set_world].
    split; [apply listings_length|]. split; [done|].
    split; [intros k; apply foldl_seed_lookup|].
    split; [intros z n t; apply foldl_seed_Get|]. split.
    + intros i unit record others Hu Hlr Hlater. by eapply foldl_seed_last.
    + intros k Hk. by apply foldl_seed_frame.
  - intros Hnone. rewrite run_InitializeState_ok by by apply found_nothing_sound.
    fold us lrs. rewrite foldl_seed_nothing by done. by destruct m.
  - intros P HP Hw.
    assert (Forall found_nothing lrs) as Hnone.
    { eapply Forall_impl; [by eapply listings_empty|]. by intros lr ->. }
    rewrite run_InitializeState_ok by by apply found_nothing_sound.
    eexists. split; [done|]. cbn [m_state set_state]. by apply foldl_seed_nothing.
Qed.

(** ** C6: what the find tells its callers *)


(** ** C7: units of work and keys *)

(** C7, as stated, fails: [Validate] accepts a configuration that names the
    same zone, name and type in two records, and the expansion then has two
    units of work for the one key. *)
Lemma units_share_a_key :
  config.Validate sim.ParseDuration sim.twin_cfg = None
  ∧ unit_key <$> updater.units (config.Records sim.twin_cfg)
    = [("Z1", "home.example.com", "A"); ("Z1", "home.example.com", "A")]
  ∧ ¬ NoDup (unit_key <$> updater.units (config.Records sim.twin_cfg)).
Proof.
  split; [done|]. split; [done|].
  intros [Hnotin _]%NoDup_cons. apply Hnotin. by left.
Qed.

Lemma elem_of_units unit records :
  unit ∈ updater.units records ↔ unit.1 ∈ records ∧ unit.2 ∈ config.Types unit.1.
Proof.
  induction records as [|record records IH].
  - split; [by intros ?%elem_of_nil|by intros [?%elem_of_nil _]].
  - rewrite units_cons, elem_of_app, IH, elem_of_cons, list_elem_of_fmap. split.
    + intros [(t & -> & Ht)|[? ?]]; simpl; auto.
    + intros [[Heq|Hin] Ht]; [left|right; done].
      exists unit.2. destruct unit as [r t]. simpl in *. by subst.
Qed.

Lemma Validate_types_valid i types :
  config.Validate_types i types = None → Forall (λ t, t = "A" ∨ t = "AAAA") types.
Proof.
  induction types as [|t types IH]; simpl; [done|].
  destruct (decide (t = "A")) as [->|HA]; [by constructor; auto|].
  destruct (decide (t = "AAAA")) as [->|HAAAA]; [by constructor; auto|].
  by rewrite !bool_decide_eq_true_2.
Qed.

Lemma Validate_records_valid i records :
  config.Validate_records i records = None →
  Forall (λ r, config.Types r ≠ [] ∧ Forall (λ t, t = "A" ∨ t = "AAAA") (config.Types r))
    records.
Proof.
  revert i. induction records as [|record records IH]; intros i; simpl; [done|].
  destruct (config.Validate_record i record) as [e|] eqn:Hrec; [done|].
  intros Hrest%IH. constructor; [|done]. unfold config.Validate_record in Hrec.
  destruct (config.Validate_types i (config.Types record)) eqn:Hty;
    repeat case_bool_decide; try done.
  split; [by destruct (config.Types record)|by eapply Validate_types_valid].
Qed.

Lemma no_triple_twice_cons record records :
  no_triple_twice (record :: records) ↔
  NoDup (config.Types record)
  ∧ (∀ r2 t, r2 ∈ records →
       config.ZoneID record = config.ZoneID r2 → config.Name record = config.Name r2 →
       t ∈ config.Types record → t ∈ config.Types r2 → False)
  ∧ no_triple_twice records.
Proof.
  unfold no_triple_twice. rewrite Forall_cons. split.
  - intros [[Hty Htys] Hpairs]. split; [done|]. split; [|split; [done|]].
    + intros r2 t [j Hj]%list_elem_of_lookup.
      apply (Hpairs 0%nat (S j) record r2 t); [lia|done..].
    + intros i j r1 r2 t Hij Hi Hj. apply (Hpairs (S i) (S j) r1 r2 t); [lia|done..].
  - intros (Hty & Hfirst & Htys & Hpairs). split; [done|].
    intros i j r1 r2 t Hij Hi Hj. destruct j as [|j]; [lia|]. destruct i as [|i].
    + injection Hi as <-. apply Hfirst. by eapply list_elem_of_lookup_2.
    + apply (Hpairs i j r1 r2 t); [lia|done..].
Qed.

Lemma units_keys_distinct records :
  NoDup (unit_key <$> updater.units records) ↔ no_triple_twice records.
Proof.
  induction records as [|record records IH].
  - split; [|constructor]. intros _. split; [done|]. by intros [|i] j ?????.
  - rewrite units_cons, fmap_app, NoDup_app, IH, no_triple_twice_cons, <- list_fmap_compose.
    assert (NoDup (unit_key ∘ (λ t, (record, t)) <$> config.Types record)
            ↔ NoDup (config.Types record)) as ->.
    { split; [apply NoDup_fmap_1|]. apply NoDup_fmap_2. by intros t1 t2 [= ->]. }
    apply and_iff_compat_l, and_iff_compat_r. split.
    + intros Hfresh r2 t Hr2 Hz Hn Ht Ht2. apply (Hfresh (unit_key (record, t))).
      * apply list_elem_of_fmap. by exists t.
      * apply list_elem_of_fmap. exists (r2, t). split.
        -- unfold unit_key. cbn [fst snd]. by rewrite Hz, Hn.
        -- by apply elem_of_units.
    + intros Hfirst key (t & -> & Ht)%list_elem_of_fmap
        ([r2 t2] & Heq & [Hin Ht2]%elem_of_units)%list_elem_of_fmap.
      unfold unit_key in Heq. cbn [fst snd compose] in *.
      injection Heq as Hz Hn ->. by apply (Hfirst r2 t2).
Qed.

(** C7, amended. The units of work of a configuration have pairwise
    distinct keys (zoneID, name, type), so that no two units of a pass
    upsert the same key, exactly when no triple is configured twice: no
    record names a type twice, and no two records with the same zone and
    name have a type in common.  [Validate] does not look at this.  In any
    configuration it accepts there is one unit per record and entry of its
    [Types], at least one in all, and each has type "A" or "AAAA". *)
Theorem units_distinct_keys ParseDuration cfg :
  config.Validate ParseDuration cfg = None →
  (NoDup (unit_key <$> updater.units (config.Records cfg))
   ↔ no_triple_twice (config.Records cfg))
  ∧ length (updater.units (config.Records cfg))
    = sum_list_with (λ r, length (config.Types r)) (config.Records cfg)
  ∧ updater.units (config.Records cfg) ≠ []
  ∧ Forall (λ unit, unit.2 = "A" ∨ unit.2 = "AAAA") (updater.units (config.Records cfg)).
Proof.
  intros Hval.
  assert (Forall (λ r, config.Types r ≠ []
                       ∧ Forall (λ t, t = "A" ∨ t = "AAAA") (config.Types r))
            (config.Records cfg) ∧ config.Records cfg ≠ []) as [Hvalid Hne].
  { unfold config.Validate in Hval.
    destruct (ParseDuration _); repeat case_bool_decide; try done.
    split; [by eapply Validate_records_valid|]. by destruct (config.Records cfg). }
  split; [apply units_keys_distinct|]. split; [|split].
  - clear. induction (config.Records cfg) as [|record records IH]; [done|].
    rewrite units_cons, length_app, length_fmap, IH. done.
  - destruct (config.Records cfg) as [|record records]; [done|].
    apply Forall_cons in Hvalid as [[Hty _] _]. rewrite units_cons.
    destruct (config.Types record); done.
  - apply Forall_forall. intros unit [Hin Ht]%elem_of_units.
    rewrite Forall_forall in Hvalid. destruct (Hvalid _ Hin) as [_ Hall].
    rewrite Forall_forall in Hall. by apply Hall.
Qed.

(** The same name in two records, one for each type, is a configuration
    without a triple configured twice. *)
Example split_cfg_keys_distinct :
  config.Validate sim.ParseDuration sim.split_cfg = None
  ∧ unit_key <$> updater.units (config.Records sim.split_cfg)
    = [("Z1", "home.example.com", "A"); ("Z1", "home.example.com", "AAAA")]
  ∧ NoDup (unit_key <$> updater.units (config.Records sim.split_cfg))
  ∧ no_triple_twice (config.Records sim.split_cfg).
Proof.
  split; [done|]. split; [done|].
  assert (NoDup (unit_key <$> updater.units (config.Records sim.split_cfg))) as Hnd.
  { apply (bool_decide_unpack _). by vm_compute. }
  split; [done|]. by apply units_keys_distinct.
Qed.

(** ** C10: the capacity of the error channel *)

Lemma Validate_types_repeated i n : config.Validate_types i (replicate n "A") = None.
Proof. induction n as [|n IH]; [done|]. simpl. by rewrite IH. Qed.

Lemma units_repeated n :
  length (updater.units (config.Records (repeated_cfg n))) = n.
Proof.
  unfold repeated_cfg. cbn [config.Records]. rewrite units_cons. cbn [config.Types].
  rewrite length_app, length_fmap, length_replicate. simpl. lia.
Qed.

(** C10. [Validate] does not bound the number of entries of [Types]: it
    accepts a record that names the type A any number of times, one time or
    more.  [UpdateAll] then has that many units of work for a channel of
    capacity 2: three units for [sim.triple_cfg], whose [Types] is
    [A, A, A]. *)
Theorem Validate_accepts_repeated_types :
  (∀ n, config.Validate sim.ParseDuration (repeated_cfg (S n)) = None
        ∧ length (updater.units (config.Records (repeated_cfg (S n)))) = S n
        ∧ ∀ E (m : Machine E), p_cap (UpdateAll_spawn (repeated_cfg (S n)) m) = 2%nat)
  ∧ sim.triple_cfg = repeated_cfg 3
  ∧ config.Validate sim.ParseDuration sim.triple_cfg = None
  ∧ length (config.Types sim.triple) = 3%nat
  ∧ ∀ E (m : Machine E),
      length (p_threads (UpdateAll_spawn sim.triple_cfg m)) = 3%nat
      ∧ p_cap (UpdateAll_spawn sim.triple_cfg m) = 2%nat.
Proof.
  split; [|done]. intros n. split; [|split; [apply units_repeated|done]].
  unfold config.Validate, repeated_cfg, config.Validate_records, config.Validate_record.
  cbn [config.APIToken config.CheckInterval config.Records config.ZoneID config.Name
       config.Types config.TTL].
  by rewrite Validate_types_repeated.
Qed.

(** ** UpdateAll: when it does return *)

Lemma units_length_le records n :
  Forall (λ r, (length (config.Types r) ≤ n)%nat) records →
  (length (updater.units records) ≤ length records * n)%nat.
Proof.
  induction 1 as [|record records Hr _ IH]; [done|].
  rewrite units_cons, length_app, length_fmap. simpl. lia.
Qed.

Lemma count_lt_length {A} (f : A → bool) (l : list A) i x :
  l !! i = Some x → f x = false → (count f l < length l)%nat.
Proof.
  unfold count. revert i. induction l as [|y l IH]; intros [|i]; simpl; try done.
  - intros [= ->] ->. pose proof (count_le_length f l). unfold count in *. lia.
  - intros Hi Hx. specialize (IH _ Hi Hx). destruct (f y); lia.
Qed.

Lemma count_pos {A} (f : A → bool) (l : list A) :
  count f l ≠ 0%nat → ∃ i x, l !! i = Some x ∧ f x = true.
Proof.
  unfold count. induction l as [|y l IH]; simpl; [done|].
  destruct (f y) eqn:Hy.
  - intros _. by exists 0%nat, y.
  - intros (i & x & Hi & Hx)%IH. by exists (S i), x.
Qed.

(** While [UpdateAll] waits and the program has not terminated, some
    goroutine that has yet to call [wg.Done()] can move, provided the
    channel has room for an error of every unit of work; this is so when no
    record has more than two types. *)
Lemma UpdateAll_progress {E} cfg (m0 : Machine E) (p : Pool E) :
  Forall (λ r, (length (config.Types r) ≤ 2)%nat) (config.Records cfg) →
  reachable (UpdateAll_spawn cfg m0) p →
  p_exited p = false →
  UpdateAll_collect p = None →
  ∃ i p', step i p = Some p' ∧ p_exited p' = false.
Proof.
  intros Htypes [Hlen Hthr Hchan Hcap Hroom Hwg Hst]%reachable_inv Hex.
  unfold UpdateAll_collect. rewrite Hex. case_bool_decide as Hzero; [done|]. intros _.
  rewrite Hwg in Hzero. apply count_pos in Hzero as (i & g & Hg & Hlive).
  exists i. unfold step. rewrite Hex, Hg.
  destruct g as [rec recType [[[err|]|]|X act k]|err|r]; try done; eauto.
  - rewrite bool_decide_eq_true_2; [eauto|].
    rewrite Hchan, Hcap. pose proof (count_lt_length has_sent _ _ _ Hg eq_refl).
    pose proof (units_length_le _ _ Htypes). lia.
  - destruct (handle act (p_machine p)). eauto.
Qed.

Lemma bounded_mono {A} (q : prog A) n n' : (n ≤ n')%nat → bounded n q → bounded n' q.
Proof.
  revert n n'. induction q as [a|X act k IH]; intros n n' Hle; simpl; [done|].
  destruct n as [|n]; [done|]. destruct n' as [|n']; [lia|].
  intros H x. apply (IH x n n'); [lia|done].
Qed.

Lemma bounded_bind {A B} (p : prog A) (f : A → prog B) n n' :
  bounded n p → (∀ a, bounded n' (f a)) → bounded (n + n') (p ≫= f).
Proof.
  revert n. induction p as [a|X act k IH]; intros n Hp Hf.
  - change (Ret a ≫= f) with (f a). apply (bounded_mono _ n'); [lia|done].
  - change (Vis act k ≫= f) with (Vis act (λ x, k x ≫= f)).
    destruct n as [|n]; [done|]. simpl. intros x. by apply IH.
Qed.

Lemma GetIP_loop_bounded isIPv6 services :
  bounded (S (length services)) (ipdetect.GetIP_loop isIPv6 services).
Proof.
  induction services as [|service rest IH]; [done|].
  cbn [ipdetect.GetIP_loop length bounded]. intros [ip|err].
  - case_bool_decide; [by destruct rest|done].
  - done.
Qed.

(** A unit of work takes at most nine actions. *)
Lemma updateRecord_bounded record recordType :
  bounded 9 (updater.updateRecord record recordType).
Proof.
  assert (∀ X (act : action X), bounded 1 (call act)) as Hcall by done.
  assert (∀ z n t, bounded 1 (cloudflare.GetDNSRecord z n t)) as Hget.
  { intros z n t. apply (bounded_bind _ _ 1 0); [done|]. intros [[|r ?]|?]; try done.
    by destruct (cloudflare.info_of z r). }
  assert (∀ z n t c ttl p, bounded 1 (cloudflare.CreateDNSRecord z n t c ttl p)) as Hcr.
  { intros z n t c ttl p. apply (bounded_bind _ _ 1 0); [done|]. intros [r|?]; [|done].
    by destruct (cloudflare.info_of z r). }
  assert (∀ z n t c ttl p, bounded 2 (cloudflare.UpsertDNSRecord z n t c ttl p)) as Hup.
  { intros z n t c ttl p. apply (bounded_bind _ _ 1 1); [done|].
    intros [[existing|err]|]; [| |done].
    - apply (bounded_bind _ _ 1 0); [|done].
      apply (bounded_bind _ _ 1 0); [done|]. by intros [?|?].
    - apply (bounded_bind _ _ 1 0); [done|]. intros [[?|?]|]; done. }
  assert (∀ d, bounded 4 (updater.updateRecord_detected record recordType d)) as Hdet.
  { intros [currentIP|err]; [|done].
    apply (bounded_bind _ _ 1 3); [done|]. intros lastKnownIP.
    unfold updater.updateRecord_compare. destruct (_ && _); [done|].
    apply (bounded_bind _ _ 2 1); [done|]. intros [[e|]|]; [done| |done].
    apply (bounded_bind _ _ 1 0); done. }
  unfold updater.updateRecord. repeat case_bool_decide; [| |done].
  - apply (bounded_bind _ _ 5 4); [|done].
    apply (GetIP_loop_bounded false ipdetect.ipv4Services).
  - apply (bounded_mono _ (4 + 4)); [lia|].
    apply (bounded_bind _ _ 4 4); [|done].
    apply (GetIP_loop_bounded true ipdetect.ipv6Services).
Qed.

Lemma sum_list_insert (l : list nat) i x y :
  l !! i = Some x → (sum_list (<[i:=y]> l) + x = sum_list l + y)%nat.
Proof.
  revert i. induction l as [|z l IH]; intros [|i]; simpl; try done.
  - intros [= ->]. lia.
  - intros H. specialize (IH _ H). lia.
Qed.

Lemma sum_list_lookup_le (l : list nat) i x : l !! i = Some x → (x ≤ sum_list l)%nat.
Proof.
  revert i. induction l as [|z l IH]; intros [|i]; simpl; try done.
  - intros [= ->]. lia.
  - intros H. specialize (IH _ H). lia.
Qed.

(** No pass takes more than eleven steps per unit of work: every schedule
    runs out of goroutines that can move. *)
Lemma UpdateAll_steps_bounded {E} cfg (m0 : Machine E) (p : Pool E) n :
  reachable_in (UpdateAll_spawn cfg m0) n p →
  (n ≤ 11 * length (updater.units (config.Records cfg)))%nat.
Proof.
  intros Hreach.
  assert (∃ ds, Forall2 fuel (p_threads p) ds
                ∧ (n + (if p_exited p then 0 else sum_list ds)
                   ≤ 11 * length (updater.units (config.Records cfg)))%nat)
    as (ds & _ & Hle); [|lia].
  induction Hreach as [|n p i p' _ (ds & Hfuel & Hle) Hstep].
  - exists (replicate (length (updater.units (config.Records cfg))) 11%nat). simpl. split.
    + induction (updater.units (config.Records cfg)) as [|u us IH]; simpl; constructor; [|done].
      exists 9%nat. split; [apply updateRecord_bounded|lia].
    + induction (updater.units (config.Records cfg)) as [|u us IH]; simpl in *; lia.
  - unfold step in Hstep. destruct (p_exited p); [done|].
    destruct (p_threads p !! i) as [g|] eqn:Hg; [|done].
    destruct (Forall2_lookup_l _ _ _ _ _ Hfuel Hg) as (d & Hd & Hgd).
    pose proof (sum_list_insert ds i d (d - 1) Hd) as Hsum.
    pose proof (sum_list_lookup_le ds i d Hd) as Hdle.
    assert (∀ g', fuel g' (d - 1) →
      Forall2 fuel (<[i:=g']> (p_threads p)) (<[i:=(d - 1)%nat]> ds)) as Hins.
    { intros g' Hg'. by apply Forall2_insert. }
    destruct g as [rec recType [[[err|]|]|X act k]|err|[r|]]; [| | | | |done|].
    + exists (<[i:=(d - 1)%nat]> ds).
      case_bool_decide; [|done]. injection Hstep as <-. cbn [p_threads p_exited].
      destruct Hgd as (d' & _ & Hd'). split; [apply Hins; simpl; lia|lia].
    + exists (<[i:=(d - 1)%nat]> ds). injection Hstep as <-. cbn [p_threads p_exited].
      destruct Hgd as (d' & _ & Hd'). split; [by apply Hins|lia].
    + exists (<[i:=(d - 1)%nat]> ds). injection Hstep as <-. cbn [p_threads p_exited].
      destruct Hgd as (d' & _ & Hd'). split; [apply Hins; simpl; lia|lia].
    + exists (<[i:=(d - 1)%nat]> ds).
      destruct (handle act (p_machine p)) as [x m]. injection Hstep as <-.
      cbn [p_threads p_exited].
      destruct Hgd as ([|d'] & Hb & Hd'); [done|]. split; [|lia].
      apply Hins. exists d'. split; [apply Hb|lia].
    + exists (<[i:=(d - 1)%nat]> ds). injection Hstep as <-. cbn [p_threads p_exited].
      simpl in Hgd. split; [by apply Hins|lia].
    + exists ds. injection Hstep as <-. cbn [p_threads p_exited]. simpl in Hgd.
      split; [done|lia].
Qed.

Lemma reachable_in_reachable {E} (p0 p : Pool E) n : reachable_in p0 n p → reachable p0 p.
Proof. induction 1; [constructor|by eapply reach_step]. Qed.

(** When no record has more than two types, a pass can always be run to
    the return of [UpdateAll], from wherever it stands, unless the program
    has terminated. *)
Lemma UpdateAll_returns {E} cfg (m0 : Machine E) (p : Pool E) n :
  Forall (λ r, (length (config.Types r) ≤ 2)%nat) (config.Records cfg) →
  reachable_in (UpdateAll_spawn cfg m0) n p →
  p_exited p = false →
  ∃ sched r, UpdateAll_collect (exec sched p) = Some r.
Proof.
  intros Htypes.
  remember (11 * length (updater.units (config.Records cfg)) - n)%nat as k eqn:Hk.
  revert n p Hk. induction k as [k IH] using lt_wf_ind. intros n p Hk Hreach Hex.
  destruct (UpdateAll_collect p) as [r|] eqn:Hc; [by exists [], r|].
  destruct (UpdateAll_progress cfg m0 p Htypes (reachable_in_reachable _ _ _ Hreach) Hex Hc)
    as (i & p' & Hstep & Hex').
  pose proof (reach_in_S _ _ _ _ _ Hreach Hstep) as Hreach'.
  pose proof (UpdateAll_steps_bounded _ _ _ _ Hreach') as Hbound.
  destruct (IH (11 * length (updater.units (config.Records cfg)) - S n)%nat
              ltac:(lia) (S n) p' eq_refl Hreach' Hex') as (sched & r & Hr).
  exists (i :: sched), r. simpl. by rewrite Hstep.
Qed.

(** ** The Sets of a pass *)

(** Every program can be run to its end. *)
Lemma residual_complete {A} (q : prog A) : ∃ tr a, returns q tr a.
Proof.
  induction q as [a|X act k IH]; [by exists [], a|].
  destruct (IH (some_answer act)) as (tr & a & H).
  exists (event_of act (some_answer act) :: tr), a. apply returns_Vis. eauto.
Qed.

(** On every path of a unit of work, complete or not, the only key that is
    [Set] is the unit's own. *)
Lemma residual_sets_own_key record recordType tr q z n t ip :
  residual (updater.updateRecord record recordType) tr q →
  EvStateSet z n t ip ∈ tr →
  z = config.ZoneID record ∧ n = config.Name record ∧ t = recordType.
Proof.
  intros Hres Hin. destruct (residual_complete q) as (tr' & r & Hq).
  pose proof (residual_app _ _ _ _ _ Hres Hq) as Hfull.
  assert ((z, n, t, ip) ∈ omap set_of (tr ++ tr')) as Hset.
  { apply list_elem_of_omap. exists (EvStateSet z n t ip). split; [|done].
    apply elem_of_app. by left. }
  apply updateRecord_returns, unit_path_sets in Hfull
    as [[Hs _]|(pre & w & ip' & _ & Heq & Hw & Hs & _)].
  - rewrite Hs in Hset. by apply elem_of_nil in Hset.
  - assert (set_of w = None) as Hsw by (by destruct w).
    rewrite Heq, omap_app, Hs, (omap_cons_None set_of w) in Hset by done.
    apply list_elem_of_singleton in Hset. by injection Hset as -> -> -> ->.
Qed.

(** At every moment of a pass, under every interleaving: each [Set] that
    was made was made by a goroutine on the key of its own unit of work. *)
Lemma pass_sets_own_keys {E} cfg (m0 : Machine E) (p : Pool E) i z n t ip :
  reachable (UpdateAll_spawn cfg m0) p →
  (i, EvStateSet z n t ip) ∈ p_trace p →
  ∃ unit, updater.units (config.Records cfg) !! i = Some unit ∧ unit_key unit = (z, n, t).
Proof.
  intros Hreach Hin. pose proof (reachable_inv _ _ _ Hreach) as [Hlen Hthr _ _ _ _ _].
  assert (EvStateSet z n t ip ∈ thread_trace i (p_trace p)) as Hin'.
  { unfold thread_trace. apply list_elem_of_fmap. exists (i, EvStateSet z n t ip).
    split; [done|]. by apply list_elem_of_filter. }
  assert (i < length (p_threads p))%nat as Hi.
  { destruct (decide (i < length (p_threads p))%nat) as [|Hge]; [done|exfalso].
    clear Hin' Hthr Hlen. revert Hge.
    induction Hreach as [|p j p' _ IH Hstep]; [by apply elem_of_nil in Hin|].
    unfold step in Hstep. destruct (p_exited p); [done|].
    destruct (p_threads p !! j) as [g|] eqn:Hg; [|done].
    pose proof (lookup_lt_Some _ _ _ Hg) as Hj.
    destruct g as [rec recType [[[err|]|]|X act k]|err|[r|]]; try done.
    - case_bool_decide; [|done]. injection Hstep as <-. simpl in *.
      rewrite length_insert. by apply IH.
    - injection Hstep as <-. simpl in *. rewrite length_insert. by apply IH.
    - injection Hstep as <-. simpl in *. rewrite length_insert. by apply IH.
    - destruct (handle act (p_machine p)). injection Hstep as <-. simpl in *.
      rewrite length_insert. apply elem_of_app in Hin as [Hin|Hin]; [by apply IH|].
      apply list_elem_of_singleton in Hin. injection Hin as -> _. lia.
    - injection Hstep as <-. simpl in *. rewrite length_insert. by apply IH.
    - injection Hstep as <-. simpl in *. by apply IH. }
  destruct (lookup_lt_is_Some_2 (p_threads p) i Hi) as [g Hg].
  rewrite Hlen in Hi.
  destruct (lookup_lt_is_Some_2 (updater.units (config.Records cfg)) i Hi) as [unit Hu].
  exists unit. split; [done|]. specialize (Hthr i unit g Hu Hg).
  assert (∃ q, residual (updater.updateRecord unit.1 unit.2)
                 (thread_trace i (p_trace p)) q) as [q Hq].
  { destruct g; simpl in Hthr; [destruct Hthr as (_ & _ & ?)| |]; eauto. }
  destruct (residual_sets_own_key _ _ _ _ _ _ _ _ Hq Hin') as (-> & -> & ->). done.
Qed.

(** In the state that a trace leaves, the entry of a key is the address of
    the last [Set] on it, or what it was when there is none. *)
Lemma replay_lookup s evs k :
  updater.Records (replay s evs) !! k
  = match last (omap (set_on k) evs) with
    | Some ip => Some ip
    | None => updater.Records s !! k
    end.
Proof.
  induction evs as [|ev evs IH] using rev_ind; [done|].
  rewrite replay_app, omap_app. simpl.
  destruct ev; simpl; rewrite ?app_nil_r; try done.
  unfold updater.State_Set. simpl. case_decide as Hk.
  - rewrite last_snoc. subst k. by rewrite lookup_insert_eq.
  - rewrite app_nil_r, lookup_insert_ne by done. done.
Qed.

Lemma omap_thread_trace {B} (f : event → option B) i (tr : list (nat * event)) :
  (∀ j ev, (j, ev) ∈ tr → is_Some (f ev) → j = i) →
  omap f tr.*2 = omap f (thread_trace i tr).
Proof.
  unfold thread_trace. induction tr as [|[j ev] tr IH]; intros Hown; [done|].
  assert (omap f tr.*2 = omap f (filter (λ e, e.1 = i) tr).*2) as Htl.
  { apply IH. intros j' ev' Hin. apply Hown. by right. }
  rewrite fmap_cons, filter_cons. cbn [snd fst].
  destruct (decide (j = i)) as [->|Hne].
  - rewrite fmap_cons. cbn [snd]. destruct (f ev) as [b|] eqn:Hf.
    + by rewrite !(omap_cons_Some f ev b), Htl.
    + by rewrite !(omap_cons_None f ev), Htl.
  - destruct (f ev) as [b|] eqn:Hf.
    + destruct Hne. apply (Hown j ev); [by left|by rewrite Hf].
    + by rewrite (omap_cons_None f ev).
Qed.

(** What a unit of work committed stays committed: when [UpdateAll]
    returns, the entry of a key that a single unit of work has, and for
    which the provider confirmed that unit's write of [ip], is [ip], unless
    that unit panicked. *)
Lemma UpdateAll_commits {E} cfg (m0 : Machine E) (p : Pool E) r i unit ip :
  reachable (UpdateAll_spawn cfg m0) p →
  UpdateAll_collect p = Some r →
  updater.units (config.Records cfg) !! i = Some unit →
  p_threads p !! i ≠ Some (updater.GoDone Panicked) →
  (∀ j unit', updater.units (config.Records cfg) !! j = Some unit' →
     updater.stateKey (config.ZoneID unit'.1) (config.Name unit'.1) unit'.2
     = updater.stateKey (config.ZoneID unit.1) (config.Name unit.1) unit.2 →
     j = i) →
  ip ∈ omap confirmed_write_of (thread_trace i (p_trace p)) →
  updater.State_Get (m_state (p_machine p)) (config.ZoneID unit.1) (config.Name unit.1) unit.2
  = ip.
Proof.
  intros Hreach Hc Hu Hret Halone Hip.
  destruct (UpdateAll_aggregate _ _ _ _ Hreach Hc)
    as (outcomes & Hthreads & Hlen & Hpaths & _ & _ & Hst).
  assert (is_Some (outcomes !! i)) as [o Ho].
  { apply lookup_lt_is_Some_2. rewrite Hlen. by eapply lookup_lt_Some. }
  pose proof (Hpaths i unit o Hu Ho) as Hpath.
  apply unit_path_sets in Hpath
    as [[_ [Hnone | ->]]|(pre & w & ip' & _ & Heq & Hw & Hs & Hcw)].
  { rewrite Hnone in Hip. by apply elem_of_nil in Hip. }
  { destruct Hret. by rewrite Hthreads, list_lookup_fmap, Ho. }
  rewrite Heq, omap_app, Hcw, (omap_cons_Some confirmed_write_of w ip') in Hip by done.
  apply list_elem_of_singleton in Hip. subst ip'.
  unfold updater.State_Get. rewrite Hst, replay_lookup.
  rewrite (omap_thread_trace _ i).
  - rewrite Heq, omap_app.
    assert (omap (set_on (updater.stateKey (config.ZoneID unit.1) (config.Name unit.1)
                            unit.2)) pre = []) as ->.
    { clear -Hs. induction pre as [|ev pre IH]; [done|].
      destruct ev; simpl in *; try done; by apply IH. }
    assert (set_on (updater.stateKey (config.ZoneID unit.1) (config.Name unit.1) unit.2) w
            = None) as Hsw by (by destruct w).
    rewrite (omap_cons_None _ w) by done. simpl. by rewrite decide_True.
  - intros j ev Hin [a Ha]. destruct ev; try done. simpl in Ha. case_decide as Hk; [|done].
    destruct (pass_sets_own_keys _ _ _ _ _ _ _ _ Hreach Hin) as (unit' & Hu' & Hkey).
    apply (Halone j unit' Hu'). unfold unit_key in Hkey. by injection Hkey as -> -> ->.
Qed.

(** ** The theorems at work on the simulated world *)

Lemma updateRecord_changed_upserts_witness :
  let m := sim.machine sim.fresh updater.NewState in
  let m1 := (run ipdetect.GetIPv4 m).1.2 in
  let evs1 := (run ipdetect.GetIPv4 m).2 in
  ∃ out m2 tru m' evs,
    run (cloudflare.UpsertDNSRecord "Z1" "home.example.com" "A" "203.0.113.5" 120 false) m1
    = (out, m2, tru)
    ∧ run (updater.updateRecord sim.home "A") m
      = (match out with
         | Returned uerr => Returned (ErrFailedUpdateCloudflare <$> uerr)
         | Panicked => Panicked
         end, m', evs)
    ∧ evs
      = evs1
        ++ EvStateGet "Z1" "home.example.com" "A"
             (updater.State_Get (m_state m) "Z1" "home.example.com" "A")
        :: tru
        ++ match out with
           | Returned None => [EvStateSet "Z1" "home.example.com" "A" "203.0.113.5"]
           | _ => []
           end
    ∧ (omap write_of evs = [("Z1", "203.0.113.5", 120, false)]
       ∨ out = Panicked ∧ omap write_of evs = []
         ∧ ∃ existing others,
             tru = [EvList "Z1" "home.example.com" "A" (Ok (existing :: others))]
             ∧ cf_Proxied existing = None)
    ∧ match out with
      | Returned None =>
          m_state m' = updater.State_Set (m_state m) "Z1" "home.example.com" "A" "203.0.113.5"
          ∧ updater.State_Get (m_state m') "Z1" "home.example.com" "A" = "203.0.113.5"
      | _ => m_state m' = m_state m
      end.
Proof.
  intros m m1 evs1.
  apply (updateRecord_changed_upserts m m1 sim.home "A" ipdetect.GetIPv4 "203.0.113.5" evs1).
  - reflexivity.
  - vm_compute. reflexivity.
  - left. vm_compute. reflexivity.
Defined.

Lemma updateRecord_unchanged_noop_witness :
  let m := sim.machine sim.fresh
             (updater.State_Set updater.NewState "Z1" "home.example.com" "A" "203.0.113.5") in
  let m1 := (run ipdetect.GetIPv4 m).1.2 in
  let evs1 := (run ipdetect.GetIPv4 m).2 in
  ∃ evs,
    run (updater.updateRecord sim.home "A") m = (Returned None, m1, evs)
    ∧ evs = evs1 ++ [EvStateGet "Z1" "home.example.com" "A" "203.0.113.5"]
    ∧ Forall (λ ev, is_provider_event ev = false) evs
    ∧ omap set_of evs = []
    ∧ m_state m1 = m_state m.
Proof.
  intros m m1 evs1.
  apply (updateRecord_unchanged_noop m m1 sim.home "A" ipdetect.GetIPv4 "203.0.113.5" evs1).
  - reflexivity.
  - vm_compute. reflexivity.
  - vm_compute. reflexivity.
  - discriminate.
Defined.

Lemma empty_address_is_absence_witness :
  let m := sim.machine sim.fresh updater.NewState in
  let m0 := set_state m (updater.State_Set (m_state m) "Z1" "home.example.com" "A" "") in
  updater.State_Get updater.NewState "Z1" "home.example.com" "A" = ""
  ∧ updater.State_Get (m_state m) "Z1" "home.example.com" "A" = ""
  ∧ updater.State_Get (m_state m0) "Z1" "home.example.com" "A" = ""
  ∧ (∀ record recordType,
       ∃ r m' m0' evs,
         run (updater.updateRecord record recordType) m = (r, m', evs)
         ∧ run (updater.updateRecord record recordType) m0 = (r, m0', evs)
         ∧ machine_equiv m' m0')
  ∧ (∀ record p A m1 evs1,
       config.ZoneID record = "Z1" → config.Name record = "home.example.com" →
       resolver "A" = Some p →
       run p m0 = (Ok A, m1, evs1) →
       ∃ out m2 tru,
         run (cloudflare.UpsertDNSRecord "Z1" "home.example.com" "A" A (config.TTL record)
                (config.Proxied record)) m1 = (out, m2, tru)
         ∧ (run (updater.updateRecord record "A") m0).2
           = evs1 ++ EvStateGet "Z1" "home.example.com" "A" "" :: tru
             ++ match out with
                | Returned None => [EvStateSet "Z1" "home.example.com" "A" A]
                | _ => []
                end
         ∧ (run (updater.updateRecord record "A") m).2
           = (run (updater.updateRecord record "A") m0).2
         ∧ (omap write_of (run (updater.updateRecord record "A") m0).2
            = [("Z1", A, config.TTL record, config.Proxied record)]
            ∨ out = Panicked
              ∧ omap write_of (run (updater.updateRecord record "A") m0).2 = [])).
Proof.
  intros m.
  apply (empty_address_is_absence m "Z1" "home.example.com" "A").
  vm_compute. reflexivity.
Defined.

Lemma units_distinct_keys_witness :
  (NoDup (unit_key <$> updater.units (config.Records sim.split_cfg))
   ↔ no_triple_twice (config.Records sim.split_cfg))
  ∧ length (updater.units (config.Records sim.split_cfg))
    = sum_list_with (λ r, length (config.Types r)) (config.Records sim.split_cfg)
  ∧ updater.units (config.Records sim.split_cfg) ≠ []
  ∧ Forall (λ unit, unit.2 = "A" ∨ unit.2 = "AAAA")
      (updater.units (config.Records sim.split_cfg)).
Proof.
  apply (units_distinct_keys sim.ParseDuration sim.split_cfg).
  vm_compute. reflexivity.
Defined.

(** ** The example scenario of the specification

    One record, home.example.com in zone Z1, types A and AAAA, TTL 120, not
    proxied; the provider starts without records. *)

(** First pass: two creations, the state holds both addresses. *)
Example scenario_first_pass :
  let '(r, m) := UpdateAll [0; 1; 0; 1; 0; 1; 0; 1; 0; 1; 0; 1; 0; 1]%nat sim.home_cfg
                   (sim.machine sim.fresh updater.NewState) in
  r = Some None
  ∧ updater.State_Get (m_state m) "Z1" "home.example.com" "A" = "203.0.113.5"
  ∧ updater.State_Get (m_state m) "Z1" "home.example.com" "AAAA" = "2001:db8::1"
  ∧ cf_Content <$> (sim.w_zone (m_world m)).*2 = ["203.0.113.5"; "2001:db8::1"].
Proof. vm_compute. done. Qed.

(** Second pass, addresses unchanged: no call to the provider. *)
Example scenario_second_pass :
  let '(_, m1) := UpdateAll [0; 1; 0; 1; 0; 1; 0; 1; 0; 1; 0; 1; 0; 1]%nat sim.home_cfg
                    (sim.machine sim.fresh updater.NewState) in
  let p := exec [0; 0; 0; 0; 1; 1; 1; 1]%nat (UpdateAll_spawn sim.home_cfg m1) in
  UpdateAll_collect p = Some None
  ∧ filter (λ e, is_provider_event e.2 = true) (p_trace p) = []
  ∧ p_machine p = m1.
Proof. vm_compute. done. Qed.

(** Third pass, the IPv4 address changed: one update, of the A record. *)
Example scenario_third_pass :
  let '(_, m1) := UpdateAll [0; 1; 0; 1; 0; 1; 0; 1; 0; 1; 0; 1; 0; 1]%nat sim.home_cfg
                    (sim.machine sim.fresh updater.NewState) in
  let m2 := set_world m1
              {| sim.w_ipv4 := Ok "203.0.113.9"; sim.w_ipv6 := sim.w_ipv6 (m_world m1);
                 sim.w_zone := sim.w_zone (m_world m1);
                 sim.w_list_fails := false; sim.w_write_fails := false |} in
  let p := exec [1; 1; 1; 1; 0; 0; 0; 0; 0; 0; 0]%nat (UpdateAll_spawn sim.home_cfg m2) in
  UpdateAll_collect p = Some None
  ∧ omap (λ e, write_of e.2) (p_trace p) = [("Z1", "203.0.113.9", 120, false)]
  ∧ updater.State_Get (m_state (p_machine p)) "Z1" "home.example.com" "A" = "203.0.113.9"
  ∧ updater.State_Get (m_state (p_machine p)) "Z1" "home.example.com" "AAAA" = "2001:db8::1"
  ∧ cf_Content <$> (sim.w_zone (m_world (p_machine p))).*2 = ["203.0.113.9"; "2001:db8::1"].
Proof. vm_compute. done. Qed.

(** A pass with one unit failing out of two: the A record is refused by the
    lookup services, the AAAA record is created; [UpdateAll] reports one
    error and the state holds the AAAA address. *)
Example scenario_partial_failure :
  let w := {| sim.w_ipv4 := Err (ErrExternal "timeout"); sim.w_ipv6 := Ok "2001:db8::1";
              sim.w_zone := []; sim.w_list_fails := false; sim.w_write_fails := false |} in
  let '(r, m) := UpdateAll [0; 1; 0; 1; 0; 1; 0; 1; 0; 1; 0; 1; 0; 1]%nat sim.home_cfg
                   (sim.machine w updater.NewState) in
  r = Some (Some (ErrEncountered 1))
  ∧ updater.State_Get (m_state m) "Z1" "home.example.com" "A" = ""
  ∧ updater.State_Get (m_state m) "Z1" "home.example.com" "AAAA" = "2001:db8::1".
Proof. vm_compute. done. Qed.

(** * Further properties of the code *)

(** ** Validate *)

Lemma Validate_types_spec i types :
  match config.Validate_types i types with
  | None => Forall (λ t, t = "A" ∨ t = "AAAA") types
  | Some e =>
      ∃ before t after,
        types = before ++ t :: after
        ∧ Forall (λ t, t = "A" ∨ t = "AAAA") before
        ∧ t ≠ "A" ∧ t ≠ "AAAA" ∧ e = config.ErrInvalidType i t
  end.
Proof.
  induction types as [|t types IH]; simpl; [done|].
  destruct (decide (t = "A")) as [->|HA];
    [|destruct (decide (t = "AAAA")) as [->|HAAAA]].
  - simpl. destruct (config.Validate_types i types) as [e|].
    + destruct IH as (before & t' & after & -> & Hb & ? & ? & ->).
      exists ("A" :: before), t', after. repeat split; auto.
    + constructor; auto.
  - simpl. destruct (config.Validate_types i types) as [e|].
    + destruct IH as (before & t' & after & -> & Hb & ? & ? & ->).
      exists ("AAAA" :: before), t', after. repeat split; auto.
    + constructor; auto.
  - rewrite !bool_decide_eq_true_2 by done. simpl. by exists [], t, types.
Qed.

Lemma Validate_record_spec i r :
  match config.Validate_record i r with
  | None => record_ok r
  | Some e => first_failure i r e
  end.
Proof.
  unfold config.Validate_record, first_failure, record_ok.
  pose proof (Validate_types_spec i (config.Types r)) as Hty.
  case_bool_decide as Hz; [by left|].
  case_bool_decide as Hn; [by right; left|].
  case_bool_decide as Hl.
  { right; right; left. by destruct (config.Types r). }
  assert (config.Types r ≠ []) as Hne by (by intros Heq; rewrite Heq in Hl).
  destruct (config.Validate_types i (config.Types r)) as [e|].
  { right; right; right; left. done. }
  case_bool_decide as Hlo; [right; right; right; right; repeat split; auto|].
  case_bool_decide as Hhi; [right; right; right; right; repeat split; auto|].
  simpl. repeat split; auto; lia.
Qed.

Lemma first_failure_not_ok i r e : first_failure i r e → ¬ record_ok r.
Proof.
  intros [[? _]|[(_ & ? & _)|[(_ & _ & ? & _)|[(_ & _ & Hty)|(_ & _ & _ & _ & Httl & _)]]]]
    (Hz & Hn & Hne & Hall & Hrange); try done.
  - destruct Hty as (before & t & after & Heq & _ & HA & HAAAA & _).
    rewrite Heq in Hall. apply Forall_app in Hall as [_ Hall].
    apply Forall_cons in Hall as [[?|?] _]; done.
  - lia.
Qed.

Lemma Validate_records_spec i records :
  match config.Validate_records i records with
  | None => Forall record_ok records
  | Some e =>
      ∃ j r, records !! j = Some r ∧ Forall record_ok (take j records)
             ∧ first_failure (i + j) r e
  end.
Proof.
  revert i. induction records as [|r records IH]; intros i; simpl; [done|].
  pose proof (Validate_record_spec i r) as Hr.
  destruct (config.Validate_record i r) as [e|].
  - exists 0%nat, r. rewrite Nat.add_0_r. by repeat split.
  - specialize (IH (S i)). destruct (config.Validate_records (S i) records) as [e|].
    + destruct IH as (j & r' & Hj & Hbefore & Hfail).
      exists (S j), r'. rewrite Nat.add_succ_r. simpl. repeat split; auto.
    + by constructor.
Qed.

Lemma Validate_records_ok ParseDuration c :
  config.Validate ParseDuration c = None →
  config.APIToken c ≠ "" ∧ config.CheckInterval c ≠ ""
  ∧ ParseDuration (config.CheckInterval c) = None
  ∧ config.Records c ≠ [] ∧ Forall record_ok (config.Records c).
Proof.
  unfold config.Validate.
  pose proof (Validate_records_spec 0 (config.Records c)) as Hrec.
  case_bool_decide as Ht; [done|]. case_bool_decide as Hi; [done|].
  destruct (ParseDuration (config.CheckInterval c)); [done|].
  case_bool_decide as Hl; [done|]. intros Hnone. rewrite Hnone in Hrec.
  repeat split; auto. intros Heq. by rewrite Heq in Hl.
Qed.

(** X1. What [Validate] accepts, exactly: a token, a check interval that
    [time.ParseDuration] parses, at least one record, and in every record a
    zone identifier, a name, one type or more, only the types A and AAAA,
    and a TTL from 60 to 86400 included.  Nothing else is looked at: not
    the proxied flag, not whether records or types repeat, not the sign of
    the interval. *)
Theorem Validate_accepts_iff ParseDuration c :
  config.Validate ParseDuration c = None ↔
  config.APIToken c ≠ "" ∧ config.CheckInterval c ≠ ""
  ∧ ParseDuration (config.CheckInterval c) = None
  ∧ config.Records c ≠ [] ∧ Forall record_ok (config.Records c).
Proof.
  unfold config.Validate.
  pose proof (Validate_records_spec 0 (config.Records c)) as Hrec.
  split; [apply Validate_records_ok|].
  - intros (Ht & Hi & -> & Hne & Hall).
    rewrite !bool_decide_eq_false_2 by (done || by destruct (config.Records c)).
    destruct (config.Validate_records 0 (config.Records c)) as [e|]; [|done].
    destruct Hrec as (j & r & Hj & _ & Hfail). exfalso.
    apply (first_failure_not_ok _ _ _ Hfail).
    rewrite Forall_forall in Hall. apply Hall. by eapply list_elem_of_lookup_2.
Qed.

(** X2. What [Validate] reports, when it rejects: the first check that fails,
    in the order of the source.  The checks of the token, of the interval
    and of the presence of records come first; after them the error names
    the first record that fails a check, by its index, and the first check
    that this record fails, all records before it being in order. *)
Theorem Validate_reports_first_failure ParseDuration c e :
  config.Validate ParseDuration c = Some e →
  (config.APIToken c = "" ∧ e = config.ErrAPITokenRequired)
  ∨ (config.APIToken c ≠ "" ∧ config.CheckInterval c = ""
     ∧ e = config.ErrCheckIntervalRequired)
  ∨ (config.APIToken c ≠ "" ∧ config.CheckInterval c ≠ ""
     ∧ ∃ err, ParseDuration (config.CheckInterval c) = Some err
              ∧ e = config.ErrCheckIntervalFormat err)
  ∨ (config.APIToken c ≠ "" ∧ config.CheckInterval c ≠ ""
     ∧ ParseDuration (config.CheckInterval c) = None
     ∧ ((config.Records c = [] ∧ e = config.ErrNoRecords)
        ∨ ∃ i r, config.Records c !! i = Some r
                 ∧ Forall record_ok (take i (config.Records c))
                 ∧ first_failure i r e)).
Proof.
  unfold config.Validate.
  pose proof (Validate_records_spec 0 (config.Records c)) as Hrec.
  case_bool_decide as Ht; [intros [= <-]; by left|].
  case_bool_decide as Hi; [intros [= <-]; by right; left|].
  destruct (ParseDuration (config.CheckInterval c)) as [err|].
  { intros [= <-]. right; right; left. eauto. }
  intros Hsome. right; right; right. repeat (split; [done|]).
  case_bool_decide as Hl.
  - injection Hsome as <-. left. by destruct (config.Records c).
  - rewrite Hsome in Hrec. right. exact Hrec.
Qed.

Lemma Validate_reports_first_failure_witness :
  config.Validate sim.ParseDuration sim_io.short_ttl_cfg = Some (config.ErrTTLRange 1)
  ∧ ((config.APIToken sim_io.short_ttl_cfg = ""
      ∧ config.ErrTTLRange 1 = config.ErrAPITokenRequired)
     ∨ (config.APIToken sim_io.short_ttl_cfg ≠ ""
        ∧ config.CheckInterval sim_io.short_ttl_cfg = ""
        ∧ config.ErrTTLRange 1 = config.ErrCheckIntervalRequired)
     ∨ (config.APIToken sim_io.short_ttl_cfg ≠ ""
        ∧ config.CheckInterval sim_io.short_ttl_cfg ≠ ""
        ∧ ∃ err, sim.ParseDuration (config.CheckInterval sim_io.short_ttl_cfg) = Some err
                 ∧ config.ErrTTLRange 1 = config.ErrCheckIntervalFormat err)
     ∨ (config.APIToken sim_io.short_ttl_cfg ≠ ""
        ∧ config.CheckInterval sim_io.short_ttl_cfg ≠ ""
        ∧ sim.ParseDuration (config.CheckInterval sim_io.short_ttl_cfg) = None
        ∧ ((config.Records sim_io.short_ttl_cfg = []
            ∧ config.ErrTTLRange 1 = config.ErrNoRecords)
           ∨ ∃ i r, config.Records sim_io.short_ttl_cfg !! i = Some r
                    ∧ Forall record_ok (take i (config.Records sim_io.short_ttl_cfg))
                    ∧ first_failure i r (config.ErrTTLRange 1)))).
Proof.
  split; [reflexivity|].
  apply (Validate_reports_first_failure sim.ParseDuration sim_io.short_ttl_cfg).
  reflexivity.
Defined.

(** ** Load, GetCheckInterval and NewClient *)

(** X3. A configuration that [Load] returns is the one [yaml.Unmarshal] made of
    the file, and [Validate] has accepted it: it has a token, at least one
    record, and every record is in order.  So [GetCheckInterval], which
    drops the error of [time.ParseDuration], drops a nil, and [NewClient]
    on the token of the configuration does not fail for a missing token: it
    returns what the library's constructor returns. *)
Theorem Load_returns_valid ReadFile Unmarshal ParseDuration API NewWithAPIToken path cfg :
  config_io.Load ReadFile Unmarshal ParseDuration path = inr cfg →
  (∃ data, ReadFile path = Ok data ∧ Unmarshal data = Ok cfg)
  ∧ config.APIToken cfg ≠ "" ∧ config.Records cfg ≠ []
  ∧ Forall record_ok (config.Records cfg)
  ∧ ParseDuration (config.CheckInterval cfg)
    = (config_io.GetCheckInterval ParseDuration cfg, None)
  ∧ cloudflare_new.NewClient API NewWithAPIToken (config.APIToken cfg)
    = match NewWithAPIToken (config.APIToken cfg) with
      | Err err => inl (cloudflare_new.ErrCreateClient err)
      | Ok api => inr api
      end.
Proof.
  unfold config_io.Load. destruct (ReadFile path) as [data|err] eqn:Hread; [|done].
  destruct (Unmarshal data) as [cfg'|err] eqn:Hparse; [|done].
  destruct (config.Validate _ cfg') as [e|] eqn:Hval; [done|]. intros [= <-].
  apply Validate_records_ok in Hval as (Ht & Hi & Hd & Hne & Hall).
  split; [by exists data|]. repeat (split; [done|]). split.
  - unfold config_io.GetCheckInterval.
    by destruct (ParseDuration (config.CheckInterval cfg')) as [d o]; simpl in *; subst.
  - unfold cloudflare_new.NewClient. by rewrite bool_decide_eq_false_2.
Qed.

Lemma Load_returns_valid_witness :
  config_io.Load sim_io.ReadFile sim_io.Unmarshal sim_io.ParseDuration "config.yaml"
  = inr sim.home_cfg
  ∧ (∃ data, sim_io.ReadFile "config.yaml" = Ok data ∧ sim_io.Unmarshal data = Ok sim.home_cfg)
  ∧ config.APIToken sim.home_cfg ≠ "" ∧ config.Records sim.home_cfg ≠ []
  ∧ Forall record_ok (config.Records sim.home_cfg)
  ∧ sim_io.ParseDuration (config.CheckInterval sim.home_cfg)
    = (config_io.GetCheckInterval sim_io.ParseDuration sim.home_cfg, None)
  ∧ cloudflare_new.NewClient unit sim_io.NewWithAPIToken (config.APIToken sim.home_cfg)
    = match sim_io.NewWithAPIToken (config.APIToken sim.home_cfg) with
      | Err err => inl (cloudflare_new.ErrCreateClient err)
      | Ok api => inr api
      end.
Proof.
  split; [reflexivity|].
  apply (Load_returns_valid sim_io.ReadFile sim_io.Unmarshal sim_io.ParseDuration unit
           sim_io.NewWithAPIToken "config.yaml" sim.home_cfg).
  reflexivity.
Defined.

(** ** The detector: order of the services, caches *)

Lemma GetIP_loop_order isIPv6 services tr r :
  returns (ipdetect.GetIP_loop isIPv6 services) tr r →
  ∃ answers,
    omap fetch_of tr = zip_with (λ url a, (url, isIPv6, a)) services answers
    ∧ (length answers ≤ length services)%nat
    ∧ match r with
      | Ok ip =>
          ∃ before, answers = before ++ [Ok ip]
                    ∧ Forall (λ a, usable a = false) before
                    ∧ omap cached_of tr = [(isIPv6, ip)]
      | Err e =>
          length answers = length services
          ∧ Forall (λ a, usable a = false) answers
          ∧ omap cached_of tr = []
          ∧ e = (if isIPv6 then ErrDetectIPv6 else ErrDetectIPv4)
      end.
Proof.
  revert tr. induction services as [|service rest IH]; intros tr.
  - intros [-> [= <-]]%returns_Ret. by exists [].
  - cbn [ipdetect.GetIP_loop]. intros (x & tr' & -> & H)%returns_Vis.
    assert (usable x = false →
            returns (ipdetect.GetIP_loop isIPv6 rest) tr' r →
            ∃ answers,
              omap fetch_of (event_of (FetchIP service isIPv6) x :: tr')
              = zip_with (λ url a, (url, isIPv6, a)) (service :: rest) answers
              ∧ (length answers ≤ length (service :: rest))%nat
              ∧ match r with
                | Ok ip =>
                    ∃ before, answers = before ++ [Ok ip]
                              ∧ Forall (λ a, usable a = false) before
                              ∧ omap cached_of (event_of (FetchIP service isIPv6) x :: tr')
                                = [(isIPv6, ip)]
                | Err e =>
                    length answers = length (service :: rest)
                    ∧ Forall (λ a, usable a = false) answers
                    ∧ omap cached_of (event_of (FetchIP service isIPv6) x :: tr') = []
                    ∧ e = (if isIPv6 then ErrDetectIPv6 else ErrDetectIPv4)
                end) as Hnext.
    { intros Hx (answers & Hf & Hlen & Hr)%IH. exists (x :: answers).
      split; [cbn; by rewrite Hf|]. split; [simpl; lia|].
      destruct r as [ip|e].
      - destruct Hr as (before & -> & Hb & Hc). exists (x :: before).
        split; [done|]. split; [by constructor|done].
      - destruct Hr as (Hl & Hall & Hc & ->). split; [simpl; lia|].
        split; [by constructor|done]. }
    destruct x as [ip|e]; [|by apply Hnext].
    case_bool_decide as Hip.
    + apply returns_Vis in H as ([] & tr'' & -> & [-> [= <-]]%returns_Ret).
      exists [Ok ip]. split; [by destruct rest|]. split; [simpl; lia|]. by exists [].
    + apply Hnext; [|done]. by subst ip.
Qed.

(** X4. [GetIPv4] and [GetIPv6] ask their services in the order of the list,
    each at most once, and stop at the first answer that is an address and
    not empty: they return that address, after writing it into the cache
    of their family and nothing else into a cache.  They fail only after
    all services of the list answered with an error or an empty address,
    and then write no cache. *)
Theorem GetIP_tries_in_order (isIPv6 : bool) tr r :
  returns (if isIPv6 then ipdetect.GetIPv6 else ipdetect.GetIPv4) tr r →
  ∃ answers,
    omap fetch_of tr
    = zip_with (λ url a, (url, isIPv6, a))
        (if isIPv6 then ipdetect.ipv6Services else ipdetect.ipv4Services) answers
    ∧ (length answers ≤ if isIPv6 then 3 else 4)%nat
    ∧ match r with
      | Ok ip =>
          ∃ before, answers = before ++ [Ok ip]
                    ∧ Forall (λ a, usable a = false) before
                    ∧ ip ≠ ""
                    ∧ omap cached_of tr = [(isIPv6, ip)]
      | Err e =>
          length answers = (if isIPv6 then 3 else 4)%nat
          ∧ Forall (λ a, usable a = false) answers
          ∧ omap cached_of tr = []
          ∧ e = (if isIPv6 then ErrDetectIPv6 else ErrDetectIPv4)
      end.
Proof.
  intros H.
  assert (returns (ipdetect.GetIP_loop isIPv6
            (if isIPv6 then ipdetect.ipv6Services else ipdetect.ipv4Services)) tr r) as H'
    by (by destruct isIPv6).
  pose proof (GetIP_loop_returns _ _ _ _ H') as [_ Hne].
  apply GetIP_loop_order in H' as (answers & Hf & Hlen & Hr).
  exists answers. split; [done|]. split; [by destruct isIPv6|].
  destruct r as [ip|e].
  - destruct Hr as (before & -> & Hb & Hc). destruct Hne as [Hne _]. by exists before.
  - destruct Hr as (Hl & Hall & Hc & ->). by destruct isIPv6.
Qed.

Lemma GetIP_tries_in_order_witness :
  let tr := (run ipdetect.GetIPv4 (sim.machine sim.offline updater.NewState)).2 in
  ∃ answers,
    omap fetch_of tr
    = zip_with (λ url a, (url, false, a)) ipdetect.ipv4Services answers
    ∧ (length answers ≤ 4)%nat
    ∧ length answers = 4%nat
    ∧ Forall (λ a, usable a = false) answers
    ∧ omap cached_of tr = []
    ∧ ErrDetectIPv4 = ErrDetectIPv4.
Proof.
  intros tr. apply (GetIP_tries_in_order false tr (Err ErrDetectIPv4)).
  apply (run_returns _ (sim.machine sim.offline updater.NewState)
           (sim.machine sim.offline updater.NewState)).
  vm_compute. reflexivity.
Defined.

Lemma run_GetIP_loop_cache {E} isIPv6 services (m m' : Machine E) r evs :
  run (ipdetect.GetIP_loop isIPv6 services) m = (r, m', evs) →
  match r with
  | Ok ip =>
      (if isIPv6 then m_ipv6Cache m' else m_ipv4Cache m') = ip
      ∧ (if isIPv6 then m_ipv4Cache m' = m_ipv4Cache m
         else m_ipv6Cache m' = m_ipv6Cache m)
  | Err _ => m_ipv4Cache m' = m_ipv4Cache m ∧ m_ipv6Cache m' = m_ipv6Cache m
  end.
Proof.
  revert m evs. induction services as [|service rest IH]; intros m evs.
  - intros [= <- <- _]. done.
  - cbn [ipdetect.GetIP_loop run handle].
    destruct (env_fetchIP E service isIPv6 (m_world m)) as [x w].
    assert (∀ evs', run (ipdetect.GetIP_loop isIPv6 rest) (set_world m w) = (r, m', evs') →
            match r with
            | Ok ip =>
                (if isIPv6 then m_ipv6Cache m' else m_ipv4Cache m') = ip
                ∧ (if isIPv6 then m_ipv4Cache m' = m_ipv4Cache m
                   else m_ipv6Cache m' = m_ipv6Cache m)
            | Err _ => m_ipv4Cache m' = m_ipv4Cache m ∧ m_ipv6Cache m' = m_ipv6Cache m
            end) as Hnext.
    { intros evs' Hrun. by apply IH in Hrun. }
    destruct x as [ip|e].
    + case_bool_decide.
      * cbn. intros [= <- <- _]. by destruct isIPv6.
      * destruct (run (ipdetect.GetIP_loop isIPv6 rest) (set_world m w))
          as [[r' m''] evs'] eqn:Hrun.
        intros [= -> -> _]. by eapply Hnext.
    + destruct (run (ipdetect.GetIP_loop isIPv6 rest) (set_world m w))
        as [[r' m''] evs'] eqn:Hrun.
      intros [= -> -> _]. by eapply Hnext.
Qed.

(** X5. After [GetIPv4] returned an address, [GetCachedIPv4] returns that
    address and [GetCachedIPv6] what it returned before; likewise for
    [GetIPv6].  A detection that fails leaves both caches as they were: the
    cache keeps the last address detected.  Neither touches the
    Reconciliation State. *)
Theorem GetIP_updates_cache {E} (isIPv6 : bool) (m m' : Machine E) r evs :
  run (if isIPv6 then ipdetect.GetIPv6 else ipdetect.GetIPv4) m = (r, m', evs) →
  m_state m' = m_state m
  ∧ match r with
    | Ok ip =>
        (if isIPv6 then detector.GetCachedIPv6 m' else detector.GetCachedIPv4 m') = ip
        ∧ (if isIPv6 then detector.GetCachedIPv4 m' = detector.GetCachedIPv4 m
           else detector.GetCachedIPv6 m' = detector.GetCachedIPv6 m)
    | Err _ =>
        detector.GetCachedIPv4 m' = detector.GetCachedIPv4 m
        ∧ detector.GetCachedIPv6 m' = detector.GetCachedIPv6 m
    end.
Proof.
  intros Hrun. split.
  - assert (resolver (if isIPv6 then "AAAA" else "A")
            = Some (if isIPv6 then ipdetect.GetIPv6 else ipdetect.GetIPv4)) as Hres
      by (by destruct isIPv6).
    by destruct (run_resolver _ _ _ _ _ _ Hres Hrun) as (_ & ? & _).
  - apply (run_GetIP_loop_cache isIPv6
             (if isIPv6 then ipdetect.ipv6Services else ipdetect.ipv4Services) m m' r evs).
    by destruct isIPv6.
Qed.

Lemma GetIP_updates_cache_witness :
  let m := sim.machine sim.fresh updater.NewState in
  let m' := (run ipdetect.GetIPv6 m).1.2 in
  m_state m' = m_state m
  ∧ detector.GetCachedIPv6 m' = "2001:db8::1"
  ∧ detector.GetCachedIPv4 m' = detector.GetCachedIPv4 m.
Proof.
  intros m m'.
  apply (GetIP_updates_cache true m m' (Ok "2001:db8::1") (run ipdetect.GetIPv6 m).2).
  vm_compute. reflexivity.
Defined.

(** ** HasIPChanged and the decision of updateRecord *)

Lemma HasIPChanged_resolver recordType lastKnownIP :
  detector.HasIPChanged recordType lastKnownIP =
  match resolver recordType with
  | Some p => p ≫= detector.HasIPChanged_detected lastKnownIP
  | None => Ret (false, "", Some (ErrInvalidRecordType recordType))
  end.
Proof. unfold detector.HasIPChanged, resolver. by repeat case_bool_decide. Qed.

(** X6. [HasIPChanged], asked about the address stored for a record, and
    [updateRecord] decide alike.  When [HasIPChanged] reports an error,
    [updateRecord] fails with the same error (wrapped when it comes from the
    resolver), after the same actions.  When it reports no change,
    [updateRecord] stops after reading the state, without a call to the
    provider.  When it reports a change, [updateRecord] makes one write to
    the provider, with the address that [HasIPChanged] returned, unless it
    panics before any write, on a listing whose first record has no
    [Proxied].  The test for an empty stored address that only
    [updateRecord] has makes no difference, the address detected being
    never empty. *)
Theorem HasIPChanged_agrees_with_updateRecord {E} (m m1 : Machine E) record recordType
    changed ip err evs1 :
  run (detector.HasIPChanged recordType
         (updater.State_Get (m_state m) (config.ZoneID record) (config.Name record)
            recordType)) m
  = ((changed, ip, err), m1, evs1) →
  match err with
  | Some e =>
      changed = false ∧ ip = ""
      ∧ run (updater.updateRecord record recordType) m
        = (Returned (Some (match resolver recordType with
                           | Some _ => ErrFailedDetectIP e
                           | None => e
                           end)), m1, evs1)
  | None =>
      ip ≠ ""
      ∧ match changed with
        | true =>
            omap write_of (run (updater.updateRecord record recordType) m).2
            = [(config.ZoneID record, ip, config.TTL record, config.Proxied record)]
            ∨ (run (updater.updateRecord record recordType) m).1.1 = Panicked
              ∧ omap write_of (run (updater.updateRecord record recordType) m).2 = []
              ∧ ∃ existing others,
                  EvList (config.ZoneID record) (config.Name record) recordType
                    (Ok (existing :: others))
                  ∈ (run (updater.updateRecord record recordType) m).2
                  ∧ cf_Proxied existing = None
        | false =>
            run (updater.updateRecord record recordType) m
            = (Returned None, m1,
               evs1 ++ [EvStateGet (config.ZoneID record) (config.Name record)
                          recordType ip])
        end
  end.
Proof.
  rewrite HasIPChanged_resolver, updateRecord_resolver.
  destruct (resolver recordType) as [p|] eqn:Hres; [|by intros [= <- <- <- <- <-]].
  rewrite !run_bind. destruct (run p m) as [[d m'] evs'] eqn:Hrun.
  destruct (run_resolver _ _ _ _ _ _ Hres Hrun) as (Hd & Hst & _).
  destruct d as [currentIP|e];
    cbn [detector.HasIPChanged_detected updater.updateRecord_detected].
  - change (run (mret ?x) m') with (x, m', @nil event).
    intros [= <- <- <- <- <-]. pose proof (resolves_nonempty _ _ _ Hd) as Hne.
    split; [done|]. case_bool_decide as Hchg.
    + destruct (run_updateRecord_upsert m m' record recordType p currentIP evs' Hres Hrun)
        as (out & m2 & tru & m3 & evs & _ & Hupd & Hevs & Hw & _); [by right; auto|].
      rewrite updateRecord_resolver, Hres, run_bind, Hrun in Hupd.
      cbn [updater.updateRecord_detected] in Hupd. rewrite Hupd. cbn [fst snd].
      destruct Hw as [Hw|(-> & Hw & existing & others & -> & Hp)]; [by left|right].
      split; [done|]. split; [done|]. exists existing, others. split; [|done].
      rewrite Hevs. apply elem_of_app. right. right. by left.
    + rewrite run_updateRecord_compare. cbn zeta.
      rewrite Hst, <- Hchg. by rewrite !bool_decide_eq_true_2, app_nil_r.
  - change (run (mret ?x) m') with (x, m', @nil event).
    by intros [= <- <- <- <- <-].
Qed.

Lemma HasIPChanged_agrees_with_updateRecord_witness :
  let m := sim.machine sim.fresh updater.NewState in
  "203.0.113.5" ≠ ""
  ∧ (omap write_of (run (updater.updateRecord sim.home "A") m).2
     = [("Z1", "203.0.113.5", 120, false)]
     ∨ (run (updater.updateRecord sim.home "A") m).1.1 = Panicked
       ∧ omap write_of (run (updater.updateRecord sim.home "A") m).2 = []
       ∧ ∃ existing others,
           EvList "Z1" "home.example.com" "A" (Ok (existing :: others))
           ∈ (run (updater.updateRecord sim.home "A") m).2
           ∧ cf_Proxied existing = None).
Proof.
  intros m.
  apply (HasIPChanged_agrees_with_updateRecord m (run ipdetect.GetIPv4 m).1.2 sim.home "A"
           true "203.0.113.5" None (run ipdetect.GetIPv4 m).2).
  vm_compute. reflexivity.
Defined.

(** ** fetchIP *)

Lemma fetchIP_answer6_valid O isIPv6 resp ip :
  detector.fetchIP_answer6 O isIPv6 resp = Ok ip →
  valid_address O isIPv6 ip ∧ detector.StatusCode resp = 200
  ∧ ∃ body, detector.Body resp = Ok body ∧ ip = detector.TrimSpace O body.
Proof.
  unfold detector.fetchIP_answer6, valid_address.
  case_bool_decide as Hstatus; [done|].
  destruct (detector.Body resp) as [body|err]; [|done].
  destruct (detector.ParseIP O (detector.TrimSpace O body)) as [parsedIP|] eqn:Hparse;
    [|done].
  destruct isIPv6, (detector.To4 O parsedIP) eqn:Hto4; simpl; try done;
    intros [= <-]; (split; [by exists parsedIP|]); (split; [lia|by exists body]).
Qed.

Lemma fetchIP_answer4_valid O resp ip :
  detector.fetchIP_answer4 O resp = Ok ip →
  valid_address O false ip ∧ detector.StatusCode resp = 200
  ∧ ∃ body, detector.Body resp = Ok body ∧ ip = detector.TrimSpace O body.
Proof.
  unfold detector.fetchIP_answer4, valid_address.
  case_bool_decide as Hstatus; [done|].
  destruct (detector.Body resp) as [body|err]; [|done].
  destruct (detector.ParseIP O (detector.TrimSpace O body)) as [parsedIP|] eqn:Hparse;
    [|done].
  destruct (detector.To4 O parsedIP) eqn:Hto4; simpl; try done.
  intros [= <-]. split; [by exists parsedIP|]. split; [lia|by exists body].
Qed.

(** X7. An address that [fetchIP] returns is the body, trimmed, of an answer
    with status 200; [net.ParseIP] parses it; and it is of the family asked
    for.  For IPv4 the one request is made with the default client.  For
    IPv6 the request over the tcp6 transport comes first, and the default
    client is used only after that request failed; an IPv4 address that
    the service then answers is refused. *)
Theorem fetchIP_returns_valid_address O url isIPv6 w ip w' :
  detector.fetchIP O url isIPv6 w = (Ok ip, w') →
  valid_address O isIPv6 ip
  ∧ detector.NewRequest O url = None
  ∧ ∃ tcp6 w0 resp body,
      detector.Do O tcp6 url w0 = (Ok resp, w')
      ∧ detector.StatusCode resp = 200
      ∧ detector.Body resp = Ok body
      ∧ ip = detector.TrimSpace O body
      ∧ (isIPv6 = false → tcp6 = false ∧ w0 = w)
      ∧ (isIPv6 = true → tcp6 = true ∧ w0 = w
                         ∨ tcp6 = false
                           ∧ ∃ err, detector.Do O true url w = (Err err, w0)).
Proof.
  unfold detector.fetchIP. destruct (detector.NewRequest O url) as [err|]; [done|].
  destruct isIPv6.
  - destruct (detector.Do O true url w) as [[resp|err] w1] eqn:Hdo6.
    + intros [= Hans <-].
      apply fetchIP_answer6_valid in Hans as (Hvalid & Hstatus & body & Hbody & ->).
      split; [done|]. split; [done|]. exists true, w, resp, body. by repeat split; auto.
    + destruct (detector.Do O false url w1) as [[resp|err'] w2] eqn:Hdo; [|done].
      intros [= Hans <-].
      apply fetchIP_answer6_valid in Hans as (Hvalid & Hstatus & body & Hbody & ->).
      split; [done|]. split; [done|]. exists false, w1, resp, body.
      repeat split; auto; try done. intros _. right. eauto.
  - destruct (detector.Do O false url w) as [[resp|err] w1] eqn:Hdo; [|done].
    intros [= Hans <-].
    apply fetchIP_answer4_valid in Hans as (Hvalid & Hstatus & body & Hbody & ->).
    split; [done|]. split; [done|]. exists false, w, resp, body. by repeat split; auto.
Qed.

Lemma fetchIP_returns_valid_address_witness :
  let O := sim_http.outside in
  let url := "https://api64.ipify.org" in
  valid_address O true "2001:db8::1"
  ∧ detector.NewRequest O url = None
  ∧ ∃ tcp6 w0 resp body,
      detector.Do O tcp6 url w0 = (Ok resp, sim.fresh)
      ∧ detector.StatusCode resp = 200
      ∧ detector.Body resp = Ok body
      ∧ "2001:db8::1" = detector.TrimSpace O body
      ∧ (true = false → tcp6 = false ∧ w0 = sim.fresh)
      ∧ (true = true → tcp6 = true ∧ w0 = sim.fresh
                       ∨ tcp6 = false
                         ∧ ∃ err, detector.Do O true url sim.fresh = (Err err, w0)).
Proof.
  intros O url.
  apply (fetchIP_returns_valid_address O url true sim.fresh "2001:db8::1" sim.fresh).
  vm_compute. reflexivity.
Defined.

(** ** What a pass sends to the provider *)

Lemma resolves_answer_family recordType tr ip :
  resolves recordType tr (Ok ip) →
  ∃ url, EvFetchIP url (bool_decide (recordType = "AAAA")) (Ok ip) ∈ tr.
Proof.
  intros [[-> H]|[-> H]]; apply GetIP_loop_returns in H as [_ (_ & tr0 & url & ->)];
    exists url; apply elem_of_app; right; apply elem_of_cons; by left.
Qed.

Lemma fetchIP_valid O url isIPv6 w ip w' :
  detector.fetchIP O url isIPv6 w = (Ok ip, w') → valid_address O isIPv6 ip.
Proof.
  unfold detector.fetchIP. destruct (detector.NewRequest O url) as [err|]; [done|].
  destruct isIPv6.
  - destruct (detector.Do O true url w) as [[resp|err] w1].
    + intros [= Hans _]. by apply fetchIP_answer6_valid in Hans as [? _].
    + destruct (detector.Do O false url w1) as [[resp|err'] w2]; [|done].
      intros [= Hans _]. by apply fetchIP_answer6_valid in Hans as [? _].
  - destruct (detector.Do O false url w) as [[resp|err] w1]; [|done].
    intros [= Hans _]. by apply fetchIP_answer4_valid in Hans as [? _].
Qed.

Lemma handle_answers_valid O {X} (act : action X) (m : Machine (detector.Env_of O)) i :
  answers_valid O (i, event_of act (handle act m).1).
Proof.
  destruct act; unfold answers_valid; simpl; try done.
  destruct (detector.fetchIP O url isIPv6 (m_world m)) as [[ip|err] w'] eqn:Hfetch;
    simpl; [|done]. by eapply fetchIP_valid.
Qed.

Lemma reachable_answers_valid O cfg (m0 : Machine (detector.Env_of O)) p :
  reachable (UpdateAll_spawn cfg m0) p → Forall (answers_valid O) (p_trace p).
Proof.
  induction 1 as [|p i p' _ IH Hstep]; [by apply Forall_nil|].
  unfold step in Hstep. destruct (p_exited p); [done|].
  destruct (p_threads p !! i) as [g|]; [|done].
  destruct g as [rec recType [[[err|]|]|X act k]|err|[r|]]; try done.
  - case_bool_decide; [|done]. by injection Hstep as <-.
  - by injection Hstep as <-.
  - by injection Hstep as <-.
  - pose proof (handle_answers_valid O act (p_machine p) i) as Hv.
    destruct (handle act (p_machine p)) as [x m]. injection Hstep as <-. simpl in *.
    apply Forall_app. split; [done|]. by apply Forall_singleton.
  - by injection Hstep as <-.
  - by injection Hstep as <-.
Qed.

(** Every entry of the trace of a pool was made by a goroutine of the
    pool, on its way through [updateRecord] for its unit of work. *)
Lemma trace_thread_residual {E} cfg (m0 : Machine E) (p : Pool E) i ev :
  reachable (UpdateAll_spawn cfg m0) p →
  (i, ev) ∈ p_trace p →
  ∃ unit q,
    updater.units (config.Records cfg) !! i = Some unit
    ∧ residual (updater.updateRecord unit.1 unit.2) (thread_trace i (p_trace p)) q
    ∧ ev ∈ thread_trace i (p_trace p).
Proof.
  intros Hreach Hin. pose proof (reachable_inv _ _ _ Hreach) as [Hlen Hthr _ _ _ _ _].
  assert (ev ∈ thread_trace i (p_trace p)) as Hin'.
  { unfold thread_trace. apply list_elem_of_fmap. exists (i, ev).
    split; [done|]. by apply list_elem_of_filter. }
  assert (i < length (p_threads p))%nat as Hi.
  { destruct (decide (i < length (p_threads p))%nat) as [|Hge]; [done|exfalso].
    clear Hin' Hthr Hlen. revert Hge.
    induction Hreach as [|p j p' _ IH Hstep]; [by apply elem_of_nil in Hin|].
    unfold step in Hstep. destruct (p_exited p); [done|].
    destruct (p_threads p !! j) as [g|] eqn:Hg; [|done].
    pose proof (lookup_lt_Some _ _ _ Hg) as Hj.
    destruct g as [rec recType [[[err|]|]|X act k]|err|[r|]]; try done.
    - case_bool_decide; [|done]. injection Hstep as <-. simpl in *.
      rewrite length_insert. by apply IH.
    - injection Hstep as <-. simpl in *. rewrite length_insert. by apply IH.
    - injection Hstep as <-. simpl in *. rewrite length_insert. by apply IH.
    - destruct (handle act (p_machine p)). injection Hstep as <-. simpl in *.
      rewrite length_insert. apply elem_of_app in Hin as [Hin|Hin]; [by apply IH|].
      apply list_elem_of_singleton in Hin. injection Hin as -> _. lia.
    - injection Hstep as <-. simpl in *. rewrite length_insert. by apply IH.
    - injection Hstep as <-. simpl in *. by apply IH. }
  destruct (lookup_lt_is_Some_2 (p_threads p) i Hi) as [g Hg].
  rewrite Hlen in Hi.
  destruct (lookup_lt_is_Some_2 (updater.units (config.Records cfg)) i Hi) as [unit Hu].
  specialize (Hthr i unit g Hu Hg).
  assert (∃ q, residual (updater.updateRecord unit.1 unit.2)
                 (thread_trace i (p_trace p)) q) as [q Hq].
  { destruct g; simpl in Hthr; [destruct Hthr as (_ & _ & ?)| |]; eauto. }
  by exists unit, q.
Qed.

Lemma resolver_events_no_write tr w v :
  Forall (λ ev, is_resolver_event ev = true) tr → w ∈ tr → write_of w = Some v → False.
Proof.
  intros Hall Hin Hw. rewrite Forall_forall in Hall. specialize (Hall w Hin).
  by destruct w.
Qed.

(** The writes of an upsert carry its arguments. *)
Lemma upsert_path_writes z n t c ttl p tru out w v :
  upsert_path z n t c ttl p tru out → w ∈ tru → write_of w = Some v → v = (z, c, ttl, p).
Proof.
  intros [_ [(record & others & -> & _)|(lr & w0 & -> & Hw0 & _)]]%upsert_path_events Hin Hw.
  - apply list_elem_of_singleton in Hin as ->. done.
  - apply elem_of_cons in Hin as [->|Hin]; [done|].
    apply list_elem_of_singleton in Hin as ->. congruence.
Qed.

(** A write to the provider on a path of [updateRecord], complete or not,
    comes after a lookup of the family of the record type was answered with
    the address that the write carries; the zone, the TTL and the proxied
    flag are those of the record. *)
Lemma residual_write_resolved record recordType tr q w z c ttl px :
  residual (updater.updateRecord record recordType) tr q →
  w ∈ tr →
  write_of w = Some (z, c, ttl, px) →
  z = config.ZoneID record ∧ ttl = config.TTL record ∧ px = config.Proxied record
  ∧ ∃ url, EvFetchIP url (bool_decide (recordType = "AAAA")) (Ok c) ∈ tr.
Proof.
  intros Hres Hin Hw. destruct (residual_complete q) as (tr' & r & Hq).
  pose proof (residual_app _ _ _ _ _ Hres Hq) as Hfull.
  apply updateRecord_returns in Hfull.
  remember (tr ++ tr') as full eqn:Htr.
  assert (∀ trR currentIP suf,
            resolves recordType trR (Ok currentIP) →
            full = trR ++ suf →
            (∀ w', w' ∈ suf → write_of w' = Some (z, c, ttl, px) →
               (z, c, ttl, px)
               = (config.ZoneID record, currentIP, config.TTL record,
                  config.Proxied record)) →
            z = config.ZoneID record ∧ ttl = config.TTL record
            ∧ px = config.Proxied record
            ∧ ∃ url, EvFetchIP url (bool_decide (recordType = "AAAA")) (Ok c) ∈ tr)
    as Hcase.
  { intros trR currentIP suf HR Heq Hsuf. rewrite Htr in Heq.
    pose proof (resolves_events _ _ _ HR) as Hall.
    destruct (resolves_answer_family _ _ _ HR) as [url Hurl].
    apply app_eq_inv in Heq as [(k & -> & ->)|(k & -> & ->)].
    - apply elem_of_app in Hin as [Hin|Hin];
        [by destruct (resolver_events_no_write _ _ _ Hall Hin Hw)|].
      assert (w ∈ k ++ tr') as Hin' by (apply elem_of_app; by left).
      specialize (Hsuf w Hin' Hw). injection Hsuf as -> -> -> ->.
      repeat split; try done. exists url. apply elem_of_app. by left.
    - assert (w ∈ tr ++ k) as Hin' by (apply elem_of_app; by left).
      by destruct (resolver_events_no_write _ _ _ Hall Hin' Hw). }
  destruct Hfull as [Hn4 Hn6|trR err HR|trR currentIP HR Hne
                     |trR currentIP lastKnownIP tru err HR Hchg Hup
                     |trR currentIP lastKnownIP tru HR Hchg Hup
                     |trR currentIP lastKnownIP tru HR Hchg Hup].
  - symmetry in Htr. apply app_eq_nil in Htr as [-> _]. by apply elem_of_nil in Hin.
  - pose proof (resolves_events _ _ _ HR) as Hall. rewrite Htr in Hall.
    apply Forall_app in Hall as [Hall _].
    by destruct (resolver_events_no_write _ _ _ Hall Hin Hw).
  - apply (Hcase _ _ _ HR eq_refl). intros w' Hw'.
    apply list_elem_of_singleton in Hw' as ->. done.
  - apply (Hcase _ _ _ HR eq_refl). intros w' Hw' Hww.
    apply elem_of_cons in Hw' as [->|Hw']; [done|].
    by eapply upsert_path_writes.
  - apply (Hcase _ _ _ HR eq_refl). intros w' Hw' Hww.
    apply elem_of_cons in Hw' as [->|Hw']; [done|].
    apply elem_of_app in Hw' as [Hw'|Hw']; [by eapply upsert_path_writes|].
    apply list_elem_of_singleton in Hw' as ->. done.
  - apply (Hcase _ _ _ HR eq_refl). intros w' Hw' Hww.
    apply elem_of_cons in Hw' as [->|Hw']; [done|].
    by eapply upsert_path_writes.
Qed.

(** X8. What a pass sends to the provider, whatever the schedule and at every
    moment of the pass: a write to the provider by the goroutine of a unit
    of work carries the zone, the TTL and the proxied flag of the unit's
    record, and an address that [net.ParseIP] parses and that is of the
    family of the unit's type, IPv6 for AAAA and IPv4 for A. *)
Theorem pass_writes_valid_addresses O cfg (m0 : Machine (detector.Env_of O)) p k i w
    z c ttl px :
  reachable (UpdateAll_spawn cfg m0) p →
  p_trace p !! k = Some (i, w) →
  write_of w = Some (z, c, ttl, px) →
  ∃ unit,
    updater.units (config.Records cfg) !! i = Some unit
    ∧ z = config.ZoneID unit.1 ∧ ttl = config.TTL unit.1 ∧ px = config.Proxied unit.1
    ∧ valid_address O (bool_decide (unit.2 = "AAAA")) c.
Proof.
  intros Hreach Hk Hw. apply list_elem_of_lookup_2 in Hk.
  destruct (trace_thread_residual _ _ _ _ _ Hreach Hk) as (unit & q & Hu & Hres & Hin).
  destruct (residual_write_resolved _ _ _ _ _ _ _ _ _ Hres Hin Hw)
    as (-> & -> & -> & url & Hurl).
  exists unit. repeat split; try done.
  apply thread_trace_elem in Hurl.
  pose proof (reachable_answers_valid _ _ _ _ Hreach) as Hall.
  rewrite Forall_forall in Hall. by apply Hall in Hurl.
Qed.

Lemma pass_writes_valid_addresses_witness :
  let O := sim_http.outside in
  ∃ unit,
    updater.units (config.Records sim.home_cfg) !! 1%nat = Some unit
    ∧ "Z1" = config.ZoneID unit.1 ∧ 120 = config.TTL unit.1
    ∧ false = config.Proxied unit.1
    ∧ valid_address O (bool_decide (unit.2 = "AAAA")) "2001:db8::1".
Proof.
  intros O.
  apply (pass_writes_valid_addresses O sim.home_cfg
           (sim_http.machine sim.fresh updater.NewState)
           (exec [1; 1; 0; 1; 1; 1]%nat
              (UpdateAll_spawn sim.home_cfg (sim_http.machine sim.fresh updater.NewState)))
           5%nat 1%nat
           (EvCreate "Z1" "home.example.com" "AAAA" "2001:db8::1" 120 false
              (Ok {| cf_ID := "id-home.example.com-AAAA"; cf_Name := "home.example.com";
                     cf_Type := "AAAA"; cf_Content := "2001:db8::1"; cf_TTL := 120;
                     cf_Proxied := Some false |}))).
  - apply exec_reachable.
  - vm_compute. reflexivity.
  - reflexivity.
Defined.

(** ** The state as a map from triples *)

(** X9. The state is a map from the triples (zone, name, type) whose zone and
    name hold no colon: an address stored under one triple is read back
    under that triple, and under no other. *)
Theorem State_Get_after_Set s z n t ip z' n' t' :
  has_colon z = false → has_colon n = false →
  has_colon z' = false → has_colon n' = false →
  updater.State_Get (updater.State_Set s z n t ip) z' n' t'
  = if bool_decide ((z', n', t') = (z, n, t)) then ip else updater.State_Get s z' n' t'.
Proof.
  intros Hz Hn Hz' Hn'. case_bool_decide as Heq.
  - injection Heq as -> -> ->. apply State_Get_Set.
  - unfold updater.State_Get. rewrite State_Set_other; [done|].
    intros Hkey. apply stateKey_inj in Hkey as (-> & -> & ->); done.
Qed.

Lemma State_Get_after_Set_witness :
  updater.State_Get (updater.State_Set updater.NewState "Z1" "home.example.com" "A"
                       "203.0.113.5") "Z1" "home.example.com" "AAAA"
  = if bool_decide (("Z1", "home.example.com", "AAAA") = ("Z1", "home.example.com", "A"))
    then "203.0.113.5"
    else updater.State_Get updater.NewState "Z1" "home.example.com" "AAAA".
Proof.
  apply (State_Get_after_Set updater.NewState "Z1" "home.example.com" "A" "203.0.113.5"
           "Z1" "home.example.com" "AAAA"); reflexivity.
Defined.

(** ** A second call of updateRecord *)

(** X10. [updateRecord] is idempotent.  After a call that returned nil, the
    state holds, for the record and type, the address that the call
    detected, and this address is not empty; a second call that detects the
    same address reads the state and returns nil without any call to the
    provider, and leaves the state as it is. *)
Theorem updateRecord_idempotent {E} (m m1 m' : Machine E) record recordType p ip evs1 evs :
  resolver recordType = Some p →
  run p m = (Ok ip, m1, evs1) →
  run (updater.updateRecord record recordType) m = (Returned None, m', evs) →
  updater.State_Get (m_state m') (config.ZoneID record) (config.Name record) recordType = ip
  ∧ ip ≠ ""
  ∧ ∀ m1' evs1',
      run p m' = (Ok ip, m1', evs1') →
      run (updater.updateRecord record recordType) m'
      = (Returned None, m1',
         evs1' ++ [EvStateGet (config.ZoneID record) (config.Name record) recordType ip])
      ∧ m_state m1' = m_state m'.
Proof.
  intros Hres Hrun Hupd.
  destruct (run_resolver _ _ _ _ _ _ Hres Hrun) as (Hd & Hst & _).
  pose proof (resolves_nonempty _ _ _ Hd) as Hne.
  assert (updater.State_Get (m_state m') (config.ZoneID record) (config.Name record)
            recordType = ip) as Hget.
  { rewrite updateRecord_resolver, Hres, run_bind, Hrun in Hupd.
    cbn [updater.updateRecord_detected] in Hupd.
    rewrite run_updateRecord_compare in Hupd. cbn zeta in Hupd. rewrite Hst in Hupd.
    destruct (bool_decide (ip = _) && bool_decide (_ ≠ "")) eqn:Hsame.
    - apply andb_true_iff in Hsame as [Hsame _]. apply bool_decide_eq_true in Hsame.
      injection Hupd as <- _. by rewrite Hst.
    - destruct (run (cloudflare.UpsertDNSRecord _ _ _ _ _ _) m1) as [[[[e|]|] m2] evs2];
        [done| |done]. injection Hupd as <- _. apply State_Get_Set. }
  split; [done|]. split; [done|]. intros m1' evs1' Hrun'.
  destruct (run_resolver _ _ _ _ _ _ Hres Hrun') as (_ & Hst' & _).
  split; [|done].
  rewrite updateRecord_resolver, Hres, run_bind, Hrun'.
  cbn [updater.updateRecord_detected]. rewrite run_updateRecord_compare. cbn zeta.
  rewrite Hst', Hget. by rewrite !bool_decide_eq_true_2.
Qed.

Lemma updateRecord_idempotent_witness :
  let m := sim.machine sim.fresh updater.NewState in
  let m' := (run (updater.updateRecord sim.home "A") m).1.2 in
  updater.State_Get (m_state m') "Z1" "home.example.com" "A" = "203.0.113.5"
  ∧ "203.0.113.5" ≠ ""
  ∧ ∀ m1' evs1',
      run ipdetect.GetIPv4 m' = (Ok "203.0.113.5", m1', evs1') →
      run (updater.updateRecord sim.home "A") m'
      = (Returned None, m1', evs1' ++ [EvStateGet "Z1" "home.example.com" "A" "203.0.113.5"])
      ∧ m_state m1' = m_state m'.
Proof.
  intros m m'.
  apply (updateRecord_idempotent m (run ipdetect.GetIPv4 m).1.2 m' sim.home "A"
           ipdetect.GetIPv4 "203.0.113.5" (run ipdetect.GetIPv4 m).2
           (run (updater.updateRecord sim.home "A") m).2).
  - reflexivity.
  - vm_compute. reflexivity.
  - vm_compute. reflexivity.
Defined.

(** ** What InitializeState leaves in the state *)

Lemma init_trace_read_only us lrs :
  omap write_of (init_trace us lrs) = []
  ∧ Forall (λ ev, is_resolver_event ev = false) (init_trace us lrs).
Proof.
  unfold init_trace. revert lrs.
  induction us as [|u us IH]; intros [|lr lrs]; cbn [zip_with concat]; try done.
  destruct (IH lrs) as [IHw IHr]. rewrite omap_app, IHw, app_nil_r. split.
  - by destruct lr as [[|??]|?].
  - apply Forall_app. split; [|done]. destruct lr as [[|??]|?]; by repeat constructor.
Qed.

(** X11. [InitializeState] seeds the state from the provider, and does nothing
    else.  Whatever the provider answers, it returns nil or panics, never an
    error, and it panics exactly when the first record of some listing has
    no [Proxied]; it asks no lookup service, leaves both caches of the
    detector alone, and writes nothing to the provider.  When it returns,
    then for a unit of work whose listing names a record the state holds
    the content of the first record listed, provided no later unit with the
    same key finds a record of its own. *)
Theorem InitializeState_seeds {E} cfg (m m' : Machine E) out evs :
  let us := updater.units (config.Records cfg) in
  let lrs := (listings us (m_world m)).1 in
  run (updater.InitializeState cfg) m = (out, m', evs) →
  (out = Returned None ∨ out = Panicked)
  ∧ (out = Panicked ↔ Exists lacks_proxied lrs)
  ∧ m_ipv4Cache m' = m_ipv4Cache m ∧ m_ipv6Cache m' = m_ipv6Cache m
  ∧ omap write_of evs = []
  ∧ Forall (λ ev, is_resolver_event ev = false) evs
  ∧ (out = Returned None →
     ∀ i unit record others,
       us !! i = Some unit →
       lrs !! i = Some (Ok (record :: others)) →
       (∀ j unit' lr,
          (i < j)%nat → us !! j = Some unit' → lrs !! j = Some lr →
          updater.stateKey (config.ZoneID unit'.1) (config.Name unit'.1) unit'.2
          = updater.stateKey (config.ZoneID unit.1) (config.Name unit.1) unit.2 →
          found_nothing lr) →
       updater.State_Get (m_state m') (config.ZoneID unit.1) (config.Name unit.1) unit.2
       = cf_Content record).
Proof.
  intros us lrs Hrun.
  destruct (init_units_cases us m)
    as [Hok|(us1 & unit & us2 & lr & w2 & Hus & Hok & Hlist & Hlr)].
  - rewrite run_InitializeState_ok in Hrun by done. injection Hrun as <- <- <-.
    split; [by left|]. split.
    { split; [done|]. intros Hex. by apply Forall_not_Exists in Hok. }
    split; [done|]. split; [done|].
    destruct (init_trace_read_only us (listings us (m_world m)).1) as [Hw Hr].
    split; [done|]. split; [done|].
    intros _ i unit record others Hu Hlr Hlater. by eapply foldl_seed_last.
  - rewrite (run_InitializeState_panics cfg us1 unit us2 lr w2) in Hrun by done.
    injection Hrun as <- <- <-. split; [by right|]. split.
    { split; [|done]. intros _. unfold lrs. fold us. rewrite Hus.
      by eapply listings_split_Exists. }
    split; [done|]. split; [done|].
    destruct (init_trace_read_only us1 (listings us1 (m_world m)).1) as [Hw Hr].
    split; [by rewrite omap_app, Hw|]. split; [|done].
    apply Forall_app. split; [done|]. by repeat constructor.
Qed.

Lemma InitializeState_seeds_witness :
  let m := sim.machine sim_io.listed updater.NewState in
  let m' := (run (updater.InitializeState sim.home_cfg) m).1.2 in
  let evs := (run (updater.InitializeState sim.home_cfg) m).2 in
  let us := updater.units (config.Records sim.home_cfg) in
  let lrs := (listings us (m_world m)).1 in
  (@Returned (option error) None = Returned None ∨ @Returned (option error) None = Panicked)
  ∧ (@Returned (option error) None = Panicked ↔ Exists lacks_proxied lrs)
  ∧ m_ipv4Cache m' = m_ipv4Cache m ∧ m_ipv6Cache m' = m_ipv6Cache m
  ∧ omap write_of evs = []
  ∧ Forall (λ ev, is_resolver_event ev = false) evs
  ∧ (@Returned (option error) None = Returned None →
     ∀ i unit record others,
       us !! i = Some unit →
       lrs !! i = Some (Ok (record :: others)) →
       (∀ j unit' lr,
          (i < j)%nat → us !! j = Some unit' → lrs !! j = Some lr →
          updater.stateKey (config.ZoneID unit'.1) (config.Name unit'.1) unit'.2
          = updater.stateKey (config.ZoneID unit.1) (config.Name unit.1) unit.2 →
          found_nothing lr) →
       updater.State_Get (m_state m') (config.ZoneID unit.1) (config.Name unit.1) unit.2
       = cf_Content record).
Proof.
  intros m m' evs.
  apply (InitializeState_seeds sim.home_cfg m m' (Returned None) evs).
  vm_compute. reflexivity.
Defined.

(** X12. The bootstrap spares the first pass its writes.  When [InitializeState]
    returned, having found a record for a unit of work, and [updateRecord]
    then detects the address that this record holds, [updateRecord] returns
    nil after reading the state, without any call to the provider. *)
Theorem InitializeState_then_unchanged {E} cfg (m m' m1 : Machine E) r evs i unit record
    others p evs1 :
  let us := updater.units (config.Records cfg) in
  let lrs := (listings us (m_world m)).1 in
  run (updater.InitializeState cfg) m = (Returned r, m', evs) →
  us !! i = Some unit →
  lrs !! i = Some (Ok (record :: others)) →
  (∀ j unit' lr,
     (i < j)%nat → us !! j = Some unit' → lrs !! j = Some lr →
     updater.stateKey (config.ZoneID unit'.1) (config.Name unit'.1) unit'.2
     = updater.stateKey (config.ZoneID unit.1) (config.Name unit.1) unit.2 →
     found_nothing lr) →
  resolver unit.2 = Some p →
  run p m' = (Ok (cf_Content record), m1, evs1) →
  run (updater.updateRecord unit.1 unit.2) m'
  = (Returned None, m1,
     evs1 ++ [EvStateGet (config.ZoneID unit.1) (config.Name unit.1) unit.2
                (cf_Content record)]).
Proof.
  intros us lrs Hrun Hu Hlr Hlater Hres Hp.
  destruct (init_units_cases us m)
    as [Hok|(us1 & unit1 & us2 & lr & w2 & Hus & Hok & Hlist & Hlr1)];
    [|by rewrite (run_InitializeState_panics cfg us1 unit1 us2 lr w2) in Hrun].
  rewrite run_InitializeState_ok in Hrun by done.
  injection Hrun as <- <- <-.
  destruct (run_resolver _ _ _ _ _ _ Hres Hp) as (Hd & Hst & _).
  pose proof (resolves_nonempty _ _ _ Hd) as Hne.
  rewrite updateRecord_resolver, Hres, run_bind, Hp.
  cbn [updater.updateRecord_detected]. rewrite run_updateRecord_compare. cbn zeta.
  rewrite Hst. cbn [m_state set_state].
  rewrite (foldl_seed_last _ _ _ _ _ _ _ Hu Hlr Hlater).
  by rewrite !bool_decide_eq_true_2.
Qed.

Lemma InitializeState_then_unchanged_witness :
  let m := sim.machine sim_io.listed updater.NewState in
  let m' := (run (updater.InitializeState sim.home_cfg) m).1.2 in
  run (updater.updateRecord sim.home "A") m'
  = (Returned None, (run ipdetect.GetIPv4 m').1.2,
     (run ipdetect.GetIPv4 m').2
     ++ [EvStateGet "Z1" "home.example.com" "A" "203.0.113.5"]).
Proof.
  intros m m'.
  apply (InitializeState_then_unchanged sim.home_cfg m m' (run ipdetect.GetIPv4 m').1.2
           None (run (updater.InitializeState sim.home_cfg) m).2 0%nat (sim.home, "A")
           sim_io.listed_record [] ipdetect.GetIPv4 (run ipdetect.GetIPv4 m').2).
  - vm_compute. reflexivity.
  - reflexivity.
  - vm_compute. reflexivity.
  - intros j unit' lr Hij Hu Hl _. destruct j as [|[|j]].
    + lia.
    + vm_compute in Hl. injection Hl as <-. exact I.
    + vm_compute in Hu. discriminate.
  - reflexivity.
  - vm_compute. reflexivity.
Defined.

(** ** The state after a pass *)

Lemma reachable_reads {E} cfg (m0 : Machine E) (p : Pool E) :
  reachable (UpdateAll_spawn cfg m0) p →
  reads_consistent (m_state m0) (p_trace p).*2.
Proof.
  induction 1 as [|p i p' Hreach IH Hstep]; [by intros j z n t v Hj|].
  pose proof (reachable_inv _ _ _ Hreach) as [_ _ _ _ _ _ Hst].
  unfold step in Hstep. destruct (p_exited p); [done|].
  destruct (p_threads p !! i) as [g|]; [|done].
  destruct g as [rec recType [[[err|]|]|X act k]|err|[r|]]; try done.
  - case_bool_decide; [|done]. by injection Hstep as <-.
  - by injection Hstep as <-.
  - by injection Hstep as <-.
  - destruct (handle act (p_machine p)) as [x m] eqn:Hh. injection Hstep as <-.
    cbn [p_trace]. rewrite fmap_app. cbn [fmap list_fmap snd].
    intros j z n t v Hj.
    destruct (decide (j < length (p_trace p).*2)%nat) as [Hlt|Hge].
    + rewrite lookup_app_l in Hj by done. rewrite take_app_le by lia. by apply IH.
    + pose proof (lookup_lt_Some _ _ _ Hj) as Hlen. rewrite length_app in Hlen.
      simpl in Hlen. assert (j = length (p_trace p).*2) as -> by lia.
      rewrite take_app_length. rewrite list_lookup_middle in Hj by done.
      injection Hj as Hev. rewrite <- Hst.
      destruct act; simpl in *; try done. injection Hh as <- _.
      by injection Hev as -> -> -> <-.
  - by injection Hstep as <-.
  - by injection Hstep as <-.
Qed.

(** The writes of the state under the key of a unit that shares its key
    with no other unit are the writes of the unit's goroutine. *)
Lemma own_sets {E} cfg (m0 : Machine E) (p : Pool E) i unit :
  reachable (UpdateAll_spawn cfg m0) p →
  updater.units (config.Records cfg) !! i = Some unit →
  (∀ j unit', updater.units (config.Records cfg) !! j = Some unit' →
     updater.stateKey (config.ZoneID unit'.1) (config.Name unit'.1) unit'.2
     = updater.stateKey (config.ZoneID unit.1) (config.Name unit.1) unit.2 →
     j = i) →
  ∀ tr, tr `prefix_of` p_trace p →
    omap (set_on (updater.stateKey (config.ZoneID unit.1) (config.Name unit.1) unit.2))
      tr.*2
    = omap (set_on (updater.stateKey (config.ZoneID unit.1) (config.Name unit.1) unit.2))
        (thread_trace i tr).
Proof.
  intros Hreach Hu Halone tr [rest Hrest]. apply omap_thread_trace.
  intros j ev Hin [a Ha]. destruct ev; try done. simpl in Ha. case_decide as Hk; [|done].
  assert ((j, EvStateSet zoneID name recordType ip) ∈ p_trace p) as Hin'.
  { rewrite Hrest. apply elem_of_app. by left. }
  destruct (pass_sets_own_keys _ _ _ _ _ _ _ _ Hreach Hin') as (unit' & Hu' & Hkey).
  apply (Halone j unit' Hu'). unfold unit_key in Hkey. by injection Hkey as -> -> ->.
Qed.

Lemma no_sets_on k tr : omap set_of tr = [] → omap (set_on k) tr = [].
Proof.
  induction tr as [|ev tr IH]; [done|]. destruct ev; simpl; try done; by apply IH.
Qed.

Lemma thread_trace_app i tr1 tr2 :
  thread_trace i (tr1 ++ tr2) = thread_trace i tr1 ++ thread_trace i tr2.
Proof. unfold thread_trace. by rewrite filter_app, fmap_app. Qed.

(** The entry of a unit whose goroutine has gone through a complete path
    of [updateRecord] that ends without error. *)
Lemma nil_path_holds_address {E} cfg (m0 : Machine E) (p : Pool E) i unit :
  reachable (UpdateAll_spawn cfg m0) p →
  updater.units (config.Records cfg) !! i = Some unit →
  (∀ j unit', updater.units (config.Records cfg) !! j = Some unit' →
     updater.stateKey (config.ZoneID unit'.1) (config.Name unit'.1) unit'.2
     = updater.stateKey (config.ZoneID unit.1) (config.Name unit.1) unit.2 →
     j = i) →
  unit_path unit.1 unit.2 (thread_trace i (p_trace p)) (Returned None) →
  ∃ url ip,
    EvFetchIP url (family unit.2) (Ok ip) ∈ thread_trace i (p_trace p)
    ∧ ip ≠ ""
    ∧ updater.State_Get (m_state (p_machine p)) (config.ZoneID unit.1)
        (config.Name unit.1) unit.2 = ip.
Proof.
  intros Hreach Hu Halone Hthr.
  pose proof (reachable_inv _ _ _ Hreach) as [_ _ _ _ _ _ Hst].
  pose proof (own_sets _ _ _ _ _ Hreach Hu Halone) as Hown.
  remember (thread_trace i (p_trace p)) as tri eqn:Htri.
  remember (Returned (@None error)) as r eqn:Hr.
  destruct Hthr as [Hn4 Hn6|trR err HR|trR currentIP HR Hne
                    |trR currentIP lastKnownIP tru err HR Hchg Hup
                    |trR currentIP lastKnownIP tru HR Hchg Hup
                    |trR currentIP lastKnownIP tru HR Hchg Hup]; try done.
  - (* the address was found in the state *)
    destruct (resolves_answer_family _ _ _ HR) as [url Hurl].
    exists url, currentIP. split; [apply elem_of_app; by left|]. split; [done|].
    destruct (resolver_events_no_sets _ (resolves_events _ _ _ HR)) as (HsR & _).
    assert (omap set_of
              (trR ++ [EvStateGet (config.ZoneID unit.1) (config.Name unit.1) unit.2
                         currentIP]) = []) as Hquiet.
    { by rewrite omap_app, HsR. }
    assert ((i, EvStateGet (config.ZoneID unit.1) (config.Name unit.1) unit.2 currentIP)
            ∈ p_trace p) as Hin.
    { apply thread_trace_elem. rewrite <- Htri. apply elem_of_app. right.
      by apply list_elem_of_singleton. }
    apply list_elem_of_lookup_1 in Hin as [j Hj].
    pose proof (reachable_reads _ _ _ Hreach j (config.ZoneID unit.1) (config.Name unit.1)
                  unit.2 currentIP) as Hread.
    rewrite list_lookup_fmap, Hj in Hread. specialize (Hread eq_refl).
    rewrite <- fmap_take in Hread.
    assert (omap (set_on (updater.stateKey (config.ZoneID unit.1) (config.Name unit.1)
                            unit.2)) (thread_trace i (p_trace p)) = []) as Hall.
    { rewrite <- Htri. by apply no_sets_on. }
    unfold updater.State_Get in *. rewrite Hst, replay_lookup.
    rewrite replay_lookup in Hread.
    rewrite (Hown (p_trace p)), Hall by done.
    rewrite (Hown (take j (p_trace p))) in Hread by apply prefix_take.
    rewrite <- (take_drop j (p_trace p)), thread_trace_app, omap_app in Hall.
    apply app_eq_nil in Hall as [Hall _]. rewrite Hall in Hread. by simpl in *.
  - (* the address was written *)
    destruct (resolves_answer_family _ _ _ HR) as [url Hurl].
    exists url, currentIP. split; [apply elem_of_app; by left|].
    split; [by eapply resolves_nonempty|].
    unfold updater.State_Get. rewrite Hst, replay_lookup.
    rewrite (Hown (p_trace p)), <- Htri by done.
    rewrite app_comm_cons, app_assoc, omap_app. simpl. rewrite decide_True by done.
    by rewrite last_snoc.
Qed.

(** X13. After a pass, and already during it: once the goroutine of a unit of
    work has terminated with [updateRecord] returning nil, the state holds
    under the unit's key an address that a lookup service of the unit's
    family gave to that goroutine, and the address is not empty, provided no
    other unit shares the key.  This holds under every schedule, whether the
    goroutine wrote the address or found it there. *)
Theorem UpdateAll_postcondition {E} cfg (m0 : Machine E) (p : Pool E) i unit :
  reachable (UpdateAll_spawn cfg m0) p →
  updater.units (config.Records cfg) !! i = Some unit →
  (∀ j unit', updater.units (config.Records cfg) !! j = Some unit' →
     updater.stateKey (config.ZoneID unit'.1) (config.Name unit'.1) unit'.2
     = updater.stateKey (config.ZoneID unit.1) (config.Name unit.1) unit.2 →
     j = i) →
  p_threads p !! i = Some (updater.GoDone (Returned None)) →
  ∃ url ip,
    EvFetchIP url (family unit.2) (Ok ip) ∈ thread_trace i (p_trace p)
    ∧ ip ≠ ""
    ∧ updater.State_Get (m_state (p_machine p)) (config.ZoneID unit.1)
        (config.Name unit.1) unit.2 = ip.
Proof.
  intros Hreach Hu Halone Hg. apply (nil_path_holds_address cfg m0); [done..|].
  pose proof (reachable_inv _ _ _ Hreach) as [_ Hthr _ _ _ _ _].
  specialize (Hthr i unit _ Hu Hg). cbn [thread_ok] in Hthr.
  by apply updateRecord_returns.
Qed.

Lemma UpdateAll_postcondition_witness :
  let p := exec [0; 1; 0; 0; 1; 0; 0; 0; 0]%nat
             (UpdateAll_spawn sim.home_cfg (sim.machine sim.fresh updater.NewState)) in
  ∃ url ip,
    EvFetchIP url (family "A") (Ok ip) ∈ thread_trace 0 (p_trace p)
    ∧ ip ≠ ""
    ∧ updater.State_Get (m_state (p_machine p)) "Z1" "home.example.com" "A" = ip.
Proof.
  intros p.
  apply (UpdateAll_postcondition sim.home_cfg (sim.machine sim.fresh updater.NewState) p
           0%nat (sim.home, "A")).
  - apply exec_reachable.
  - reflexivity.
  - intros j unit' Hu Hk. destruct j as [|[|j]].
    + reflexivity.
    + vm_compute in Hu. injection Hu as <-. vm_compute in Hk. discriminate.
    + vm_compute in Hu. discriminate.
  - vm_compute. reflexivity.
Defined.

(** ** A pass in the steady state *)

Lemma resolver_events_quiet tr :
  Forall (λ ev, is_resolver_event ev = true) tr → Forall (λ ev, quiet ev = true) tr.
Proof. intros H. eapply Forall_impl; [exact H|]. by intros []. Qed.

Lemma quiet_no_sets tr : Forall (λ ev, quiet ev = true) tr → omap set_of tr = [].
Proof.
  induction 1 as [|ev tr Hev _ IH]; [done|]. destruct ev; simpl in *; try done.
Qed.

Lemma upsert_path_first z n t c ttl p tru out :
  upsert_path z n t c ttl p tru out → ∃ lr rest, tru = EvList z n t lr :: rest.
Proof. intros [record others ur Hpx|lr cr Hlr|record others Hpx]; eauto. Qed.

(** The first call to the provider on a path of [updateRecord] comes right
    after the read of the state, and the address read differs from the
    address detected, or is empty. *)
Lemma residual_first_call record recordType tr ev q :
  residual (updater.updateRecord record recordType) (tr ++ [ev]) q →
  Forall (λ e, quiet e = true) tr →
  quiet ev = false →
  ∃ trR currentIP lastKnownIP,
    tr = trR ++ [EvStateGet (config.ZoneID record) (config.Name record) recordType
                   lastKnownIP]
    ∧ resolves recordType trR (Ok currentIP)
    ∧ (currentIP ≠ lastKnownIP ∨ lastKnownIP = "").
Proof.
  intros Hres Htr Hev. destruct (residual_complete q) as (tr' & r & Hq).
  pose proof (residual_app _ _ _ _ _ Hres Hq) as Hfull.
  apply updateRecord_returns in Hfull. rewrite <- app_assoc in Hfull.
  remember (tr ++ [ev] ++ tr') as full eqn:Heq.
  assert (∀ trR currentIP lastKnownIP first rest,
            resolves recordType trR (Ok currentIP) →
            currentIP ≠ lastKnownIP ∨ lastKnownIP = "" →
            quiet first = false →
            full = (trR ++ [EvStateGet (config.ZoneID record) (config.Name record)
                              recordType lastKnownIP]) ++ first :: rest →
            ∃ trR currentIP lastKnownIP,
              tr = trR ++ [EvStateGet (config.ZoneID record) (config.Name record)
                             recordType lastKnownIP]
              ∧ resolves recordType trR (Ok currentIP)
              ∧ (currentIP ≠ lastKnownIP ∨ lastKnownIP = "")) as Hcase.
  { intros trR currentIP lastKnownIP first rest HR Hchg Hfirst Hfull'.
    assert (Forall (λ e, quiet e = true)
              (trR ++ [EvStateGet (config.ZoneID record) (config.Name record) recordType
                         lastKnownIP])) as Hhead.
    { apply Forall_app. split; [|by repeat constructor].
      by apply resolver_events_quiet, (resolves_events _ _ _ HR). }
    rewrite Heq in Hfull'.
    apply app_eq_inv in Hfull' as [(k & Hk1 & Hk2)|(k & Hk1 & Hk2)].
    - destruct k as [|e k];
        [rewrite app_nil_r in Hk1; by exists trR, currentIP, lastKnownIP|exfalso].
      injection Hk2 as <- _. rewrite Hk1 in Htr.
      apply Forall_app in Htr as [_ Htr]. apply Forall_cons in Htr as [Htr _]. congruence.
    - destruct k as [|e k];
        [rewrite app_nil_r in Hk1; by exists trR, currentIP, lastKnownIP|exfalso].
      injection Hk2 as <- _. rewrite Hk1 in Hhead.
      apply Forall_app in Hhead as [_ Hhead]. apply Forall_cons in Hhead as [Hhead _].
      congruence. }
  assert (ev ∈ full) as Hin.
  { rewrite Heq. apply elem_of_app. right. apply elem_of_cons. by left. }
  destruct Hfull as [Hn4 Hn6|trR err HR|trR currentIP HR Hne
                     |trR currentIP lastKnownIP tru err HR Hchg Hup
                     |trR currentIP lastKnownIP tru HR Hchg Hup
                     |trR currentIP lastKnownIP tru HR Hchg Hup].
  - by apply elem_of_nil in Hin.
  - pose proof (resolver_events_quiet _ (resolves_events _ _ _ HR)) as Hall.
    rewrite Forall_forall in Hall. apply Hall in Hin. congruence.
  - pose proof (resolver_events_quiet _ (resolves_events _ _ _ HR)) as Hall.
    rewrite Forall_forall in Hall.
    apply elem_of_app in Hin as [Hin|Hin]; [apply Hall in Hin; congruence|].
    apply list_elem_of_singleton in Hin as ->. done.
  - apply upsert_path_first in Hup as (lr & rest & ->).
    eapply (Hcase trR currentIP lastKnownIP); [done..| |by rewrite <- app_assoc]. done.
  - apply upsert_path_first in Hup as (lr & rest & ->).
    eapply (Hcase trR currentIP lastKnownIP); [done..| |by rewrite <- app_assoc]. done.
  - apply upsert_path_first in Hup as (lr & rest & ->).
    eapply (Hcase trR currentIP lastKnownIP); [done..| |by rewrite <- app_assoc]. done.
Qed.

Lemma apply_event_quiet s ev : quiet ev = true → apply_event s ev = s.
Proof. by destruct ev. Qed.

(** While the state agrees with the lookups, the goroutines neither call
    the provider nor write the state. *)
Lemma steady_state_quiet {E} cfg (m0 : Machine E) (p : Pool E) (addr : bool → string) :
  reachable (UpdateAll_spawn cfg m0) p →
  (∀ unit, unit ∈ updater.units (config.Records cfg) →
     updater.State_Get (m_state m0) (config.ZoneID unit.1) (config.Name unit.1) unit.2
     = addr (family unit.2)) →
  (∀ j url isIPv6 ip, (j, EvFetchIP url isIPv6 (Ok ip)) ∈ p_trace p → ip = addr isIPv6) →
  Forall (λ e, quiet e.2 = true) (p_trace p)
  ∧ m_state (p_machine p) = m_state m0.
Proof.
  intros Hreach Hstate Hans.
  induction Hreach as [|p i p' Hreach IH Hstep]; [done|].
  assert (reachable (UpdateAll_spawn cfg m0) p') as Hreach' by (by eapply reach_step).
  unfold step in Hstep. destruct (p_exited p); [done|].
  destruct (p_threads p !! i) as [g|] eqn:Hg; [|done].
  destruct g as [rec recType [[[err|]|]|X act k]|err|[r|]]; try done;
    [| | | |by injection Hstep as <-; apply IH..].
  - case_bool_decide; [|done]. injection Hstep as <-. by apply IH.
  - injection Hstep as <-. by apply IH.
  - injection Hstep as <-. by apply IH.
  - pose proof (handle_state act (p_machine p)) as Hhs.
    destruct (handle act (p_machine p)) as [x m] eqn:Hh.
    assert (p_trace p' = p_trace p ++ [(i, event_of act x)]
            ∧ p_machine p' = m) as [Htr' Hm'] by (by injection Hstep as <-).
    clear Hstep. rewrite Htr' in Hans. rewrite Htr', Hm'. cbn [fst snd] in Hhs.
    destruct IH as [IHq IHs].
    { intros j url isIPv6 ip Hin. apply (Hans j url). apply elem_of_app. by left. }
    assert (quiet (event_of act x) = true) as Hquiet.
    { destruct (quiet (event_of act x)) eqn:Hev; [done|exfalso].
      destruct (trace_thread_residual cfg m0 p' i (event_of act x) Hreach')
        as (unit & q & Hu & Hres & _).
      { rewrite Htr'. apply elem_of_app. right. by apply list_elem_of_singleton. }
      rewrite Htr', thread_trace_snoc, decide_True in Hres by done.
      assert (Forall (λ e, quiet e = true) (thread_trace i (p_trace p))) as Hqi.
      { apply Forall_forall. intros e He. apply thread_trace_elem in He.
        rewrite Forall_forall in IHq. by apply (IHq (i, e)). }
      destruct (residual_first_call _ _ _ _ _ Hres Hqi Hev)
        as (trR & currentIP & lastKnownIP & Htri & HR & Hchg).
      pose proof (resolves_nonempty _ _ _ HR) as Hne.
      destruct (resolves_answer_family _ _ _ HR) as [url Hurl].
      assert (currentIP = addr (family unit.2)) as Hcur.
      { apply (Hans i url). apply elem_of_app. left. apply thread_trace_elem.
        rewrite Htri. apply elem_of_app. by left. }
      assert (lastKnownIP = addr (family unit.2)) as Hlast.
      { assert ((i, EvStateGet (config.ZoneID unit.1) (config.Name unit.1) unit.2
                      lastKnownIP) ∈ p_trace p) as Hin.
        { apply thread_trace_elem. rewrite Htri. apply elem_of_app. right.
          by apply list_elem_of_singleton. }
        apply list_elem_of_lookup_1 in Hin as [j Hj].
        pose proof (reachable_reads _ _ _ Hreach j (config.ZoneID unit.1)
                      (config.Name unit.1) unit.2 lastKnownIP) as Hread.
        rewrite list_lookup_fmap, Hj in Hread. specialize (Hread eq_refl).
        rewrite replay_no_sets in Hread.
        - rewrite Hread. apply Hstate. by eapply list_elem_of_lookup_2.
        - apply quiet_no_sets, Forall_take, Forall_fmap.
          eapply Forall_impl; [exact IHq|]. by intros [??]. }
      destruct Hchg as [Hchg| ->]; congruence. }
    split.
    + apply Forall_app. split; [done|]. by apply Forall_singleton.
    + by rewrite Hhs, apply_event_quiet.
Qed.

(** X14. A pass in the steady state is silent.  When the state holds, for every
    unit of work, the address of the unit's family, and the lookup services
    that answer during the pass give these addresses, then under every
    schedule and at every moment of the pass no goroutine has called the
    provider, and the state is the one the pass started with. *)
Theorem UpdateAll_steady_state {E} cfg (m0 : Machine E) (p : Pool E) (addr : bool → string) :
  reachable (UpdateAll_spawn cfg m0) p →
  (∀ unit, unit ∈ updater.units (config.Records cfg) →
     updater.State_Get (m_state m0) (config.ZoneID unit.1) (config.Name unit.1) unit.2
     = addr (family unit.2)) →
  (∀ j url isIPv6 ip, (j, EvFetchIP url isIPv6 (Ok ip)) ∈ p_trace p → ip = addr isIPv6) →
  Forall (λ e, is_provider_event e.2 = false) (p_trace p)
  ∧ m_state (p_machine p) = m_state m0.
Proof.
  intros Hreach Hstate Hans.
  destruct (steady_state_quiet cfg m0 p addr Hreach Hstate Hans) as [Hq Hs].
  split; [|done]. eapply Forall_impl; [exact Hq|]. intros [j ev] Hev. simpl in *.
  by destruct ev.
Qed.

Lemma UpdateAll_steady_state_witness :
  let m0 := sim.machine sim.fresh sim_io.settled in
  let p := exec [0; 1; 0; 1; 0; 1; 0; 1]%nat (UpdateAll_spawn sim.home_cfg m0) in
  Forall (λ e, is_provider_event e.2 = false) (p_trace p)
  ∧ m_state (p_machine p) = m_state m0.
Proof.
  intros m0 p.
  apply (UpdateAll_steady_state sim.home_cfg m0 p sim_io.addr).
  - apply exec_reachable.
  - intros unit Hin.
    change (unit ∈ [(sim.home, "A"); (sim.home, "AAAA")]) in Hin.
    apply elem_of_cons in Hin as [->|Hin]; [reflexivity|].
    apply elem_of_cons in Hin as [->|Hin]; [reflexivity|].
    by apply elem_of_nil in Hin.
  - intros j url isIPv6 ip Hin. vm_compute in Hin.
    repeat (apply elem_of_cons in Hin as [Heq|Hin];
            [try discriminate; injection Heq as -> -> -> ->; reflexivity|]).
    by apply elem_of_nil in Hin.
Defined.

(** ** When UpdateAll returns, and what *)

Lemma NoDup_types_length (types : list string) :
  NoDup types → Forall (λ t, t = "A" ∨ t = "AAAA") types → (length types ≤ 2)%nat.
Proof.
  intros Hnd Hall.
  assert (types ⊆+ ["A"; "AAAA"]) as Hsub.
  { apply NoDup_submseteq; [done|]. intros t Ht. rewrite Forall_forall in Hall.
    destruct (Hall t Ht) as [-> | ->]; set_solver. }
  by apply submseteq_length in Hsub.
Qed.

Lemma validated_types_bounded ParseDuration cfg :
  config.Validate ParseDuration cfg = None →
  Forall (λ r, NoDup (config.Types r)) (config.Records cfg) →
  Forall (λ r, (length (config.Types r) ≤ 2)%nat) (config.Records cfg).
Proof.
  intros Hv Hnd. apply Validate_records_ok in Hv as (_ & _ & _ & _ & Hok).
  rewrite Forall_forall in Hok, Hnd. apply Forall_forall. intros r Hr.
  destruct (Hok r Hr) as (_ & _ & _ & Htypes & _). apply NoDup_types_length; auto.
Qed.

(** The program terminates only on the panic of a goroutine. *)
Lemma exited_after_panic {E} cfg (m0 : Machine E) (p : Pool E) :
  reachable (UpdateAll_spawn cfg m0) p →
  p_exited p = true →
  ∃ i, p_threads p !! i = Some (updater.GoDone Panicked).
Proof.
  induction 1 as [|p i p' _ IH Hstep]; [done|]. intros Hex.
  unfold step in Hstep. destruct (p_exited p); [done|].
  destruct (p_threads p !! i) as [g|] eqn:Hg; [|done].
  destruct g as [rec recType [[[err|]|]|X act k]|err|[r|]]; try done;
    try (by injection Hstep as <-).
  - case_bool_decide; [|done]. by injection Hstep as <-.
  - destruct (handle act (p_machine p)). by injection Hstep as <-.
  - injection Hstep as <-. by exists i.
Qed.

(** X15. For a configuration that [Validate] accepts and in which no record
    names a type twice, [UpdateAll] returns under every schedule that keeps
    running the goroutines that can run, unless a goroutine panics and the
    program terminates.  At every moment of a pass: the pass has taken at
    most 11 steps per unit of work; while the program runs and [UpdateAll]
    has not returned, some goroutine can take a step that leaves the
    program running, so that no goroutine is left blocked on the channel of
    errors; and some schedule leads from there to the return of
    [UpdateAll].  The channel has room for every error, there being at most
    two units of work per record.  The program has terminated only if a
    goroutine has panicked. *)
Theorem UpdateAll_returns_without_repeated_types {E} ParseDuration cfg (m0 : Machine E)
    n (p : Pool E) :
  config.Validate ParseDuration cfg = None →
  Forall (λ r, NoDup (config.Types r)) (config.Records cfg) →
  reachable_in (UpdateAll_spawn cfg m0) n p →
  (n ≤ 11 * length (updater.units (config.Records cfg)))%nat
  ∧ (length (updater.units (config.Records cfg)) ≤ p_cap p)%nat
  ∧ (p_exited p = false →
     (UpdateAll_collect p = None → ∃ i p', step i p = Some p' ∧ p_exited p' = false)
     ∧ ∃ sched r, UpdateAll_collect (exec sched p) = Some r)
  ∧ (p_exited p = true → ∃ i, p_threads p !! i = Some (updater.GoDone Panicked)).
Proof.
  intros Hv Hnd Hreach.
  pose proof (validated_types_bounded _ _ Hv Hnd) as Hlen.
  pose proof (reachable_in_reachable _ _ _ Hreach) as Hreach'.
  pose proof (reachable_inv _ _ _ Hreach') as [_ _ _ Hcap _ _ _].
  split; [by eapply UpdateAll_steps_bounded|]. split; [|split].
  - rewrite Hcap. by apply units_length_le.
  - intros Hex. split; [by apply (UpdateAll_progress cfg m0)|by eapply UpdateAll_returns].
  - by apply (exited_after_panic cfg m0).
Qed.

Lemma UpdateAll_returns_without_repeated_types_witness :
  let m0 := sim.machine sim.offline updater.NewState in
  let p := exec [0; 0; 1]%nat (UpdateAll_spawn sim.home_cfg m0) in
  (3 ≤ 11 * length (updater.units (config.Records sim.home_cfg)))%nat
  ∧ (length (updater.units (config.Records sim.home_cfg)) ≤ p_cap p)%nat
  ∧ (p_exited p = false →
     (UpdateAll_collect p = None → ∃ i p', step i p = Some p' ∧ p_exited p' = false)
     ∧ ∃ sched r, UpdateAll_collect (exec sched p) = Some r)
  ∧ (p_exited p = true → ∃ i, p_threads p !! i = Some (updater.GoDone Panicked)).
Proof.
  intros m0 p.
  apply (UpdateAll_returns_without_repeated_types sim.ParseDuration sim.home_cfg m0 3 p).
  - reflexivity.
  - apply (bool_decide_unpack _). vm_compute. reflexivity.
  - apply (reach_in_S _ 2 (exec [0; 0]%nat (UpdateAll_spawn sim.home_cfg m0)) 1%nat);
      [apply (reach_in_S _ 1 (exec [0]%nat (UpdateAll_spawn sim.home_cfg m0)) 0%nat);
       [apply (reach_in_S _ 0 (UpdateAll_spawn sim.home_cfg m0) 0%nat);
        [apply reach_in_O|]|]|]; vm_compute; reflexivity.
Defined.

(** X16. What [UpdateAll] returns, when it returns, is the count of the units of
    work that failed: every goroutine is over, each on a complete path of
    [updateRecord] for its unit, to a return or to a panic; the result is
    nil if and only if no [updateRecord] returned an error, and otherwise
    the error "encountered K errors during update" with K the number of
    calls that returned an error, between 1 and the number of units. *)
Theorem UpdateAll_counts_failures {E} sched cfg (m m' : Machine E) r :
  UpdateAll sched cfg m = (Some r, m') →
  let p := exec sched (UpdateAll_spawn cfg m) in
  ∃ outcomes : list (outcome (option error)),
    p_threads p = updater.GoDone <$> outcomes
    ∧ length outcomes = length (updater.units (config.Records cfg))
    ∧ (∀ i unit o,
         updater.units (config.Records cfg) !! i = Some unit →
         outcomes !! i = Some o →
         returns (updater.updateRecord unit.1 unit.2) (thread_trace i (p_trace p)) o)
    ∧ (r = None ↔ Forall (λ o, o = Returned None ∨ o = Panicked) outcomes)
    ∧ (∀ e, r = Some e →
         e = ErrEncountered (count is_failure outcomes)
         ∧ (1 ≤ count is_failure outcomes ≤ length (updater.units (config.Records cfg)))%nat)
    ∧ m' = p_machine p.
Proof.
  intros H p. unfold UpdateAll in H. cbv zeta in H. injection H as Hc <-.
  destruct (UpdateAll_aggregate cfg m p r (exec_reachable _ sched) Hc)
    as (outcomes & Hthr & Hlen & Hpaths & Hr & _ & _).
  exists outcomes. split; [done|]. split; [done|]. split.
  { intros i unit o Hu Ho. by apply updateRecord_returns, Hpaths. }
  assert (count is_failure outcomes ≤ length outcomes)%nat as Hle.
  { clear. induction outcomes as [|[[e|]|] outcomes IH]; simpl; [lia|unfold count in *..];
      simpl; lia. }
  split; [|split; [|done]].
  - rewrite Hr. case_bool_decide as Hz.
    + split; [intros _|done]. apply count_zero in Hz.
      eapply Forall_impl; [exact Hz|]. intros [[e|]|]; auto. done.
    + split; [done|]. intros Hall. exfalso. apply Hz, count_zero.
      eapply Forall_impl; [exact Hall|]. by intros o [-> | ->].
  - intros e He. rewrite Hr in He. case_bool_decide as Hz; [done|].
    injection He as <-. split; [done|]. lia.
Qed.

Lemma UpdateAll_counts_failures_witness :
  let m := sim.machine sim.unlistable updater.NewState in
  let sched := [0; 0; 0; 0; 0; 0; 0; 1; 1; 1; 1; 1; 1; 1]%nat in
  let p := exec sched (UpdateAll_spawn sim.home_cfg m) in
  ∃ outcomes : list (outcome (option error)),
    p_threads p = updater.GoDone <$> outcomes
    ∧ length outcomes = length (updater.units (config.Records sim.home_cfg))
    ∧ (∀ i unit o,
         updater.units (config.Records sim.home_cfg) !! i = Some unit →
         outcomes !! i = Some o →
         returns (updater.updateRecord unit.1 unit.2) (thread_trace i (p_trace p)) o)
    ∧ (@None error = None ↔ Forall (λ o, o = Returned None ∨ o = Panicked) outcomes)
    ∧ (∀ e, None = Some e →
         e = ErrEncountered (count is_failure outcomes)
         ∧ (1 ≤ count is_failure outcomes
            ≤ length (updater.units (config.Records sim.home_cfg)))%nat)
    ∧ (UpdateAll sched sim.home_cfg m).2 = p_machine p.
Proof.
  intros m sched.
  apply (UpdateAll_counts_failures sched sim.home_cfg m (UpdateAll sched sim.home_cfg m).2
           None).
  vm_compute. reflexivity.
Defined.

(** X17. The causes of a failure of [updateRecord], for a unit of work of a
    configuration that [Validate] accepts.  Either every lookup service of
    the unit's family failed, all of them having been asked, and the error
    is "failed to detect IP"; or the one write to the provider, an update or
    a creation, was refused, and the error wraps the provider's.  The
    record type is never refused, and a listing that fails is never the
    cause of an error.  In both cases the state is left as it was. *)
Theorem updateRecord_failure_causes {E} ParseDuration cfg (m m' : Machine E) unit e evs :
  config.Validate ParseDuration cfg = None →
  unit ∈ updater.units (config.Records cfg) →
  run (updater.updateRecord unit.1 unit.2) m = (Returned (Some e), m', evs) →
  m_state m' = m_state m
  ∧ ((e = ErrFailedDetectIP (if family unit.2 then ErrDetectIPv6 else ErrDetectIPv4)
      ∧ Forall (λ ev, ∃ url err, ev = EvFetchIP url (family unit.2) err
                                 ∧ usable err = false) evs
      ∧ length evs = (if family unit.2 then 3 else 4)%nat)
     ∨ (∃ pre lr w err,
          evs = pre ++ [EvList (config.ZoneID unit.1) (config.Name unit.1) unit.2 lr; w]
          ∧ Forall (λ ev, is_provider_event ev = false) pre
          ∧ ((∃ id c, w = EvUpdate (config.ZoneID unit.1) id c (config.TTL unit.1)
                            (config.Proxied unit.1) (Err err)
                      ∧ e = ErrFailedUpdateCloudflare (ErrUpdateDNS err))
             ∨ (∃ c, w = EvCreate (config.ZoneID unit.1) (config.Name unit.1) unit.2 c
                           (config.TTL unit.1) (config.Proxied unit.1) (Err err)
                     ∧ e = ErrFailedUpdateCloudflare (ErrCreateDNS err))))).
Proof.
  intros Hv Hin Hrun.
  assert (unit.2 = "A" ∨ unit.2 = "AAAA") as Htype.
  { apply Validate_records_ok in Hv as (_ & _ & _ & _ & Hok).
    apply elem_of_units in Hin as [Hrec Ht]. rewrite Forall_forall in Hok.
    destruct (Hok _ Hrec) as (_ & _ & _ & Htypes & _). rewrite Forall_forall in Htypes.
    by apply Htypes. }
  pose proof (run_state _ _ _ _ _ Hrun) as Hst.
  apply run_returns, updateRecord_returns in Hrun.
  rewrite (replay_no_sets _ _ (unit_path_failed _ _ _ _ Hrun ltac:(done))) in Hst.
  split; [done|].
  remember (Returned (Some e)) as r eqn:Hr.
  destruct Hrun as [Hn4 Hn6|trR err HR|trR currentIP HR Hne
                    |trR currentIP lastKnownIP tru err HR Hchg Hup
                    |trR currentIP lastKnownIP tru HR Hchg Hup
                    |trR currentIP lastKnownIP tru HR Hchg Hup]; try done.
  - by destruct Htype.
  - left. injection Hr as <-.
    assert (∃ isIPv6 services,
              family unit.2 = isIPv6
              ∧ length services = (if isIPv6 then 3 else 4)%nat
              ∧ returns (ipdetect.GetIP_loop isIPv6 services) trR (Err err))
      as (isIPv6 & services & Hfam & Hlen & Hret).
    { destruct HR as [[Ht H]|[Ht H]]; rewrite Ht; [by exists false, ipdetect.ipv4Services|].
      by exists true, ipdetect.ipv6Services. }
    rewrite Hfam. pose proof (GetIP_loop_order _ _ _ _ Hret)
      as (answers & Hfetch & _ & Hlen' & Hall & Hcache & ->).
    apply GetIP_loop_returns in Hret as (Hres & _ & Hl). split; [done|].
    split; [|by rewrite Hl].
    clear -Hres Hfetch Hall Hcache Hlen'. revert answers services Hfetch Hall Hlen'.
    induction trR as [|ev trR IH]; intros answers services Hfetch Hall Hlen'; [done|].
    apply Forall_cons in Hres as [Hev Hres].
    destruct ev; try done.
    destruct services as [|service services]; destruct answers as [|a answers]; try done.
    simpl in Hfetch. injection Hfetch as -> -> -> Hfetch.
    apply Forall_cons in Hall as [Ha Hall]. simpl in *.
    constructor; [by eauto|]. apply (IH Hres Hcache answers services); auto.
  - right. injection Hr as <-. exists (trR ++ [EvStateGet (config.ZoneID unit.1)
      (config.Name unit.1) unit.2 lastKnownIP]).
    destruct (resolver_events_no_sets _ (resolves_events _ _ _ HR)) as (_ & _ & _ & Hprov).
    remember (Returned (Some err)) as o eqn:Ho.
    destruct Hup as [record others ur Hpx|lr cr Hlr|record others Hpx]; [| |done].
    + destruct ur as [|uerr]; [done|]. injection Ho as Ho. subst err.
      exists (Ok (record :: others)), (EvUpdate (config.ZoneID unit.1) (cf_ID record)
        currentIP (config.TTL unit.1) (config.Proxied unit.1) (Err uerr)), uerr.
      split; [by rewrite <- app_assoc|]. split; [|by left; eauto].
      apply Forall_app. split; [done|]. by repeat constructor.
    + destruct cr as [made|cerr]; [unfold created in Ho; by destruct (cf_Proxied made)|].
      injection Ho as Ho. subst err.
      exists lr, (EvCreate (config.ZoneID unit.1) (config.Name unit.1) unit.2 currentIP
        (config.TTL unit.1) (config.Proxied unit.1) (Err cerr)), cerr.
      split; [by rewrite <- app_assoc|]. split; [|by right; eauto].
      apply Forall_app. split; [done|]. by repeat constructor.
Qed.

Lemma updateRecord_failure_causes_witness :
  let m := sim.machine sim.offline updater.NewState in
  let m' := (run (updater.updateRecord sim.home "A") m).1.2 in
  let evs := (run (updater.updateRecord sim.home "A") m).2 in
  let e := ErrFailedDetectIP ErrDetectIPv4 in
  m_state m' = m_state m
  ∧ ((e = ErrFailedDetectIP (if family "A" then ErrDetectIPv6 else ErrDetectIPv4)
      ∧ Forall (λ ev, ∃ url err, ev = EvFetchIP url (family "A") err
                                 ∧ usable err = false) evs
      ∧ length evs = (if family "A" then 3 else 4)%nat)
     ∨ (∃ pre lr w err,
          evs = pre ++ [EvList "Z1" "home.example.com" "A" lr; w]
          ∧ Forall (λ ev, is_provider_event ev = false) pre
          ∧ ((∃ id c, w = EvUpdate "Z1" id c 120 false (Err err)
                      ∧ e = ErrFailedUpdateCloudflare (ErrUpdateDNS err))
             ∨ (∃ c, w = EvCreate "Z1" "home.example.com" "A" c 120 false (Err err)
                     ∧ e = ErrFailedUpdateCloudflare (ErrCreateDNS err))))).
Proof.
  intros m m' evs e.
  apply (updateRecord_failure_causes sim.ParseDuration sim.home_cfg m m' (sim.home, "A")
           e evs).
  - reflexivity.
  - change ((sim.home, "A") ∈ [(sim.home, "A"); (sim.home, "AAAA")]).
    apply elem_of_cons. left. reflexivity.
  - vm_compute. reflexivity.
Defined.

(** ** Where the entries of the state come from *)

(** A write of the state on a path of [updateRecord], complete or not,
    comes after a write to the provider that the provider confirmed, with
    the same address. *)
Lemma residual_set_confirmed record recordType tr q z n t ip :
  residual (updater.updateRecord record recordType) tr q →
  EvStateSet z n t ip ∈ tr →
  ∃ w, w ∈ tr ∧ confirmed_write_of w = Some ip.
Proof.
  intros Hres Hin. destruct (residual_complete q) as (tr' & r & Hq).
  pose proof (residual_app _ _ _ _ _ Hres Hq) as Hfull.
  assert (∀ l, omap set_of l = [] → EvStateSet z n t ip ∉ l) as Hnot.
  { intros l Hl Hel.
    assert ((z, n, t, ip) ∈ omap set_of l) as Hs
      by (apply list_elem_of_omap; by exists (EvStateSet z n t ip)).
    rewrite Hl in Hs. by apply elem_of_nil in Hs. }
  apply updateRecord_returns, unit_path_sets in Hfull
    as [[Hs _]|(pre & w & ip' & _ & Heq & Hw & Hs & _)].
  { destruct (Hnot _ Hs). apply elem_of_app. by left. }
  assert (omap set_of (pre ++ [w]) = []) as Hs'.
  { rewrite omap_app, Hs. by destruct w. }
  change (pre ++ [w; EvStateSet (config.ZoneID record) (config.Name record) recordType ip'])
    with (pre ++ [w] ++ [EvStateSet (config.ZoneID record) (config.Name record) recordType
                           ip']) in Heq.
  rewrite app_assoc in Heq.
  apply app_eq_inv in Heq as [(k & Hk1 & Hk2)|(k & Hk1 & Hk2)].
  - destruct k as [|e k].
    + rewrite app_nil_r in Hk1. rewrite Hk1 in Hin. by destruct (Hnot _ Hs').
    + injection Hk2 as <- Hk2. symmetry in Hk2. apply app_eq_nil in Hk2 as [-> ->].
      rewrite Hk1 in Hin. apply elem_of_app in Hin as [Hin|Hin];
        [by destruct (Hnot _ Hs')|].
      apply list_elem_of_singleton in Hin. injection Hin as -> -> -> ->.
      exists w. split; [|done]. rewrite Hk1. apply elem_of_app. left.
      apply elem_of_app. right. by apply list_elem_of_singleton.
  - destruct (Hnot _ Hs'). rewrite Hk1. apply elem_of_app. by left.
Qed.

(** X18. The state holds nothing that the provider has not confirmed.  At every
    moment of a pass, under every schedule, an entry of the state is either
    the entry that the pass found there, or an address that the goroutine
    of a unit of work with this key sent to the provider in a write that
    the provider confirmed. *)
Theorem pass_state_confirmed {E} cfg (m0 : Machine E) (p : Pool E) k :
  reachable (UpdateAll_spawn cfg m0) p →
  updater.Records (m_state (p_machine p)) !! k = updater.Records (m_state m0) !! k
  ∨ ∃ i unit ip w,
      updater.units (config.Records cfg) !! i = Some unit
      ∧ updater.stateKey (config.ZoneID unit.1) (config.Name unit.1) unit.2 = k
      ∧ updater.Records (m_state (p_machine p)) !! k = Some ip
      ∧ w ∈ thread_trace i (p_trace p)
      ∧ confirmed_write_of w = Some ip.
Proof.
  intros Hreach. pose proof (reachable_inv _ _ _ Hreach) as [_ _ _ _ _ _ Hst].
  rewrite Hst, replay_lookup.
  destruct (last (omap (set_on k) (p_trace p).*2)) as [ip|] eqn:Hlast; [right|by left].
  apply last_Some_elem_of, list_elem_of_omap in Hlast as (ev & Hev & Hset).
  apply list_elem_of_fmap in Hev as ([i ev'] & -> & Hin). simpl in Hset.
  destruct ev' as [| | |z n t ip'| | |]; try done. simpl in Hset.
  case_decide as Hk; [|done]. injection Hset as ->.
  destruct (trace_thread_residual _ _ _ _ _ Hreach Hin) as (unit & q & Hu & Hres & Hin').
  destruct (residual_sets_own_key _ _ _ _ _ _ _ _ Hres Hin') as (-> & -> & ->).
  destruct (residual_set_confirmed _ _ _ _ _ _ _ _ Hres Hin') as (w & Hw & Hc).
  by exists i, unit, ip, w.
Qed.

Lemma pass_state_confirmed_witness :
  let m0 := sim.machine sim.fresh updater.NewState in
  let p := exec [0; 0; 0; 0; 0; 0; 1]%nat (UpdateAll_spawn sim.home_cfg m0) in
  let k := updater.stateKey "Z1" "home.example.com" "A" in
  updater.Records (m_state (p_machine p)) !! k = updater.Records (m_state m0) !! k
  ∨ ∃ i unit ip w,
      updater.units (config.Records sim.home_cfg) !! i = Some unit
      ∧ updater.stateKey (config.ZoneID unit.1) (config.Name unit.1) unit.2 = k
      ∧ updater.Records (m_state (p_machine p)) !! k = Some ip
      ∧ w ∈ thread_trace i (p_trace p)
      ∧ confirmed_write_of w = Some ip.
Proof.
  intros m0 p k. apply (pass_state_confirmed sim.home_cfg m0 p k). apply exec_reachable.
Defined.

(** ** One pass after another *)

(** X19. The daemon's next tick after a pass without error is silent.  When
    [UpdateAll] has returned nil, no goroutine having panicked, no two units
    of work share a key, and the lookup services answer during the next
    pass as they did during this one, the next call of [UpdateAll], which
    starts from the state and the caches that the first left, makes no call
    to the provider under any schedule, and leaves the state as the first
    pass left it. *)
Theorem second_pass_is_silent {E} cfg (m0 : Machine E) (p1 p2 : Pool E)
    (addr : bool → string) :
  reachable (UpdateAll_spawn cfg m0) p1 →
  UpdateAll_collect p1 = Some None →
  Forall (λ g, g ≠ updater.GoDone Panicked) (p_threads p1) →
  (∀ i j unit unit',
     updater.units (config.Records cfg) !! i = Some unit →
     updater.units (config.Records cfg) !! j = Some unit' →
     updater.stateKey (config.ZoneID unit'.1) (config.Name unit'.1) unit'.2
     = updater.stateKey (config.ZoneID unit.1) (config.Name unit.1) unit.2 →
     j = i) →
  (∀ j url isIPv6 ip, (j, EvFetchIP url isIPv6 (Ok ip)) ∈ p_trace p1 → ip = addr isIPv6) →
  reachable (UpdateAll_spawn cfg (p_machine p1)) p2 →
  (∀ j url isIPv6 ip, (j, EvFetchIP url isIPv6 (Ok ip)) ∈ p_trace p2 → ip = addr isIPv6) →
  Forall (λ e, is_provider_event e.2 = false) (p_trace p2)
  ∧ m_state (p_machine p2) = m_state (p_machine p1).
Proof.
  intros Hreach1 Hc Hsound Hkeys Hans1 Hreach2 Hans2.
  destruct (steady_state_quiet cfg (p_machine p1) p2 addr Hreach2) as [Hq Hs]; [|done|].
  - intros unit Hin. apply list_elem_of_lookup_1 in Hin as [i Hu].
    destruct (UpdateAll_aggregate _ _ _ _ Hreach1 Hc)
      as (outcomes & Hthreads & Hlen & Hpaths & Hr & _ & _).
    assert (outcomes !! i = Some (Returned None)) as Ho.
    { assert (is_Some (outcomes !! i)) as [o Ho].
      { apply lookup_lt_is_Some_2. rewrite Hlen. by eapply lookup_lt_Some. }
      rewrite Ho. f_equal. case_bool_decide as Hz; [|done]. apply count_zero in Hz.
      rewrite Forall_forall in Hz. rewrite Forall_forall in Hsound.
      pose proof (list_elem_of_lookup_2 _ _ _ Ho) as Hel.
      specialize (Hz o Hel). destruct o as [[e|]|]; [done..|].
      destruct (Hsound (updater.GoDone Panicked)); [|done].
      rewrite Hthreads. apply list_elem_of_fmap. by exists Panicked. }
    destruct (nil_path_holds_address cfg m0 p1 i unit Hreach1 Hu)
      as (url & ip & Hf & _ & Hget);
      [by intros j unit' Hu'; apply (Hkeys i j unit unit')|by apply (Hpaths i)|].
    rewrite Hget. apply (Hans1 i url). by apply thread_trace_elem.
  - split; [|done]. eapply Forall_impl; [exact Hq|]. intros [j ev] Hev. simpl in *.
    by destruct ev.
Qed.

Lemma second_pass_is_silent_witness :
  let m0 := sim.machine sim.fresh updater.NewState in
  let sched := [0; 1; 0; 1; 0; 1; 0; 1; 0; 1; 0; 1; 0; 1]%nat in
  let p1 := exec sched (UpdateAll_spawn sim.home_cfg m0) in
  let p2 := exec sched (UpdateAll_spawn sim.home_cfg (p_machine p1)) in
  Forall (λ e, is_provider_event e.2 = false) (p_trace p2)
  ∧ m_state (p_machine p2) = m_state (p_machine p1).
Proof.
  intros m0 sched p1 p2.
  apply (second_pass_is_silent sim.home_cfg m0 p1 p2 sim_io.addr).
  - apply exec_reachable.
  - vm_compute. reflexivity.
  - vm_compute. repeat constructor; discriminate.
  - intros i j unit unit' Hu Hu' Hk.
    destruct i as [|[|i]], j as [|[|j]]; try reflexivity;
      vm_compute in Hu, Hu'; try discriminate;
      injection Hu as <-; injection Hu' as <-; vm_compute in Hk; discriminate.
  - intros j url isIPv6 ip Hin. vm_compute in Hin.
    repeat (apply elem_of_cons in Hin as [Heq|Hin];
            [try discriminate; injection Heq as -> -> -> ->; reflexivity|]).
    by apply elem_of_nil in Hin.
  - apply exec_reachable.
  - intros j url isIPv6 ip Hin. vm_compute in Hin.
    repeat (apply elem_of_cons in Hin as [Heq|Hin];
            [try discriminate; injection Heq as -> -> -> ->; reflexivity|]).
    by apply elem_of_nil in Hin.
Defined.

(** ** The upsert *)

(** X20. [UpsertDNSRecord] makes one listing and then at most one write, and
    touches nothing else.  When the listing names records, the first of
    them decides: if it has a [Proxied], the write is an update of that
    record, by its identifier, the other records listed are left alone, and
    the error returned is the error of the update, wrapped, or nil; if it
    has none, the upsert panics at the find, without a write.  Otherwise,
    the listing being empty or having failed, the write is a creation: the
    upsert returns the error of the creation, wrapped, returns nil when
    the record that the provider answers has a [Proxied], and panics when
    it has none.  The state is left as it was. *)
Theorem UpsertDNSRecord_one_write {E} z n t c ttl px (m m' : Machine E) out evs :
  run (cloudflare.UpsertDNSRecord z n t c ttl px) m = (out, m', evs) →
  m_state m' = m_state m
  ∧ ∃ lr,
      match lr with
      | Ok (record :: _) =>
          match cf_Proxied record with
          | Some _ =>
              ∃ ur, evs = [EvList z n t lr; EvUpdate z (cf_ID record) c ttl px ur]
                    ∧ out = Returned (match ur with
                                      | Ok _ => None
                                      | Err e => Some (ErrUpdateDNS e)
                                      end)
          | None => evs = [EvList z n t lr] ∧ out = Panicked
          end
      | _ =>
          ∃ cr, evs = [EvList z n t lr; EvCreate z n t c ttl px cr]
                ∧ out = match cr with
                        | Err e => Returned (Some (ErrCreateDNS e))
                        | Ok made =>
                            match cf_Proxied made with
                            | Some _ => Returned None
                            | None => Panicked
                            end
                        end
      end.
Proof.
  intros Hrun. apply run_UpsertDNSRecord in Hrun as [Hpath Hst]. split; [done|].
  destruct Hpath as [record others ur [proxied Hpx]|lr cr Hlr|record others Hpx].
  - exists (Ok (record :: others)). rewrite Hpx. by exists ur.
  - exists lr.
    destruct lr as [[|record others]|err]; [by exists cr|by destruct (Hlr record others)|].
    by exists cr.
  - exists (Ok (record :: others)). by rewrite Hpx.
Qed.

Lemma UpsertDNSRecord_one_write_witness :
  let m := sim.machine sim_io.listed updater.NewState in
  let out := run (cloudflare.UpsertDNSRecord "Z1" "home.example.com" "A" "203.0.113.9"
                    120 false) m in
  m_state out.1.2 = m_state m
  ∧ ∃ lr,
      match lr with
      | Ok (record :: _) =>
          match cf_Proxied record with
          | Some _ =>
              ∃ ur, out.2 = [EvList "Z1" "home.example.com" "A" lr;
                             EvUpdate "Z1" (cf_ID record) "203.0.113.9" 120 false ur]
                    ∧ out.1.1 = Returned (match ur with
                                          | Ok _ => None
                                          | Err e => Some (ErrUpdateDNS e)
                                          end)
          | None => out.2 = [EvList "Z1" "home.example.com" "A" lr] ∧ out.1.1 = Panicked
          end
      | _ =>
          ∃ cr, out.2 = [EvList "Z1" "home.example.com" "A" lr;
                         EvCreate "Z1" "home.example.com" "A" "203.0.113.9" 120 false cr]
                ∧ out.1.1 = match cr with
                            | Err e => Returned (Some (ErrCreateDNS e))
                            | Ok made =>
                                match cf_Proxied made with
                                | Some _ => Returned None
                                | None => Panicked
                                end
                            end
      end.
Proof.
  intros m out.
  apply (UpsertDNSRecord_one_write "Z1" "home.example.com" "A" "203.0.113.9" 120 false m
           out.1.2 out.1.1 out.2).
  vm_compute. reflexivity.
Defined.
